(** * Polynomial normalization core of Yices 2: buffer stores, finite
    domains, red-black arithmetic buffers and the term bridge.

    The development follows the C sources:
    - [utils/ibuffer_store.c] and [utils/pbuffer_store.c] (module [BufferStore]),
    - [terms/term_utils.c], finite domains (module [TermUtils]),
    - [terms/rba_buffer_terms.c] (module [RbaBufferTerms]),
    - the red-black buffer used by the bridge and exercised by
      [test_add] (module [RbaBuffer]).

    The modules [BufferStoreInvariant], [BitArrays], [BvTerms] and
    [FiniteDomains] at the end cover more of [utils/ibuffer_store.c] and
    [terms/term_utils.c]: the buffers of a store that are checked out,
    the bounds and disequality checks on bit arrays and bit-vector terms,
    and the finite domains as sets of leaves, with the sign and
    disequality checks on arithmetic terms. *)

From Stdlib Require Import ZArith QArith Qcanon Lia.
From stdpp Require Import base numbers list gmap sorting.

#[local] Set Warnings "-clear-no-such-hyp".

(* ===================================================================== *)
(** * Outcomes of a call                                                 *)
(* ===================================================================== *)

(** A C function of these sources either returns, or is stopped by a
    failed [assert], or reads outside an object (no behaviour is defined
    then); [OutOfFuel] is the answer of a loop of the model that was given
    too small a bound on its number of iterations. *)
Inductive outcome (A : Type) : Type :=
  | Done (a : A)
  | AssertFailed
  | Undefined
  | OutOfFuel.
Arguments Done {A} a.
Arguments AssertFailed {A}.
Arguments Undefined {A}.
Arguments OutOfFuel {A}.

#[export] Instance outcome_ret : MRet outcome := @Done.
#[export] Instance outcome_bind : MBind outcome := λ A B f m,
  match m with
  | Done a => f a
  | AssertFailed => AssertFailed
  | Undefined => Undefined
  | OutOfFuel => OutOfFuel
  end.
#[export] Instance outcome_fmap : FMap outcome := λ A B f m,
  match m with
  | Done a => Done (f a)
  | AssertFailed => AssertFailed
  | Undefined => Undefined
  | OutOfFuel => OutOfFuel
  end.

(** [assert(c)]: compiled out when [NDEBUG] is defined. *)
Definition assert (NDEBUG : bool) (c : bool) : outcome unit :=
  if NDEBUG then Done () else if c then Done () else AssertFailed.

(** [a[i]] for an array held as a list: reading outside is undefined. *)
Definition read {A : Type} (a : list A) (i : Z) : outcome A :=
  if (i <? 0)%Z then Undefined
  else match a !! Z.to_nat i with
       | Some x => Done x
       | None => Undefined
       end.

(** Unsigned 32-bit wrap-around. *)
Definition u32 (x : Z) : Z := (x `mod` 2 ^ 32)%Z.

(** Facts on reads, assertions and wrap-around. *)

Local Open Scope Z_scope.


Lemma read_Done {A} (a : list A) i x :
  read a i = Done x ↔ 0 ≤ i ∧ a !! Z.to_nat i = Some x.
Proof.
  unfold read. destruct (Z.ltb_spec i 0).
  - split; [done|lia].
  - destruct (a !! Z.to_nat i); split.
    + intros [= ->]. done.
    + intros [_ [= ->]]. done.
    + done.
    + by intros [_ ?].
Qed.

Lemma read_in_range {A} (a : list A) i :
  0 ≤ i < Z.of_nat (length a) → ∃ x, read a i = Done x ∧ a !! Z.to_nat i = Some x.
Proof.
  intros Hi. destruct (lookup_lt_is_Some_2 a (Z.to_nat i)) as [x Hx]; [lia|].
  exists x. split; [|done]. apply read_Done. split; [lia|done].
Qed.

Lemma assert_true NDEBUG c : c = true → assert NDEBUG c = Done ().
Proof. intros ->. unfold assert. by destruct NDEBUG. Qed.

Lemma u32_small x : 0 ≤ x < 2 ^ 32 → u32 x = x.
Proof. intros. unfold u32. by apply Z.mod_small. Qed.

Local Close Scope Z_scope.

(** Terms are 32-bit signed integers ([term_t]). *)
Definition term_t := Z.

(** The term kinds that these sources name; [OTHER_KIND] stands for the
    remaining codes of the enumeration, which none of them tests for. *)
Inductive term_kind_t : Set :=
  | CONSTANT_TERM | ARITH_CONSTANT | BV64_CONSTANT | BV_CONSTANT
  | ITE_SPECIAL | UPDATE_TERM | TUPLE_TERM | EQ_TERM | OR_TERM | XOR_TERM
  | BV_ARRAY | BV_DIV | BV_REM | BV_SDIV | BV_SREM | BV_SMOD
  | BV_SHL | BV_LSHR | BV_ASHR | BV_EQ_ATOM | BV_GE_ATOM | BV_SGE_ATOM
  | BIT_TERM | POWER_PRODUCT | ARITH_POLY | BV64_POLY | BV_POLY
  | OTHER_KIND (code : N).

#[export] Instance term_kind_eq_dec : EqDecision term_kind_t.
Proof. solve_decision. Defined.

(* ===================================================================== *)
(** * Thread-local stores of integer and pointer buffers                 *)
(* ===================================================================== *)

Module BufferStore.

(** Addresses of the [ibuffer_elem_t] / [pbuffer_elem_t] objects obtained
    from [safe_malloc].  The buffer embedded in an element and the element's
    list header are the same object ([ibuffer_header] and [ibuffer] convert
    between the two by a constant offset), so one address names both. *)
Definition addr := positive.

(** [ivector_t] / [pvector_t] of [utils/int_vectors.h] and
    [utils/ptr_vectors.h]: a capacity and the [size] elements stored. *)
Record vector (A : Type) : Type := Vector {
  capacity : N;
  elems : list A
}.
Arguments Vector {A} _ _.
Arguments capacity {A} _.
Arguments elems {A} _.

Section Store.
Context {A : Type}.

Definition size (v : vector A) : nat := length (elems v).

(** [init_ivector(v, n)]: room for [n] elements, none stored. *)
Definition init_vector (n : N) : vector A := Vector n [].

(** [resize_ivector(v, n)]: make the capacity at least [n]; the
    contents are kept. *)
Definition resize_vector (n : N) (v : vector A) : vector A :=
  Vector (N.max (capacity v) n) (elems v).

(** [ivector_reset(v)]: empty the vector, keep its capacity. *)
Definition vector_reset (v : vector A) : vector A :=
  Vector (capacity v) [].

(** The store of one thread: the elements that are allocated and not
    freed, and the doubly-linked list [ibuffer_list] of available
    elements, read from [ibuffer_list.next] onwards. *)
Record store : Type := Store {
  live : gmap addr (vector A);
  buffer_list : list addr
}.

(** [clear_list(&ibuffer_list)]. *)
Definition init_buffer_store (s : store) : store :=
  Store (live s) [].

(** The loop of [delete_ibuffer_store]: [delete_ivector] and [safe_free]
    on each element of the list, in list order. *)
Fixpoint free_elems (l : list addr) (h : gmap addr (vector A))
  : gmap addr (vector A) :=
  match l with
  | [] => h
  | elem :: aux => free_elems aux (delete elem h)
  end.

Definition delete_buffer_store (s : store) : store :=
  Store (free_elems (buffer_list s) (live s)) [].

Definition alloc_buffer (n : N) (s : store) : store * addr :=
  match buffer_list s with
  | [] =>
      (* empty_list: safe_malloc, then init_ivector *)
      let elem := fresh (dom (live s)) in
      (Store (<[elem := init_vector n]> (live s)) [], elem)
  | elem :: rest =>
      (* elem = ibuffer_list.next; list_remove(elem); resize_ivector *)
      (Store (alter (resize_vector n) elem (live s)) rest, elem)
  end.

(** [free_ibuffer(b)], for a buffer [b] that is checked out: the list
    header is embedded in the element, so an element is on the list at
    most once, and [list_insert_next] is meant for an element that is not
    on it. *)
Definition free_buffer (b : addr) (s : store) : store :=
  (* ivector_reset(b); list_insert_next(&ibuffer_list, elem) *)
  Store (alter vector_reset b (live s)) (b :: buffer_list s).

(** Every available buffer is allocated and holds no element. *)
Definition pool_inv (s : store) : Prop :=
  ∀ e, e ∈ buffer_list s → ∃ v, live s !! e = Some v ∧ elems v = [].

End Store.
Arguments store : clear implicits.

(** The two instances of the store. [int32_t] elements are integers,
    the [void *] elements of a pointer buffer are kept abstract. *)
Definition ivector_t := vector Z.
Definition init_ibuffer_store : store Z → store Z := init_buffer_store.
Definition delete_ibuffer_store : store Z → store Z := delete_buffer_store.
Definition alloc_ibuffer : N → store Z → store Z * addr := alloc_buffer.
Definition free_ibuffer : addr → store Z → store Z := free_buffer.

Section PStore.
Context {P : Type}.
Definition init_pbuffer_store : store P → store P := init_buffer_store.
Definition delete_pbuffer_store : store P → store P := delete_buffer_store.
Definition alloc_pbuffer : N → store P → store P * addr := alloc_buffer.
Definition free_pbuffer : addr → store P → store P := free_buffer.
End PStore.

(** ** Generic facts *)

Section StoreFacts.
Context {A : Type}.
Implicit Types (s : store A) (b e : addr) (n : N).

Lemma free_elems_lookup_in (l : list addr) (h : gmap addr (vector A)) e :
  e ∈ l → free_elems l h !! e = None.
Proof.
  revert h. induction l as [|x l IH]; intros h Hin.
  - by apply elem_of_nil in Hin.
  - simpl. destruct (decide (e ∈ l)) as [Hl|Hl]; [by apply IH|].
    apply elem_of_cons in Hin as [->|?]; [|done].
    clear IH Hl. revert h. induction l as [|y l IH]; intros h; simpl.
    + apply lookup_delete_eq.
    + rewrite delete_delete. apply IH.
Qed.

Lemma free_elems_lookup_notin (l : list addr) (h : gmap addr (vector A)) e :
  e ∉ l → free_elems l h !! e = h !! e.
Proof.
  revert h. induction l as [|x l IH]; intros h Hin; [done|].
  apply not_elem_of_cons in Hin as [Hne Hl]. simpl.
  rewrite IH by done. by apply lookup_delete_ne.
Qed.

Lemma free_buffer_list b s :
  buffer_list (free_buffer b s) = b :: buffer_list s.
Proof. done. Qed.

Lemma free_buffer_empties b s v :
  live s !! b = Some v →
  live (free_buffer b s) !! b = Some (Vector (capacity v) []).
Proof. intros Hb. simpl. rewrite lookup_alter_eq, Hb. done. Qed.

Lemma alloc_buffer_nonempty n s e rest :
  buffer_list s = e :: rest →
  alloc_buffer n s = (Store (alter (resize_vector n) e (live s)) rest, e).
Proof. intros Hl. unfold alloc_buffer. by rewrite Hl. Qed.

Lemma alloc_buffer_empty n s :
  buffer_list s = [] →
  let e := fresh (dom (live s)) in
  alloc_buffer n s = (Store (<[e := init_vector n]> (live s)) [], e)
  ∧ live s !! e = None.
Proof.
  intros Hl e. unfold alloc_buffer. rewrite Hl. split; [done|].
  apply not_elem_of_dom, is_fresh.
Qed.

Lemma pool_inv_free b s :
  is_Some (live s !! b) → pool_inv s → pool_inv (free_buffer b s).
Proof.
  intros [v Hv] Hinv e He. simpl in *.
  destruct (decide (e = b)) as [->|Hne].
  - exists (vector_reset v). by rewrite lookup_alter_eq, Hv.
  - apply elem_of_cons in He as [?|He]; [done|].
    destruct (Hinv e He) as (w & Hw & Hz). exists w.
    by rewrite lookup_alter_ne.
Qed.

Lemma pool_inv_alloc n s : pool_inv s → pool_inv (alloc_buffer n s).1.
Proof.
  intros Hinv. unfold alloc_buffer.
  destruct (buffer_list s) as [|x rest] eqn:Hl; simpl.
  - intros e He. by apply elem_of_nil in He.
  - intros e He.
    destruct (Hinv e) as (w & Hw & Hz); [rewrite Hl; by right|]. simpl.
    destruct (decide (e = x)) as [->|Hne].
    + exists (resize_vector n w). by rewrite lookup_alter_eq, Hw.
    + exists w. by rewrite lookup_alter_ne.
Qed.

Lemma pool_inv_init s : pool_inv (init_buffer_store s).
Proof. intros e He. by apply elem_of_nil in He. Qed.

Lemma pool_inv_delete s : pool_inv (delete_buffer_store s).
Proof. intros e He. by apply elem_of_nil in He. Qed.

(** What a release followed by acquisitions does, for one pair of
    operations [alloc]/[free] of a store.  The list of available buffers
    holds each of its elements once, and the buffer released is allocated
    and checked out (not on the list):
    - a release empties the buffer and makes it the first of the list,
      which still holds each element once;
    - an acquisition right after the release returns the released
      buffer, with no element and room for [n], and the list is as it was
      before the release;
    - an acquisition from a non-empty list returns the first of the list,
      that is the buffer released last among the available ones, only
      resized;
    - when every available buffer was put there by a release
      ([pool_inv]), the buffer returned has no element;
    - an acquisition from an empty list returns a new element, that was
      not allocated before, with no element and room for [n]. *)
Definition lifo_reuse (alloc : N → store A → store A * addr)
    (free : addr → store A → store A) : Prop :=
  (∀ s b v, NoDup (buffer_list s) → b ∉ buffer_list s →
     live s !! b = Some v →
     live (free b s) !! b = Some (Vector (capacity v) [])
     ∧ buffer_list (free b s) = b :: buffer_list s
     ∧ NoDup (buffer_list (free b s)))
  ∧ (∀ s b v n, NoDup (buffer_list s) → b ∉ buffer_list s →
     live s !! b = Some v →
     ∃ s' v', alloc n (free b s) = (s', b)
       ∧ buffer_list s' = buffer_list s
       ∧ live s' !! b = Some v' ∧ elems v' = [] ∧ (n ≤ capacity v')%N)
  ∧ (∀ s e rest n, buffer_list s = e :: rest →
     (alloc n s).2 = e ∧ buffer_list (alloc n s).1 = rest
     ∧ live (alloc n s).1 !! e = resize_vector n <$> live s !! e)
  ∧ (∀ s e rest n, pool_inv s → buffer_list s = e :: rest →
     ∃ v', live (alloc n s).1 !! (alloc n s).2 = Some v' ∧ elems v' = [])
  ∧ (∀ s n, buffer_list s = [] →
     live s !! (alloc n s).2 = None
     ∧ live (alloc n s).1 !! (alloc n s).2 = Some (Vector n [])
     ∧ buffer_list (alloc n s).1 = []).

Lemma lifo_reuse_generic : lifo_reuse alloc_buffer free_buffer.
Proof.
  unfold lifo_reuse. split_and!.
  - intros s b v Hnd Hnb Hb. split_and!.
    + by apply free_buffer_empties.
    + done.
    + simpl. by apply NoDup_cons.
  - intros s b v n Hnd Hnb Hb.
    exists (Store (alter (resize_vector n) b (live (free_buffer b s)))
                  (buffer_list s)),
           (resize_vector n (vector_reset v)).
    split_and!; simpl; try done.
    + by rewrite !lookup_alter_eq, Hb.
    + lia.
  - intros s e rest n Hl. unfold alloc_buffer. rewrite Hl. simpl.
    split_and!; [done..|]. by rewrite lookup_alter_eq.
  - intros s e rest n Hinv Hl.
    destruct (Hinv e) as (w & Hw & Hz); [rewrite Hl; by left|].
    exists (resize_vector n w). unfold alloc_buffer. rewrite Hl. simpl.
    by rewrite lookup_alter_eq, Hw.
  - intros s n Hl. destruct (alloc_buffer_empty n s Hl) as [-> ?]. simpl.
    split_and!; [done| |done]. by rewrite lookup_insert_eq.
Qed.

(** What teardown does: the list is emptied, the elements that were on
    it are freed, and every other element is left as it was. *)
Definition teardown_frees_list (delete : store A → store A) : Prop :=
  ∀ s, buffer_list (delete s) = []
     ∧ (∀ e, e ∈ buffer_list s → live (delete s) !! e = None)
     ∧ (∀ e, e ∉ buffer_list s → live (delete s) !! e = live s !! e).

Lemma teardown_frees_list_generic : teardown_frees_list delete_buffer_store.
Proof.
  intros s. split; [done|]. split; intros e He; simpl.
  - by apply free_elems_lookup_in.
  - by apply free_elems_lookup_notin.
Qed.

End StoreFacts.

(** ** Properties of the two stores *)

(** C7. Releasing a buffer that is checked out (allocated and not on the
    list of available buffers, which holds each of its elements once)
    empties it and puts it first in the list; the next acquisition from a
    non-empty list returns the buffer released last, with no element in
    it; an acquisition from an empty list allocates a new buffer.  Holds
    for the integer and for the pointer store. *)
Theorem release_acquire_lifo :
  lifo_reuse alloc_ibuffer free_ibuffer
  ∧ ∀ P : Type, lifo_reuse (@alloc_pbuffer P) (@free_pbuffer P).
Proof. split; [|intros P]; apply lifo_reuse_generic. Qed.

(** A run of the integer store: two buffers are acquired, filled by the
    client, released, and acquired again in the reverse order of their
    release. *)
Definition store0 : store Z := init_ibuffer_store (Store ∅ []).

Example lifo_run :
  let '(s1, b1) := alloc_ibuffer 4 store0 in
  let '(s2, b2) := alloc_ibuffer 4 s1 in
  let s3 := Store (<[b1 := Vector 4 [10%Z; 20%Z]]> (live s2)) (buffer_list s2) in
  let s4 := free_ibuffer b2 (free_ibuffer b1 s3) in
  let '(s5, c1) := alloc_ibuffer 9 s4 in
  let '(s6, c2) := alloc_ibuffer 2 s5 in
  b1 ≠ b2 ∧ c1 = b2 ∧ c2 = b1
  ∧ live s6 !! c2 = Some (Vector 4 []) ∧ live s6 !! c1 = Some (Vector 9 [])
  ∧ buffer_list s6 = [].
Proof. vm_compute. repeat split; congruence. Qed.

(** A store with the buffer 1 checked out, holding two elements, and
    the buffer 2 available: 1 is released and acquired again. *)
Definition store1 : store Z :=
  Store (<[1%positive := Vector 4 [10%Z; 20%Z]]>
           (<[2%positive := Vector 4 []]> ∅))
        [2%positive].

Lemma release_acquire_lifo_witness :
  ∃ s' v',
    alloc_ibuffer 9 (free_ibuffer 1%positive store1) = (s', 1%positive)
    ∧ buffer_list s' = [2%positive]
    ∧ live s' !! 1%positive = Some v' ∧ elems v' = [] ∧ (9 ≤ capacity v')%N.
Proof.
  destruct release_acquire_lifo as [(_ & Hreuse & _) _].
  apply (Hreuse store1 1%positive (Vector 4 [10%Z; 20%Z]) 9%N).
  - apply NoDup_singleton.
  - by intros ?%list_elem_of_singleton.
  - reflexivity.
Defined.

(** C8, as stated, fails: a buffer that is checked out when the store is
    torn down is not on the list, and is still allocated afterwards. *)
Lemma teardown_leaves_checked_out_buffer :
  live (delete_ibuffer_store (alloc_ibuffer 8 store0).1)
    !! (alloc_ibuffer 8 store0).2 = Some (Vector 8 []).
Proof. vm_compute. reflexivity. Qed.

(** C8, amended. Teardown empties the list of available buffers and frees
    every element that was on it; the elements that are checked out at
    that time are not on the list and stay allocated, unchanged.  Holds for
    the integer and for the pointer store. *)
Theorem teardown_frees_available :
  teardown_frees_list delete_ibuffer_store
  ∧ ∀ P : Type, teardown_frees_list (@delete_pbuffer_store P).
Proof. split; [|intros P]; apply teardown_frees_list_generic. Qed.

End BufferStore.

(* ===================================================================== *)
(** * Finite domains of special if-then-else terms                       *)
(* ===================================================================== *)

Module TermUtils.

(** [finite_domain_t]: [nelems] and the array [data]. *)
Record finite_domain_t : Type := FiniteDomain {
  nelems : Z;
  data : list term_t
}.

(** [composite_term_t] and [special_term_t]: the descriptor of a special
    if-then-else holds the composite [(ite c t1 t2)] and the domain
    ([NULL] until it is computed). *)
Record composite_term_t : Type := Composite {
  arity : Z;
  arg : list term_t
}.

Record special_term_t : Type := Special {
  extra : option finite_domain_t;
  body : composite_term_t
}.

(** The part of the term table that these functions read: the kind of
    each term and, for an [ITE_SPECIAL] term, its descriptor. *)
Record term_entry : Type := Entry {
  entry_kind : term_kind_t;
  entry_desc : option special_term_t
}.

Abbreviation term_table_t := (gmap term_t term_entry).

(** [term_kind(tbl, t)] and [ite_special_desc(tbl, t)]. *)
Definition term_kind (tbl : term_table_t) (t : term_t) : outcome term_kind_t :=
  match tbl !! t with
  | Some e => Done (entry_kind e)
  | None => Undefined
  end.

Definition ite_special_desc (tbl : term_table_t) (t : term_t)
  : outcome special_term_t :=
  match tbl !! t with
  | Some (Entry _ (Some d)) => Done d
  | _ => Undefined
  end.

(** [int_hset_add(cache, t)]: true when [t] was not in the set. *)
Definition int_hset_add (cache : gset term_t) (t : term_t) : bool * gset term_t :=
  (bool_decide (t ∉ cache), {[t]} ∪ cache).

(** [ivector_push(v, t)]. *)
Definition ivector_push (v : list term_t) (t : term_t) : list term_t := v ++ [t].

Section Build.
Variable NDEBUG : bool.
Variable MAX_FINITE_DOMAIN_SIZE : Z.
(** [int_array_sort(a, n)] of [utils/int_array_sort.h]. *)
Variable int_array_sort : list term_t → list term_t.

Definition make_finite_domain (a : list term_t) (n : Z) : outcome finite_domain_t :=
  _ ← assert NDEBUG (n <=? MAX_FINITE_DOMAIN_SIZE)%Z;
  Done (FiniteDomain n (take (Z.to_nat n) a)).

(** Loop of [add_domain], over [dom->data[0 .. n-1]]. *)
Fixpoint add_domain_loop (cache : gset term_t) (v : list term_t)
    (l : list term_t) : gset term_t * list term_t :=
  match l with
  | [] => (cache, v)
  | t :: l =>
      let '(fresh, cache) := int_hset_add cache t in
      add_domain_loop cache (if fresh then ivector_push v t else v) l
  end.

Definition add_domain (cache : gset term_t) (v : list term_t)
    (dom : finite_domain_t) : gset term_t * list term_t :=
  add_domain_loop cache v (take (Z.to_nat (nelems dom)) (data dom)).

Fixpoint collect_finite_domain (fuel : nat) (tbl : term_table_t)
    (cache : gset term_t) (v : list term_t) (t : term_t)
  : outcome (gset term_t * list term_t) :=
  match fuel with
  | O => OutOfFuel
  | S fuel =>
      let '(fresh, cache) := int_hset_add cache t in
      if fresh then
        k ← term_kind tbl t;
        if decide (k = ITE_SPECIAL) then
          d ← ite_special_desc tbl t;
          match extra d with
          | Some dom => Done (add_domain cache v dom)
          | None =>
              a1 ← read (arg (body d)) 1;
              '(cache, v) ← collect_finite_domain fuel tbl cache v a1;
              a2 ← read (arg (body d)) 2;
              collect_finite_domain fuel tbl cache v a2
          end
        else
          _ ← assert NDEBUG (bool_decide (k = ARITH_CONSTANT ∨ k = BV64_CONSTANT
                                          ∨ k = BV_CONSTANT));
          Done (cache, ivector_push v t)
      else Done (cache, v)
  end.

Definition build_ite_finite_domain (fuel : nat) (tbl : term_table_t)
    (d : composite_term_t) : outcome finite_domain_t :=
  _ ← assert NDEBUG (arity d =? 3)%Z;
  a1 ← read (arg d) 1;
  '(cache, buffer) ← collect_finite_domain fuel tbl ∅ [] a1;
  a2 ← read (arg d) 2;
  '(cache, buffer) ← collect_finite_domain fuel tbl cache buffer a2;
  let buffer := int_array_sort buffer in
  make_finite_domain buffer (Z.of_nat (length buffer)).

(** [d->extra = ...]: the descriptor of [t] is updated in the table. *)
Definition set_extra (tbl : term_table_t) (t : term_t) (dom : finite_domain_t)
  : term_table_t :=
  alter (λ e, Entry (entry_kind e)
                (option_map (λ d, Special (Some dom) (body d)) (entry_desc e)))
        t tbl.

Definition special_ite_get_finite_domain (fuel : nat) (tbl : term_table_t)
    (t : term_t) : outcome (finite_domain_t * term_table_t) :=
  d ← ite_special_desc tbl t;
  match extra d with
  | None =>
      dom ← build_ite_finite_domain fuel tbl (body d);
      Done (dom, set_extra tbl t dom)
  | Some dom => Done (dom, tbl)
  end.

(** The binary search of [term_is_in_finite_domain]: returns the final
    [(l, h, k)]. *)
Fixpoint search_loop (fuel : nat) (dom : finite_domain_t) (u : term_t)
    (l h : Z) : outcome (Z * Z * Z) :=
  match fuel with
  | O => OutOfFuel
  | S fuel =>
      let k := (u32 (l + h) `div` 2)%Z in
      _ ← assert NDEBUG ((l <=? k) && (k <? h) && (h <=? nelems dom))%Z;
      if (k =? l)%Z then Done (l, h, k)
      else
        x ← read (data dom) k;
        if (x >? u)%Z then search_loop fuel dom u l k
        else search_loop fuel dom u k h
  end.

Definition term_is_in_finite_domain (fuel : nat) (tbl : term_table_t)
    (t u : term_t) : outcome (bool * term_table_t) :=
  '(dom, tbl) ← special_ite_get_finite_domain fuel tbl t;
  _ ← assert NDEBUG (nelems dom >=? 2)%Z;
  '(l, h, k) ← search_loop fuel dom u 0 (nelems dom);
  _ ← assert NDEBUG ((l =? k) && (u32 (k + 1) =? h))%Z;
  x ← read (data dom) k;
  Done ((x =? u)%Z, tbl).

(** The loop of [disjoint_finite_domains]. *)
Fixpoint disjoint_loop (fuel : nat) (d1 d2 : finite_domain_t)
    (i1 i2 : Z) (t1 t2 : term_t) : outcome bool :=
  match fuel with
  | O => OutOfFuel
  | S fuel =>
      if (t1 =? t2)%Z then Done false
      else if (t1 <? t2)%Z then
        let i1 := u32 (i1 + 1) in
        if (i1 =? nelems d1)%Z then Done true
        else t1 ← read (data d1) i1; disjoint_loop fuel d1 d2 i1 i2 t1 t2
      else
        let i2 := u32 (i2 + 1) in
        if (i2 =? nelems d2)%Z then Done true
        else t2 ← read (data d2) i2; disjoint_loop fuel d1 d2 i1 i2 t1 t2
  end.

Definition disjoint_finite_domains (fuel : nat) (d1 d2 : finite_domain_t)
  : outcome bool :=
  _ ← assert NDEBUG ((nelems d1 >? 0) && (nelems d2 >? 0))%Z;
  t1 ← read (data d1) 0;
  t2 ← read (data d2) 0;
  disjoint_loop fuel d1 d2 0 0 t1 t2.

Definition terms_have_disjoint_finite_domains (fuel : nat)
    (tbl : term_table_t) (t u : term_t) : outcome (bool * term_table_t) :=
  '(d1, tbl) ← special_ite_get_finite_domain fuel tbl t;
  '(d2, tbl) ← special_ite_get_finite_domain fuel tbl u;
  b ← disjoint_finite_domains fuel d1 d2;
  Done (b, tbl).

End Build.

(** ** Correctness of the finite-domain functions *)

Local Open Scope Z_scope.

Lemma StronglySorted_lt_lookup (l : list Z) i j x y :
  StronglySorted Z.lt l → l !! i = Some x → l !! j = Some y → (i < j)%nat → x < y.
Proof.
  intros Hs. revert i j. induction Hs as [|a l Hs IH Hall]; intros i j Hi Hj Hij.
  - done.
  - destruct i as [|i], j as [|j]; simpl in *; try lia.
    + simplify_eq. rewrite Forall_forall in Hall. apply Hall.
      by eapply list_elem_of_lookup_2.
    + eapply IH; eauto. lia.
Qed.

Lemma StronglySorted_le_NoDup_lt (l : list Z) :
  StronglySorted Z.le l → NoDup l → StronglySorted Z.lt l.
Proof.
  induction 1 as [|a l Hs IH Hall]; intros Hnd; constructor.
  - apply IH. by apply NoDup_cons in Hnd as [_ ?].
  - apply NoDup_cons in Hnd as [Hn _]. rewrite Forall_forall in *.
    intros x Hx. specialize (Hall x Hx).
    assert (x ≠ a); [|lia]. by intros ->.
Qed.

Lemma StronglySorted_lt_NoDup (l : list Z) : StronglySorted Z.lt l → NoDup l.
Proof.
  induction 1 as [|a l Hs IH Hall]; constructor; [|done].
  intros Hin. rewrite Forall_forall in Hall.
  specialize (Hall _ Hin). lia.
Qed.

Section SearchFacts.
Variable NDEBUG : bool.
Variables (dom : finite_domain_t) (u : term_t).
Hypothesis Hlen : nelems dom = Z.of_nat (length (data dom)).
Hypothesis Hsorted : StronglySorted Z.lt (data dom).
Hypothesis Hsmall : nelems dom < 2 ^ 31.

Definition occurs_within (l h : Z) : Prop :=
  ∀ j, data dom !! j = Some u → l ≤ Z.of_nat j < h.

Lemma search_loop_spec fuel l h :
  0 ≤ l < h → h ≤ nelems dom → h - l ≤ Z.of_nat fuel → occurs_within l h →
  ∃ k, search_loop NDEBUG fuel dom u l h = Done (k, k + 1, k)
       ∧ 0 ≤ k < nelems dom ∧ occurs_within k (k + 1).
Proof.
  revert l h. induction fuel as [|fuel IH]; intros l h Hlh Hh Hfuel Hocc; [lia|].
  simpl. rewrite u32_small by lia.
  set (k := (l + h) `div` 2).
  assert (l ≤ k < h) as Hk by (unfold k; split; [apply Z.div_le_lower_bound|apply Z.div_lt_upper_bound]; lia).
  rewrite assert_true by lia. simpl.
  destruct (Z.eqb_spec k l) as [Hkl|Hkl].
  - assert (h = l + 1) as -> by (unfold k in Hkl; pose proof (Z.div_mod (l + h) 2); pose proof (Z.mod_pos_bound (l + h) 2); lia).
    exists l. split; [by rewrite Hkl|]. split; [lia|done].
  - destruct (read_in_range (data dom) k) as (x & -> & Hx); [lia|]. simpl.
    destruct (Z.gtb_spec x u) as [Hxu|Hxu].
    + apply IH; [lia..|].
      intros j Hj. specialize (Hocc j Hj). split; [lia|].
      destruct (decide (Z.of_nat j < k)) as [|Hge]; [done|].
      assert (x ≤ u); [|lia].
      destruct (decide (Z.to_nat k = j)) as [<-|Hne]; [congruence|].
      assert (x < u); [|lia].
      eapply (StronglySorted_lt_lookup _ (Z.to_nat k) j); eauto; lia.
    + apply IH; [lia..|].
      intros j Hj. specialize (Hocc j Hj). split; [|lia].
      destruct (decide (k ≤ Z.of_nat j)) as [|Hlt]; [done|].
      assert (u < x); [|lia].
      eapply (StronglySorted_lt_lookup _ j (Z.to_nat k)); eauto; lia.
Qed.

Lemma search_decides fuel :
  1 ≤ nelems dom → nelems dom ≤ Z.of_nat fuel →
  ∃ k x, search_loop NDEBUG fuel dom u 0 (nelems dom) = Done (k, k + 1, k)
         ∧ read (data dom) k = Done x
         ∧ (x = u ↔ u ∈ data dom).
Proof.
  intros Hn Hfuel.
  destruct (search_loop_spec fuel 0 (nelems dom)) as (k & Hk & Hr & Hocc); [lia..| |].
  { intros j Hj. apply lookup_lt_Some in Hj. lia. }
  destruct (read_in_range (data dom) k) as (x & Hx & Hkx); [lia|].
  exists k, x. split; [done|]. split; [done|]. split.
  - intros ->. by eapply list_elem_of_lookup_2.
  - intros [j Hj]%list_elem_of_lookup. specialize (Hocc j Hj).
    assert (j = Z.to_nat k) as -> by lia. congruence.
Qed.

End SearchFacts.

Section DisjointFacts.
Variable NDEBUG : bool.
Variables (d1 d2 : finite_domain_t).
Hypothesis Hlen1 : nelems d1 = Z.of_nat (length (data d1)).
Hypothesis Hlen2 : nelems d2 = Z.of_nat (length (data d2)).
Hypothesis Hsorted1 : StronglySorted Z.lt (data d1).
Hypothesis Hsorted2 : StronglySorted Z.lt (data d2).
Hypothesis Hsmall1 : nelems d1 < 2 ^ 32.
Hypothesis Hsmall2 : nelems d2 < 2 ^ 32.

Definition disjoint_data : Prop := ∀ x, x ∈ data d1 → x ∉ data d2.

Lemma not_in_other (a b : list Z) i j t s :
  StronglySorted Z.lt b →
  a !! i = Some t → b !! j = Some s → t < s →
  (∀ j' y, (j' < j)%nat → b !! j' = Some y → y ∉ a) →
  t ∉ b.
Proof.
  intros Hb Hi Hj Hts Hinv [j' Hj']%list_elem_of_lookup.
  destruct (lt_eq_lt_dec j' j) as [[Hlt| ->]|Hgt].
  - apply (Hinv j' t Hlt Hj'). by eapply list_elem_of_lookup_2.
  - simplify_eq. lia.
  - pose proof (StronglySorted_lt_lookup b j j' s t Hb Hj Hj' Hgt). lia.
Qed.

Lemma disjoint_loop_spec fuel i1 i2 t1 t2 :
  0 ≤ i1 < nelems d1 → 0 ≤ i2 < nelems d2 →
  data d1 !! Z.to_nat i1 = Some t1 → data d2 !! Z.to_nat i2 = Some t2 →
  (nelems d1 - i1) + (nelems d2 - i2) ≤ Z.of_nat fuel →
  (∀ j x, (j < Z.to_nat i1)%nat → data d1 !! j = Some x → x ∉ data d2) →
  (∀ j y, (j < Z.to_nat i2)%nat → data d2 !! j = Some y → y ∉ data d1) →
  ∃ b, disjoint_loop fuel d1 d2 i1 i2 t1 t2 = Done b
       ∧ (b = true ↔ disjoint_data).
Proof.
  revert i1 i2 t1 t2.
  induction fuel as [|fuel IH]; intros i1 i2 t1 t2 Hi1 Hi2 Ht1 Ht2 Hfuel Hinv1 Hinv2;
    [lia|].
  simpl. destruct (Z.eqb_spec t1 t2) as [Heq|Hne].
  - exists false. split; [done|]. split; [done|]. intros Hd. exfalso.
    apply (Hd t1); [by eapply list_elem_of_lookup_2|].
    subst. by eapply list_elem_of_lookup_2.
  - destruct (Z.ltb_spec t1 t2) as [Hlt|Hge].
    + assert (t1 ∉ data d2) as Hout by (eapply not_in_other; eauto).
      assert (∀ j x, (j < Z.to_nat (i1 + 1))%nat → data d1 !! j = Some x
                     → x ∉ data d2) as Hinv1'.
      { intros j x Hj Hx. destruct (decide (j = Z.to_nat i1)) as [-> |].
        - congruence.
        - apply (Hinv1 j); [lia|done]. }
      rewrite u32_small by lia.
      destruct (Z.eqb_spec (i1 + 1) (nelems d1)) as [Hend|Hmore].
      * exists true. split; [done|]. split; [|done]. intros _ x [j Hj]%list_elem_of_lookup.
        apply (Hinv1' j); [|done]. apply lookup_lt_Some in Hj. lia.
      * destruct (read_in_range (data d1) (i1 + 1)) as (x & -> & Hx); [lia|].
        simpl. apply IH; auto; lia.
    + assert (t2 ∉ data d1) as Hout by (eapply not_in_other; eauto; lia).
      assert (∀ j y, (j < Z.to_nat (i2 + 1))%nat → data d2 !! j = Some y
                     → y ∉ data d1) as Hinv2'.
      { intros j y Hj Hy. destruct (decide (j = Z.to_nat i2)) as [-> |].
        - congruence.
        - apply (Hinv2 j); [lia|done]. }
      rewrite u32_small by lia.
      destruct (Z.eqb_spec (i2 + 1) (nelems d2)) as [Hend|Hmore].
      * exists true. split; [done|]. split; [|done]. intros _ x Hx1 [j Hj]%list_elem_of_lookup.
        apply (Hinv2' j x); [|done..]. apply lookup_lt_Some in Hj. lia.
      * destruct (read_in_range (data d2) (i2 + 1)) as (y & -> & Hy); [lia|].
        simpl. apply IH; auto; lia.
Qed.

Lemma disjoint_finite_domains_spec fuel :
  1 ≤ nelems d1 → 1 ≤ nelems d2 → nelems d1 + nelems d2 ≤ Z.of_nat fuel →
  ∃ b, disjoint_finite_domains NDEBUG fuel d1 d2 = Done b
       ∧ (b = true ↔ disjoint_data).
Proof.
  intros Hn1 Hn2 Hfuel. unfold disjoint_finite_domains.
  rewrite assert_true by lia. simpl.
  destruct (read_in_range (data d1) 0) as (t1 & -> & Ht1); [lia|].
  destruct (read_in_range (data d2) 0) as (t2 & -> & Ht2); [lia|].
  simpl. apply disjoint_loop_spec; auto; try lia.
Qed.

End DisjointFacts.

Definition is_constant_kind (k : term_kind_t) : Prop :=
  k = ARITH_CONSTANT ∨ k = BV64_CONSTANT ∨ k = BV_CONSTANT.

Definition constant_term (tbl : term_table_t) (t : term_t) : Prop :=
  ∃ e, tbl !! t = Some e ∧ is_constant_kind (entry_kind e).

Definition special_term (tbl : term_table_t) (t : term_t) : Prop :=
  ∃ e, tbl !! t = Some e ∧ entry_kind e = ITE_SPECIAL.

Definition domain_ok (tbl : term_table_t) (dom : finite_domain_t) : Prop :=
  nelems dom = Z.of_nat (length (data dom))
  ∧ StronglySorted Z.lt (data dom)
  ∧ Forall (constant_term tbl) (data dom).

Definition table_ok (tbl : term_table_t) : Prop :=
  ∀ t e, tbl !! t = Some e → entry_kind e = ITE_SPECIAL →
    ∃ d c a1 a2, entry_desc e = Some d
      ∧ arity (body d) = 3 ∧ arg (body d) = [c; a1; a2]
      ∧ (special_term tbl a1 ∨ constant_term tbl a1)
      ∧ (special_term tbl a2 ∨ constant_term tbl a2)
      ∧ (∀ dom, extra d = Some dom → domain_ok tbl dom).

Definition collected (tbl : term_table_t) (cache : gset term_t)
    (v : list term_t) : Prop :=
  NoDup v ∧ ∀ x, x ∈ v → x ∈ cache ∧ constant_term tbl x.

Section CollectFacts.
Variable NDEBUG : bool.
Variable tbl : term_table_t.
Hypothesis Htbl : table_ok tbl.

Lemma collected_mono cache cache' v :
  cache ⊆ cache' → collected tbl cache v → collected tbl cache' v.
Proof. intros Hsub [Hnd Hv]. split; [done|]. intros x Hx. destruct (Hv x Hx). split; [set_solver|done]. Qed.

Lemma collected_push cache v t :
  t ∉ cache → constant_term tbl t → collected tbl cache v →
  collected tbl ({[t]} ∪ cache) (ivector_push v t).
Proof.
  intros Ht Hc [Hnd Hv]. unfold ivector_push. split.
  - apply NoDup_app. split; [done|]. split; [|apply NoDup_singleton].
    intros x Hx ->%list_elem_of_singleton. by destruct (Hv _ Hx).
  - intros x [Hx| ->%list_elem_of_singleton]%elem_of_app.
    + destruct (Hv x Hx). split; [set_solver|done].
    + split; [set_solver|done].
Qed.

Lemma add_domain_loop_spec l cache v :
  Forall (constant_term tbl) l → collected tbl cache v →
  cache ⊆ (add_domain_loop cache v l).1
  ∧ collected tbl (add_domain_loop cache v l).1 (add_domain_loop cache v l).2.
Proof.
  revert cache v. induction l as [|t l IH]; intros cache v Hl Hc; simpl.
  - done.
  - apply Forall_cons in Hl as [Ht Hl].
    case_bool_decide as Hin.
    + destruct (IH ({[t]} ∪ cache) (ivector_push v t)) as [Hsub Hcol];
        [done|by apply collected_push|].
      split; [set_solver|done].
    + destruct (IH ({[t]} ∪ cache) v) as [Hsub Hcol];
        [done|eapply collected_mono; [|done]; set_solver|].
      split; [set_solver|done].
Qed.

Lemma collect_finite_domain_spec fuel cache v t :
  special_term tbl t ∨ constant_term tbl t →
  collected tbl cache v →
  (size (dom tbl ∖ cache) < fuel)%nat →
  ∃ cache' v', collect_finite_domain NDEBUG fuel tbl cache v t = Done (cache', v')
    ∧ cache ⊆ cache' ∧ collected tbl cache' v'.
Proof.
  revert cache v t. induction fuel as [|fuel IH]; intros cache v t Ht Hc Hfuel; [lia|].
  simpl. case_bool_decide as Hin.
  2:{ exists ({[t]} ∪ cache), v. split; [done|]. split; [set_solver|].
      eapply collected_mono; [|done]. set_solver. }
  assert (∃ e, tbl !! t = Some e) as [e He] by (destruct Ht as [(e&?&?)|(e&?&?)]; eauto).
  assert (size (dom tbl ∖ ({[t]} ∪ cache)) < fuel)%nat as Hfuel'.
  { assert (dom tbl ∖ ({[t]} ∪ cache) ⊂ dom tbl ∖ cache) as Hsub%subset_size; [|lia].
    apply elem_of_dom_2 in He. set_solver. }
  unfold term_kind. rewrite He. simpl.
  destruct (decide (entry_kind e = ITE_SPECIAL)) as [Hk|Hk].
  - destruct (Htbl t e He Hk) as (d & c & a1 & a2 & Hd & Har & Harg & Ha1 & Ha2 & Hex).
    unfold ite_special_desc. rewrite He. destruct e as [k od]. simpl in *. subst od. simpl.
    destruct (extra d) as [dm|] eqn:Hextra.
    + destruct (Hex dm eq_refl) as (Hlen & Hsorted & Hconst).
      unfold add_domain. rewrite Hlen, Nat2Z.id, firstn_all.
      destruct (add_domain_loop_spec (data dm) ({[t]} ∪ cache) v) as [Hsub Hcol];
        [done|eapply collected_mono; [|done]; set_solver|].
      destruct (add_domain_loop _ _ _) as [cache' v']. exists cache', v'.
      split; [done|]. split; [set_solver|done].
    + rewrite Harg. simpl.
      destruct (IH ({[t]} ∪ cache) v a1) as (cache1 & v1 & -> & Hsub1 & Hcol1);
        [done|eapply collected_mono; [|done]; set_solver|done|].
      simpl.
      destruct (IH cache1 v1 a2) as (cache2 & v2 & -> & Hsub2 & Hcol2); [done|done| |].
      { assert (dom tbl ∖ cache1 ⊆ dom tbl ∖ ({[t]} ∪ cache)) as Hs%subseteq_size by set_solver. lia. }
      exists cache2, v2. split; [done|]. split; [set_solver|done].
  - destruct Ht as [(e' & He' & Hk')|(e' & He' & Hk')]; [congruence|].
    assert (e' = e) as -> by congruence.
    rewrite assert_true by (apply bool_decide_eq_true; exact Hk').
    simpl. eexists _, _. split; [done|]. split; [set_solver|].
    apply collected_push; [done| |done]. by exists e.
Qed.

End CollectFacts.

Lemma NoDup_length_le_size (v : list term_t) (X : gset term_t) :
  NoDup v → (∀ x, x ∈ v → x ∈ X) → (length v ≤ size X)%nat.
Proof.
  intros Hnd Hsub. rewrite <- (size_list_to_set (C := gset term_t) v) by done.
  apply subseteq_size. intros x Hx. apply Hsub. by apply elem_of_list_to_set in Hx.
Qed.

Lemma constant_term_set_extra tbl t dom x :
  constant_term (set_extra tbl t dom) x ↔ constant_term tbl x.
Proof.
  unfold constant_term, set_extra. split; intros (e & He & Hk).
  - destruct (decide (t = x)) as [->|Hne].
    + rewrite lookup_alter_eq in He. destruct (tbl !! x) as [e0|] eqn:E; simplify_eq/=. eauto.
    + rewrite lookup_alter_ne in He by done. eauto.
  - destruct (decide (t = x)) as [->|Hne].
    + rewrite lookup_alter_eq, He. simpl. eauto.
    + rewrite lookup_alter_ne by done. eauto.
Qed.

Lemma special_term_set_extra tbl t dom x :
  special_term (set_extra tbl t dom) x ↔ special_term tbl x.
Proof.
  unfold special_term, set_extra. split; intros (e & He & Hk).
  - destruct (decide (t = x)) as [->|Hne].
    + rewrite lookup_alter_eq in He. destruct (tbl !! x) as [e0|] eqn:E; simplify_eq/=. eauto.
    + rewrite lookup_alter_ne in He by done. eauto.
  - destruct (decide (t = x)) as [->|Hne].
    + rewrite lookup_alter_eq, He. simpl. eauto.
    + rewrite lookup_alter_ne by done. eauto.
Qed.

Lemma domain_ok_set_extra tbl t dom dm :
  domain_ok tbl dm → domain_ok (set_extra tbl t dom) dm.
Proof.
  intros (Hl & Hs & Hc). repeat split; [done..|].
  eapply Forall_impl; [done|]. intros x. by rewrite constant_term_set_extra.
Qed.

Lemma table_ok_set_extra tbl t dom :
  table_ok tbl → domain_ok tbl dom → table_ok (set_extra tbl t dom).
Proof.
  intros Htbl Hdom x e He Hk.
  assert (∃ e0, tbl !! x = Some e0 ∧ entry_kind e0 = ITE_SPECIAL
                ∧ (x ≠ t → e = e0)
                ∧ (x = t → e = Entry (entry_kind e0)
                     (option_map (λ d, Special (Some dom) (body d)) (entry_desc e0))))
    as (e0 & He0 & Hk0 & Hne & Heq).
  { unfold set_extra in He. destruct (decide (t = x)) as [->|Hne].
    - rewrite lookup_alter_eq in He. destruct (tbl !! x) as [e0|]; simplify_eq/=.
      exists e0. done.
    - rewrite lookup_alter_ne in He by done. exists e. naive_solver. }
  destruct (Htbl x e0 He0 Hk0) as (d & c & a1 & a2 & Hd & Har & Harg & Ha1 & Ha2 & Hex).
  destruct (decide (x = t)) as [->|Hxt].
  - rewrite (Heq eq_refl), Hd. simpl.
    exists (Special (Some dom) (body d)), c, a1, a2. simpl.
    rewrite !special_term_set_extra, !constant_term_set_extra.
    split_and!; try done. intros ? [= <-]. by apply domain_ok_set_extra.
  - rewrite (Hne Hxt). exists d, c, a1, a2.
    rewrite !special_term_set_extra, !constant_term_set_extra.
    split_and!; try done. intros dm Hdm. apply domain_ok_set_extra; auto.
Qed.

Section BuildFacts.
Variable NDEBUG : bool.
Variable MAX_FINITE_DOMAIN_SIZE : Z.
Variable int_array_sort : list term_t → list term_t.
Hypothesis sort_sorted : ∀ l, Sorted Z.le (int_array_sort l).
Hypothesis sort_perm : ∀ l, int_array_sort l ≡ₚ l.
Variable tbl : term_table_t.
Hypothesis Htbl : table_ok tbl.
Hypothesis Hsize : NDEBUG = true ∨ Z.of_nat (size tbl) ≤ MAX_FINITE_DOMAIN_SIZE.

Lemma build_ite_finite_domain_spec fuel d c a1 a2 :
  arity d = 3 → arg d = [c; a1; a2] →
  special_term tbl a1 ∨ constant_term tbl a1 →
  special_term tbl a2 ∨ constant_term tbl a2 →
  (size tbl < fuel)%nat →
  ∃ dom, build_ite_finite_domain NDEBUG MAX_FINITE_DOMAIN_SIZE int_array_sort
           fuel tbl d = Done dom
         ∧ domain_ok tbl dom.
Proof.
  intros Har Harg Ha1 Ha2 Hfuel. unfold build_ite_finite_domain.
  rewrite assert_true by lia. simpl. rewrite Harg. simpl.
  assert (size (dom tbl) = size tbl) as Hdom by apply size_dom.
  destruct (collect_finite_domain_spec NDEBUG tbl Htbl fuel ∅ [] a1)
    as (cache1 & v1 & -> & Hsub1 & Hcol1); [done| |..].
  { split; [constructor|]. intros x Hx. by apply elem_of_nil in Hx. }
  { assert (dom tbl ∖ ∅ ⊆ dom tbl) as Hs%subseteq_size by set_solver. lia. }
  simpl.
  destruct (collect_finite_domain_spec NDEBUG tbl Htbl fuel cache1 v1 a2)
    as (cache2 & v2 & -> & Hsub2 & [Hnd Hcol2]); [done|done| |].
  { assert (dom tbl ∖ cache1 ⊆ dom tbl) as Hs%subseteq_size by set_solver. lia. }
  simpl. unfold make_finite_domain.
  assert (length (int_array_sort v2) = length v2) as Hlen by (by rewrite sort_perm).
  assert (length v2 ≤ size tbl)%nat as Hle.
  { rewrite <- Hdom. apply NoDup_length_le_size; [done|].
    intros x Hx. destruct (Hcol2 x Hx) as [_ (e & He & _)]. by eapply elem_of_dom_2. }
  assert (assert NDEBUG (Z.of_nat (length (int_array_sort v2)) <=? MAX_FINITE_DOMAIN_SIZE)
          = Done ()) as ->.
  { destruct Hsize as [->|Hs]; [done|]. apply assert_true. lia. }
  simpl. eexists. split; [done|].
  rewrite Nat2Z.id, firstn_all. repeat split; simpl.
  - apply StronglySorted_le_NoDup_lt.
    + apply Sorted_StronglySorted; [|done]. intros ???; lia.
    + by rewrite sort_perm.
  - rewrite sort_perm. apply Forall_forall. intros x Hx. by destruct (Hcol2 x Hx).
Qed.

Lemma special_ite_get_finite_domain_spec fuel t :
  special_term tbl t → (size tbl < fuel)%nat →
  ∃ dom tbl', special_ite_get_finite_domain NDEBUG MAX_FINITE_DOMAIN_SIZE
                int_array_sort fuel tbl t = Done (dom, tbl')
    ∧ domain_ok tbl' dom ∧ table_ok tbl'
    ∧ (∀ fuel', special_ite_get_finite_domain NDEBUG MAX_FINITE_DOMAIN_SIZE
                  int_array_sort fuel' tbl' t = Done (dom, tbl')).
Proof.
  intros (e & He & Hk) Hfuel.
  destruct (Htbl t e He Hk) as (d & c & a1 & a2 & Hd & Har & Harg & Ha1 & Ha2 & Hex).
  unfold special_ite_get_finite_domain, ite_special_desc at 1.
  rewrite He. destruct e as [k od]. simpl in *. subst od k. simpl.
  destruct (extra d) as [dm|] eqn:Hextra.
  - exists dm, tbl. split; [done|]. split; [by apply Hex|]. split; [done|].
    intros fuel'. unfold ite_special_desc. rewrite He. simpl. by rewrite Hextra.
  - destruct (build_ite_finite_domain_spec fuel (body d) c a1 a2)
      as (dm & -> & Hdm); [done..|].
    simpl. exists dm, (set_extra tbl t dm). split; [done|].
    split; [by apply domain_ok_set_extra|]. split; [by apply table_ok_set_extra|].
    intros fuel'. unfold ite_special_desc, set_extra.
    by rewrite lookup_alter_eq, He.
Qed.

End BuildFacts.

Lemma term_is_in_finite_domain_spec NDEBUG MAX_FINITE_DOMAIN_SIZE int_array_sort
    tbl fuel t u dom tbl' :
  special_ite_get_finite_domain NDEBUG MAX_FINITE_DOMAIN_SIZE int_array_sort
    fuel tbl t = Done (dom, tbl') →
  nelems dom = Z.of_nat (length (data dom)) →
  StronglySorted Z.lt (data dom) →
  2 ≤ nelems dom ∨ (NDEBUG = true ∧ 1 ≤ nelems dom) →
  nelems dom < 2 ^ 31 → nelems dom ≤ Z.of_nat fuel →
  ∃ b, term_is_in_finite_domain NDEBUG MAX_FINITE_DOMAIN_SIZE int_array_sort
         fuel tbl t u = Done (b, tbl')
       ∧ (b = true ↔ u ∈ data dom).
Proof.
  intros Hget Hlen Hsorted Hn Hsmall Hfuel. unfold term_is_in_finite_domain.
  rewrite Hget. simpl.
  assert (assert NDEBUG (nelems dom >=? 2) = Done ()) as ->.
  { destruct Hn as [?|[-> _]]; [|done]. apply assert_true. lia. }
  simpl.
  destruct (search_decides NDEBUG dom u Hlen Hsorted Hsmall fuel)
    as (k & x & -> & Hx & Hiff); [lia..|].
  simpl. assert (0 ≤ k < nelems dom) as Hk.
  { apply read_Done in Hx as [? Hx%lookup_lt_Some]. lia. }
  rewrite u32_small by lia. rewrite assert_true by lia. simpl.
  rewrite Hx. simpl. exists (x =? u). split; [done|].
  rewrite <- Hiff. apply Z.eqb_eq.
Qed.

(** C9. With an [int_array_sort] that sorts in increasing order:
    - every domain that [special_ite_get_finite_domain] returns for a
      special if-then-else of a well-formed table is an array of [nelems]
      constant terms, without duplicates, in strictly increasing order
      (and the table stays well formed, with the domain cached);
    - on a domain in strictly increasing order the binary search of
      [term_is_in_finite_domain] answers true exactly when [u] is an
      element of the domain;
    - on two domains in strictly increasing order the merge of
      [disjoint_finite_domains] answers true exactly when they share no
      element.
    Each loop is given a bound [fuel] on its iterations; the bounds stated
    are enough for the call to return. *)
Theorem finite_domains_sorted_searched
    (NDEBUG : bool) (MAX_FINITE_DOMAIN_SIZE : Z)
    (int_array_sort : list term_t → list term_t)
    (sort_sorted : ∀ l, Sorted Z.le (int_array_sort l))
    (sort_perm : ∀ l, int_array_sort l ≡ₚ l) :
  (∀ tbl t fuel,
     table_ok tbl →
     NDEBUG = true ∨ Z.of_nat (size tbl) ≤ MAX_FINITE_DOMAIN_SIZE →
     special_term tbl t → (size tbl < fuel)%nat →
     ∃ dom tbl',
       special_ite_get_finite_domain NDEBUG MAX_FINITE_DOMAIN_SIZE
         int_array_sort fuel tbl t = Done (dom, tbl')
       ∧ nelems dom = Z.of_nat (length (data dom))
       ∧ NoDup (data dom)
       ∧ StronglySorted Z.lt (data dom)
       ∧ Forall (constant_term tbl) (data dom)
       ∧ table_ok tbl'
       ∧ (∀ fuel', special_ite_get_finite_domain NDEBUG MAX_FINITE_DOMAIN_SIZE
                     int_array_sort fuel' tbl' t = Done (dom, tbl')))
  ∧ (∀ tbl t u fuel dom tbl',
       special_ite_get_finite_domain NDEBUG MAX_FINITE_DOMAIN_SIZE
         int_array_sort fuel tbl t = Done (dom, tbl') →
       nelems dom = Z.of_nat (length (data dom)) →
       StronglySorted Z.lt (data dom) →
       2 ≤ nelems dom ∨ (NDEBUG = true ∧ 1 ≤ nelems dom) →
       nelems dom < 2 ^ 31 → nelems dom ≤ Z.of_nat fuel →
       ∃ b, term_is_in_finite_domain NDEBUG MAX_FINITE_DOMAIN_SIZE
              int_array_sort fuel tbl t u = Done (b, tbl')
            ∧ (b = true ↔ u ∈ data dom))
  ∧ (∀ d1 d2 fuel,
       nelems d1 = Z.of_nat (length (data d1)) →
       nelems d2 = Z.of_nat (length (data d2)) →
       StronglySorted Z.lt (data d1) → StronglySorted Z.lt (data d2) →
       1 ≤ nelems d1 < 2 ^ 32 → 1 ≤ nelems d2 < 2 ^ 32 →
       nelems d1 + nelems d2 ≤ Z.of_nat fuel →
       ∃ b, disjoint_finite_domains NDEBUG fuel d1 d2 = Done b
            ∧ (b = true ↔ ∀ x, x ∈ data d1 → x ∉ data d2)).
Proof.
  split_and!.
  - intros tbl t fuel Htbl Hsize Ht Hfuel.
    destruct (special_ite_get_finite_domain_spec NDEBUG MAX_FINITE_DOMAIN_SIZE
                int_array_sort sort_sorted sort_perm tbl Htbl Hsize fuel t Ht Hfuel)
      as (dom & tbl' & Hget & (Hlen & Hsorted & Hconst) & Htbl' & Hcached).
    exists dom, tbl'. split_and!; try done.
    + by apply StronglySorted_lt_NoDup.
    + eapply Forall_impl; [done|]. intros x Hx.
      unfold special_ite_get_finite_domain in Hget.
      destruct (ite_special_desc tbl t) as [d| | |]; try done. simpl in Hget.
      destruct (extra d); simpl in Hget.
      * by simplify_eq.
      * destruct (build_ite_finite_domain _ _ _ _ _ _); try done.
        simpl in Hget. simplify_eq. by apply constant_term_set_extra in Hx.
  - intros tbl t u fuel dom tbl' Hget Hlen Hsorted Hn Hsmall Hfuel.
    by apply term_is_in_finite_domain_spec.
  - intros d1 d2 fuel Hl1 Hl2 Hs1 Hs2 [Hn1 Hm1] [Hn2 Hm2] Hfuel.
    by apply disjoint_finite_domains_spec.
Qed.

(** A table with the constants 2, 4, 6 and the special if-then-else terms
    10 = (ite 8 6 2) and 12 = (ite 8 10 4). *)
Definition ite_entry (c t1 t2 : term_t) : term_entry :=
  Entry ITE_SPECIAL (Some (Special None (Composite 3 [c; t1; t2]))).

Definition table0 : term_table_t :=
  <[12 := ite_entry 8 10 4]> (<[10 := ite_entry 8 6 2]>
    (<[6 := Entry ARITH_CONSTANT None]> (<[4 := Entry ARITH_CONSTANT None]>
      (<[2 := Entry ARITH_CONSTANT None]> ∅)))).

Lemma table0_ok : table_ok table0.
Proof.
  assert (∀ t, t = 2 ∨ t = 4 ∨ t = 6 → constant_term table0 t) as Hc.
  { intros t Ht. exists (Entry ARITH_CONSTANT None).
    split; [|by left]. by destruct Ht as [->|[->| ->]]. }
  assert (special_term table0 10) as Hs by (by exists (ite_entry 8 6 2)).
  intros t e He Hk. unfold table0 in He.
  repeat (apply lookup_insert_Some in He as [[<- <-]|[? He]]; [|]);
    try done; try (by apply lookup_empty_Some in He).
  - exists (Special None (Composite 3 [8; 10; 4])), 8, 10, 4.
    split_and!; auto 10. done.
  - exists (Special None (Composite 3 [8; 6; 2])), 8, 6, 2.
    split_and!; auto 10. done.
Qed.

Example domain_of_12 :
  fst <$> special_ite_get_finite_domain false (2 ^ 30) (merge_sort Z.le) 6 table0 12
  = Done (FiniteDomain 3 [2; 4; 6]).
Proof. vm_compute. reflexivity. Qed.

Example member_of_12 :
  fst <$> term_is_in_finite_domain false (2 ^ 30) (merge_sort Z.le) 6 table0 12 4
  = Done true
  ∧ fst <$> term_is_in_finite_domain false (2 ^ 30) (merge_sort Z.le) 6 table0 12 5
    = Done false.
Proof. split; vm_compute; reflexivity. Qed.

Example domains_10_12_meet :
  fst <$> terms_have_disjoint_finite_domains false (2 ^ 30) (merge_sort Z.le)
            6 table0 12 10 = Done false
  ∧ disjoint_finite_domains false 6 (FiniteDomain 3 [2; 4; 6])
      (FiniteDomain 2 [3; 5]) = Done true.
Proof. split; vm_compute; reflexivity. Qed.

(** Without the order the search misses an element: 6 is in the array. *)
Example search_needs_sorted :
  search_loop false 6 (FiniteDomain 3 [6; 2; 4]) 6 0 3 = Done (2, 3, 2)
  ∧ read [6; 2; 4] 2 = Done 4.
Proof. split; vm_compute; reflexivity. Qed.

Lemma finite_domains_sorted_searched_witness :
  ∃ dom tbl',
    special_ite_get_finite_domain false (2 ^ 30) (merge_sort Z.le) 6 table0 12
      = Done (dom, tbl')
    ∧ data dom = [2; 4; 6]
    ∧ StronglySorted Z.lt (data dom)
    ∧ (∃ b, term_is_in_finite_domain false (2 ^ 30) (merge_sort Z.le) 6
              table0 12 4 = Done (b, tbl')
            ∧ (b = true ↔ 4 ∈ data dom)).
Proof.
  destruct (finite_domains_sorted_searched false (2 ^ 30) (merge_sort Z.le))
    as (Hget & Hsearch & _).
  - intros l. apply Sorted_merge_sort. intros x y. lia.
  - intros l. apply merge_sort_Permutation.
  - destruct (Hget table0 12 6%nat table0_ok) as
      (dom & tbl' & Hd & Hlen & Hnd & Hsorted & Hconst & Hok & Hcached).
    + right. vm_compute. discriminate.
    + by exists (ite_entry 8 10 4).
    + vm_compute. lia.
    + assert (data dom = [2; 4; 6]) as Hdata.
      { apply (f_equal (fmap fst)) in Hd. rewrite domain_of_12 in Hd.
        by injection Hd as <-. }
      exists dom, tbl'. split_and!; try done.
      apply (Hsearch table0 12 4 6%nat dom tbl' Hd Hlen Hsorted).
      * left. rewrite Hlen, Hdata. simpl. lia.
      * rewrite Hlen, Hdata. simpl. lia.
      * rewrite Hlen, Hdata. simpl. lia.
Defined.

End TermUtils.

(* ===================================================================== *)
(** * External collaborators: power products, their order, monomials     *)
(* ===================================================================== *)

(** The power products and the monomial order ([terms/pprod_table.h],
    [terms/power_products.h]) are not part of these sources.  They are
    taken as an interface: a type with decidable equality, the empty
    product, the product of a variable, multiplication, and
    [pprod_precedes], a strict total order. *)
Class PProdTable : Type := {
  pprod : Type;
  pprod_eq_dec :: EqDecision pprod;
  empty_pp : pprod;
  var_pp : term_t → pprod;
  pprod_mul : pprod → pprod → pprod;
  pprod_precedes : pprod → pprod → bool;
  precedes_irrefl : ∀ p, pprod_precedes p p = false;
  precedes_trans : ∀ p q r,
    pprod_precedes p q = true → pprod_precedes q r = true →
    pprod_precedes p r = true;
  precedes_total : ∀ p q,
    p ≠ q → pprod_precedes p q = true ∨ pprod_precedes q p = true
}.

(** Modelled from the spec: [pprod_exp(table, p, d)] and
    [pprod_varexp(table, x, d)], which are not in the sources, compute
    [p^d] and [x^d]; for [d = 0] the result is the empty product. *)
Definition pprod_exp `{PProdTable} (p : pprod) (d : N) : pprod :=
  N.iter d (pprod_mul p) empty_pp.

Definition pprod_varexp `{PProdTable} (x : term_t) (d : N) : pprod :=
  pprod_exp (var_pp x) d.

(** An instance, used to run the model: a power product maps each of its
    variables to a positive exponent; the order compares the degrees
    first and then a fixed enumeration of the power products. *)
Definition varexp_degree (p : gmap Z positive) : positive :=
  map_fold (λ _ e d, (e + d)%positive) 1%positive p.

Definition varexp_precedes (p q : gmap Z positive) : bool :=
  ((varexp_degree p <? varexp_degree q)
   || ((varexp_degree p =? varexp_degree q) && (encode p <? encode q)))%positive.

Lemma varexp_precedes_irrefl p : varexp_precedes p p = false.
Proof.
  unfold varexp_precedes. rewrite !Pos.ltb_irrefl. by rewrite andb_false_r.
Qed.

Lemma varexp_precedes_trans p q r :
  varexp_precedes p q = true → varexp_precedes q r = true →
  varexp_precedes p r = true.
Proof.
  unfold varexp_precedes.
  rewrite !orb_true_iff, !andb_true_iff, !Pos.ltb_lt, !Pos.eqb_eq. lia.
Qed.

Lemma varexp_precedes_total p q :
  p ≠ q → varexp_precedes p q = true ∨ varexp_precedes q p = true.
Proof.
  intros Hne. unfold varexp_precedes.
  rewrite !orb_true_iff, !andb_true_iff, !Pos.ltb_lt, !Pos.eqb_eq.
  assert (encode p ≠ encode q) by (intros ?%(inj encode); done). lia.
Qed.

Definition varexp_pprods : PProdTable := {|
  pprod := gmap Z positive;
  empty_pp := ∅;
  var_pp x := {[ x := 1%positive ]};
  pprod_mul := union_with (λ a b, Some (a + b)%positive);
  pprod_precedes := varexp_precedes;
  precedes_irrefl := varexp_precedes_irrefl;
  precedes_trans := varexp_precedes_trans;
  precedes_total := varexp_precedes_total
|}.

(** The reference to a power-product table ([pprod_table_t *]) that a
    buffer and a term table hold. *)
Definition ptbl_ref := nat.

(** [monomial_t] of a polynomial term: a variable (a term) and a
    rational coefficient. *)
Record monomial_t : Type := Monomial { var : term_t; mono_coeff : Qc }.

(** The rational of an integer. *)
Definition Qz (n : Z) : Qc := Q2Qc (inject_Z n).

(** The primitives of [terms/balanced_arith_buffers.h] that the bridge
    calls, over a type [B] of buffers.  A rational argument is read and
    not written by a primitive: it is passed by value.
    [rba_buffer_mul_monarray_power] works on the buffer and on the
    auxiliary buffer and returns both. *)
Class RbaPrims `{PProdTable} (B : Type) : Type := {
  ptbl : B → ptbl_ref;
  init_rba_buffer : ptbl_ref → B;
  rba_buffer_add_pp : B → pprod → B;
  rba_buffer_sub_pp : B → pprod → B;
  rba_buffer_mul_pp : B → pprod → B;
  rba_buffer_add_const : B → Qc → B;
  rba_buffer_sub_const : B → Qc → B;
  rba_buffer_mul_const : B → Qc → B;
  rba_buffer_add_monarray : B → list monomial_t → list pprod → B;
  rba_buffer_sub_monarray : B → list monomial_t → list pprod → B;
  rba_buffer_mul_monarray : B → list monomial_t → list pprod → B;
  rba_buffer_add_var : B → term_t → B;
  rba_buffer_sub_var : B → term_t → B;
  rba_buffer_mul_var : B → term_t → B;
  rba_buffer_add_mono : B → Qc → pprod → B;
  rba_buffer_add_const_times_monarray :
    B → list monomial_t → list pprod → Qc → B;
  rba_buffer_add_varmono : B → Qc → term_t → B;
  rba_buffer_mul_monarray_power :
    B → list monomial_t → list pprod → N → B → B * B
}.

(* ===================================================================== *)
(** * The red-black buffer                                               *)
(* ===================================================================== *)

(** [terms/balanced_arith_buffers.c] is not part of these sources: only
    its test ([test_add], [check_tree]) and its callers are.  The buffer is
    modelled from the specification. *)
Module RbaBuffer.
Section Buffer.
Context `{PP : PProdTable}.
Local Open Scope Qc_scope.

(** Modelled from the spec: a monomial of the buffer, [b->mono[i]]: a
    power product and its coefficient. *)
Record mono_t : Type := Mono { prod : pprod; coeff : Qc }.

Inductive color : Set := Red | Black.

(** Modelled from the spec: the nodes of the arena that are reachable from
    the root.  A node has a color, its index [i] in the arena, a monomial
    and two children; [Leaf] is node 0, the black sentinel shared by all
    leaves.  The child indices of the arena are the subtrees. *)
Inductive tree : Type :=
  | Leaf
  | Node (c : color) (l : tree) (i : nat) (m : mono_t) (r : tree).

(** Modelled from the spec: the buffer: the tree under [root], the number
    of terms, the number of arena slots in use ([num_nodes], the sentinel
    included), the slots reclaimed from deleted nodes, and the
    power-product table. *)
Record rba_buffer_t : Type := RbaBuffer {
  root : tree;
  nterms : nat;
  num_nodes : nat;
  free_list : list nat;
  ptbl : ptbl_ref
}.

(** Modelled from the spec: a buffer is created empty (root = sentinel,
    0 terms). *)
Definition init_rba_buffer (tbl : ptbl_ref) : rba_buffer_t :=
  RbaBuffer Leaf 0 1 [] tbl.

(** Modelled from the spec: [reset()] empties the buffer. *)
Definition reset_rba_buffer (b : rba_buffer_t) : rba_buffer_t :=
  RbaBuffer Leaf 0 1 [] (ptbl b).

(** Modelled from the spec: [find(p)], a read-only tree descent by the
    monomial order; the result is the node of [r], 0 when absent. *)
Fixpoint find_node (t : tree) (r : pprod) : nat :=
  match t with
  | Leaf => 0
  | Node _ l i m rt =>
      if decide (prod m = r) then i
      else if pprod_precedes (prod m) r then find_node rt r
      else find_node l r
  end.

Definition rba_find_node (b : rba_buffer_t) (r : pprod) : nat :=
  find_node (root b) r.

Definition is_red (t : tree) : bool :=
  match t with Node Red _ _ _ _ => true | _ => false end.

Definition is_black_node (t : tree) : bool :=
  match t with Node Black _ _ _ _ => true | _ => false end.

Definition paint (c : color) (t : tree) : tree :=
  match t with
  | Leaf => Leaf
  | Node _ l i m r => Node c l i m r
  end.

(** Modelled from the spec: the insert fix-up at a black node whose left
    subtree received the new red leaf.  A red child with a red child is
    repaired by recoloring when the other child (the uncle) is red, by
    rotations otherwise. *)
Definition fix_left (l : tree) (i : nat) (m : mono_t) (r : tree) : tree :=
  match l with
  | Node Red (Node Red a xi xm b) yi ym c =>
      if is_red r then Node Red (paint Black l) i m (paint Black r)
      else Node Black (Node Red a xi xm b) yi ym (Node Red c i m r)
  | Node Red a xi xm (Node Red b yi ym c) =>
      if is_red r then Node Red (paint Black l) i m (paint Black r)
      else Node Black (Node Red a xi xm b) yi ym (Node Red c i m r)
  | _ => Node Black l i m r
  end.

Definition fix_right (l : tree) (i : nat) (m : mono_t) (r : tree) : tree :=
  match r with
  | Node Red b yi ym (Node Red c zi zm d) =>
      if is_red l then Node Red (paint Black l) i m (paint Black r)
      else Node Black (Node Red l i m b) yi ym (Node Red c zi zm d)
  | Node Red (Node Red b yi ym c) zi zm d =>
      if is_red l then Node Red (paint Black l) i m (paint Black r)
      else Node Black (Node Red l i m b) yi ym (Node Red c zi zm d)
  | _ => Node Black l i m r
  end.

(** Modelled from the spec: descend by the monomial order to the
    insertion point, attach node [j] as a red leaf with a zero
    coefficient, and rebalance on the way back to the root. *)
Fixpoint ins (j : nat) (r : pprod) (t : tree) : tree :=
  match t with
  | Leaf => Node Red Leaf j (Mono r 0) Leaf
  | Node c l i m rt =>
      if decide (prod m = r) then t
      else if pprod_precedes (prod m) r then
        match c with
        | Black => fix_right l i m (ins j r rt)
        | Red => Node Red l i m (ins j r rt)
        end
      else
        match c with
        | Black => fix_left (ins j r l) i m rt
        | Red => Node Red (ins j r l) i m rt
        end
  end.

(** Modelled from the spec: a slot for a new node: a reclaimed slot when
    there is one, the next slot of the arena otherwise. *)
Definition rba_alloc_node (b : rba_buffer_t) : nat * rba_buffer_t :=
  match free_list b with
  | i :: fl => (i, RbaBuffer (root b) (nterms b) (num_nodes b) fl (ptbl b))
  | [] => (num_nodes b,
           RbaBuffer (root b) (nterms b) (S (num_nodes b)) [] (ptbl b))
  end.

(** Modelled from the spec: [get_or_insert(p)]: the node of [r] and
    whether it is new.  On a hit the buffer is not changed; otherwise a
    node with a zero coefficient is inserted and the root is forced
    black. *)
Definition rba_get_node (b : rba_buffer_t) (r : pprod)
  : rba_buffer_t * nat * bool :=
  match rba_find_node b r with
  | O =>
      let '(j, b) := rba_alloc_node b in
      (RbaBuffer (paint Black (ins j r (root b))) (S (nterms b))
         (num_nodes b) (free_list b) (ptbl b), j, true)
  | S _ as i => (b, i, false)
  end.

(** Modelled from the spec: the rebalancing steps of the red-black
    delete: [bal_left] and [bal_right] repair a red child with a red
    child under a black node, [short_left] and [short_right] restore the
    black height when the left (right) subtree lost one black node, and
    [join] merges the two subtrees of the deleted node. *)
Definition bal_left (l : tree) (i : nat) (m : mono_t) (r : tree) : tree :=
  match l with
  | Node Red (Node Red a xi xm b) yi ym c =>
      Node Red (Node Black a xi xm b) yi ym (Node Black c i m r)
  | Node Red a xi xm (Node Red b yi ym c) =>
      Node Red (Node Black a xi xm b) yi ym (Node Black c i m r)
  | _ => Node Black l i m r
  end.

Definition bal_right (l : tree) (i : nat) (m : mono_t) (r : tree) : tree :=
  match r with
  | Node Red b yi ym (Node Red c zi zm d) =>
      Node Red (Node Black l i m b) yi ym (Node Black c zi zm d)
  | Node Red (Node Red b yi ym c) zi zm d =>
      Node Red (Node Black l i m b) yi ym (Node Black c zi zm d)
  | _ => Node Black l i m r
  end.

Definition short_left (l : tree) (i : nat) (m : mono_t) (r : tree) : tree :=
  match l with
  | Node Red a xi xm b => Node Red (Node Black a xi xm b) i m r
  | _ =>
      match r with
      | Node Black b yi ym c => bal_right l i m (Node Red b yi ym c)
      | Node Red (Node Black b yi ym c) zi zm d =>
          Node Red (Node Black l i m b) yi ym (bal_right c zi zm (paint Red d))
      | _ => Node Red l i m r
      end
  end.

Definition short_right (l : tree) (i : nat) (m : mono_t) (r : tree) : tree :=
  match r with
  | Node Red b yi ym c => Node Red l i m (Node Black b yi ym c)
  | _ =>
      match l with
      | Node Black a xi xm b => bal_left (Node Red a xi xm b) i m r
      | Node Red a xi xm (Node Black b yi ym c) =>
          Node Red (bal_left (paint Red a) xi xm b) yi ym (Node Black c i m r)
      | _ => Node Red l i m r
      end
  end.

Fixpoint join (l : tree) : tree → tree :=
  match l with
  | Leaf => λ r, r
  | Node lc ll li lm lr =>
      fix join_r (r : tree) : tree :=
        match r with
        | Leaf => l
        | Node rc rl ri rm rr =>
            match lc, rc with
            | Red, Red =>
                match join lr rl with
                | Node Red a xi xm b =>
                    Node Red (Node Red ll li lm a) xi xm (Node Red b ri rm rr)
                | t => Node Red ll li lm (Node Red t ri rm rr)
                end
            | Black, Black =>
                match join lr rl with
                | Node Red a xi xm b =>
                    Node Red (Node Black ll li lm a) xi xm (Node Black b ri rm rr)
                | t => short_left ll li lm (Node Black t ri rm rr)
                end
            | Black, Red => Node Red (join_r rl) ri rm rr
            | Red, Black => Node Red ll li lm (join lr r)
            end
        end
  end.

(** Modelled from the spec: the red-black delete of the entry of [r]. *)
Fixpoint del (r : pprod) (t : tree) : tree :=
  match t with
  | Leaf => Leaf
  | Node _ l i m rt =>
      if decide (prod m = r) then join l rt
      else if pprod_precedes (prod m) r then
        if is_black_node rt then short_right l i m (del r rt)
        else Node Red l i m (del r rt)
      else
        if is_black_node l then short_left (del r l) i m rt
        else Node Red (del r l) i m rt
  end.

(** Modelled from the spec: [b->mono[j]], the monomial of node [j]. *)
Fixpoint node_mono (t : tree) (j : nat) : option mono_t :=
  match t with
  | Leaf => None
  | Node _ l i m r =>
      match node_mono l j with
      | Some m' => Some m'
      | None => if decide (i = j) then Some m else node_mono r j
      end
  end.

(** Modelled from the spec: an update of the coefficient cell of node
    [j]; the tree is not restructured. *)
Fixpoint set_coeff (j : nat) (f : Qc → Qc) (t : tree) : tree :=
  match t with
  | Leaf => Leaf
  | Node c l i m r =>
      Node c (set_coeff j f l) i
        (if decide (i = j) then Mono (prod m) (f (coeff m)) else m)
        (set_coeff j f r)
  end.

(** Modelled from the spec: the entry of node [j] is deleted by a
    red-black delete and its slot is reclaimed. *)
Definition rba_delete_node (b : rba_buffer_t) (j : nat) : rba_buffer_t :=
  match node_mono (root b) j with
  | Some m =>
      RbaBuffer (paint Black (del (prod m) (root b))) (pred (nterms b))
        (num_nodes b) (j :: free_list b) (ptbl b)
  | None => b
  end.

(** Modelled from the spec: [add_power_product(p, scale)]: call
    [get_or_insert], add the scale to the coefficient, and delete the
    entry if the result is zero. *)
Definition rba_buffer_add_mono (b : rba_buffer_t) (a : Qc) (r : pprod)
  : rba_buffer_t :=
  let '(b, j, _) := rba_get_node b r in
  let b := RbaBuffer (set_coeff j (λ c, c + a) (root b)) (nterms b)
             (num_nodes b) (free_list b) (ptbl b) in
  match node_mono (root b) j with
  | Some m => if decide (coeff m = 0) then rba_delete_node b j else b
  | None => b
  end.

(** The nodes of a tree, from left to right. *)
Fixpoint inorder (t : tree) : list (nat * mono_t) :=
  match t with
  | Leaf => []
  | Node _ l i m r => inorder l ++ (i, m) :: inorder r
  end.

(** Modelled from the spec: [to_polynomial()], the in-order traversal. *)
Definition to_polynomial (b : rba_buffer_t) : list (pprod * Qc) :=
  (λ e, (prod e.2, coeff e.2)) <$> inorder (root b).

(** Modelled from the spec: the wrappers [add_constant], [add_variable],
    [add_monomial_array] and their subtraction and scaling variants call
    [rba_buffer_add_mono] for each monomial touched. *)
Definition add_monos (b : rba_buffer_t) (ms : list (Qc * pprod)) : rba_buffer_t :=
  foldl (λ b x, rba_buffer_add_mono b x.1 x.2) b ms.

Definition rba_buffer_sub_mono (b : rba_buffer_t) (a : Qc) (r : pprod) :=
  rba_buffer_add_mono b (- a) r.

Definition rba_buffer_add_pp (b : rba_buffer_t) (r : pprod) :=
  rba_buffer_add_mono b 1 r.

Definition rba_buffer_sub_pp (b : rba_buffer_t) (r : pprod) :=
  rba_buffer_add_mono b (- 1) r.

Definition rba_buffer_add_const (b : rba_buffer_t) (c : Qc) :=
  rba_buffer_add_mono b c empty_pp.

Definition rba_buffer_sub_const (b : rba_buffer_t) (c : Qc) :=
  rba_buffer_add_mono b (- c) empty_pp.

Definition rba_buffer_add_var (b : rba_buffer_t) (t : term_t) :=
  rba_buffer_add_mono b 1 (var_pp t).

Definition rba_buffer_sub_var (b : rba_buffer_t) (t : term_t) :=
  rba_buffer_add_mono b (- 1) (var_pp t).

Definition rba_buffer_add_varmono (b : rba_buffer_t) (a : Qc) (t : term_t) :=
  rba_buffer_add_mono b a (var_pp t).

(** The monomials [a * poly[i].coeff * pp[i]] of a monomial array. *)
Definition scaled (a : Qc) (poly : list monomial_t) (pp : list pprod)
  : list (Qc * pprod) :=
  zip_with (λ m r, (a * mono_coeff m, r)) poly pp.

Definition rba_buffer_add_const_times_monarray (b : rba_buffer_t)
    (poly : list monomial_t) (pp : list pprod) (a : Qc) : rba_buffer_t :=
  add_monos b (scaled a poly pp).

Definition rba_buffer_add_monarray (b : rba_buffer_t)
    (poly : list monomial_t) (pp : list pprod) : rba_buffer_t :=
  add_monos b (scaled 1 poly pp).

Definition rba_buffer_sub_monarray (b : rba_buffer_t)
    (poly : list monomial_t) (pp : list pprod) : rba_buffer_t :=
  add_monos b (scaled (- 1) poly pp).

(** Modelled from the spec: [multiply_by(p)] rebuilds the buffer:
    the entries are extracted, each is multiplied by [r], and the results
    are inserted again; multiplying by the identity is a no-op, checked
    first. *)
Definition rba_buffer_mul_pp (b : rba_buffer_t) (r : pprod) : rba_buffer_t :=
  if decide (r = empty_pp) then b
  else add_monos (reset_rba_buffer b)
         ((λ x, (x.2, pprod_mul x.1 r)) <$> to_polynomial b).

Definition rba_buffer_mul_var (b : rba_buffer_t) (t : term_t) : rba_buffer_t :=
  rba_buffer_mul_pp b (var_pp t).

Fixpoint scale_coeffs (c : Qc) (t : tree) : tree :=
  match t with
  | Leaf => Leaf
  | Node k l i m r =>
      Node k (scale_coeffs c l) i (Mono (prod m) (coeff m * c)) (scale_coeffs c r)
  end.

(** Modelled from the spec: [multiply_by_constant(c)] multiplies every
    coefficient by [c]; a zero [c] empties the buffer; multiplying by 1 is
    a no-op, checked first. *)
Definition rba_buffer_mul_const (b : rba_buffer_t) (c : Qc) : rba_buffer_t :=
  if decide (c = 1) then b
  else if decide (c = 0) then reset_rba_buffer b
  else RbaBuffer (scale_coeffs c (root b)) (nterms b) (num_nodes b)
         (free_list b) (ptbl b).

(** Modelled from the spec: one polynomial multiplication with the
    auxiliary buffer: [aux] receives the entries of [b], then [b] is
    emptied and rebuilt as the sum of the products of each entry of [aux]
    by the polynomial. *)
Definition mul_monarray_aux (b aux : rba_buffer_t)
    (poly : list monomial_t) (pp : list pprod) : rba_buffer_t * rba_buffer_t :=
  let aux := add_monos (reset_rba_buffer aux)
               ((λ x, (x.2, x.1)) <$> to_polynomial b) in
  (foldl (λ b x, add_monos b (scaled x.2 poly (flip pprod_mul x.1 <$> pp)))
         (reset_rba_buffer b) (to_polynomial aux),
   aux).

Definition rba_buffer_mul_monarray (b : rba_buffer_t)
    (poly : list monomial_t) (pp : list pprod) : rba_buffer_t :=
  (mul_monarray_aux b (init_rba_buffer (ptbl b)) poly pp).1.

(** Modelled from the spec: [multiply_by_monomial_array_power(terms, d)]:
    [d] polynomial multiplications, each through the auxiliary buffer. *)
Definition rba_buffer_mul_monarray_power (b : rba_buffer_t)
    (poly : list monomial_t) (pp : list pprod) (d : N) (aux : rba_buffer_t)
  : rba_buffer_t * rba_buffer_t :=
  N.iter d (λ s, mul_monarray_aux s.1 s.2 poly pp) (b, aux).

(** The checks of the test harness ([check_tree]): colors and balance. *)
Fixpoint check_colors (t : tree) : bool :=
  match t with
  | Leaf => true
  | Node c l _ _ r =>
      negb (match c with Red => is_red l || is_red r | Black => false end)
      && check_colors l && check_colors r
  end.

Definition tree_is_well_colored (b : rba_buffer_t) : bool :=
  negb (is_red (root b)) && check_colors (root b).

Fixpoint is_balanced (t : tree) : option nat :=
  match t with
  | Leaf => Some 1%nat
  | Node c l _ _ r =>
      match is_balanced l, is_balanced r with
      | Some hi, Some hj =>
          if decide (hi = hj)
          then Some (match c with Black => S hi | Red => hi end)
          else None
      | _, _ => None
      end
  end.

Definition tree_is_balanced (b : rba_buffer_t) : bool :=
  bool_decide (is_Some (is_balanced (root b))).

(** ** Entries in order *)

Abbreviation entry := (nat * mono_t)%type.
Definition key (e : entry) : pprod := prod e.2.
Definition precedes (p q : pprod) : Prop := pprod_precedes p q = true.
Definition entry_lt (e1 e2 : entry) : Prop := precedes (key e1) (key e2).
Definition sorted_keys (l : list entry) : Prop := StronglySorted entry_lt l.

Fixpoint find_entry (r : pprod) (l : list entry) : option entry :=
  match l with
  | [] => None
  | e :: l => if decide (key e = r) then Some e else find_entry r l
  end.

Fixpoint find_id (j : nat) (l : list entry) : option mono_t :=
  match l with
  | [] => None
  | e :: l => if decide (e.1 = j) then Some e.2 else find_id j l
  end.

Fixpoint ins_list (e : entry) (l : list entry) : list entry :=
  match l with
  | [] => [e]
  | x :: l' =>
      if pprod_precedes (key x) (key e) then x :: ins_list e l'
      else e :: x :: l'
  end.

Definition del_list (r : pprod) (l : list entry) : list entry :=
  filter (λ e, key e ≠ r) l.

Definition upd_entry (f : Qc → Qc) (e : entry) : entry :=
  (e.1, Mono (prod e.2) (f (coeff e.2))).

Definition upd_id (j : nat) (f : Qc → Qc) (l : list entry) : list entry :=
  (λ e, if decide (e.1 = j) then upd_entry f e else e) <$> l.

Definition upd_key (r : pprod) (f : Qc → Qc) (l : list entry) : list entry :=
  (λ e, if decide (key e = r) then upd_entry f e else e) <$> l.

Definition coeff_in (l : list entry) (r : pprod) : Qc :=
  match find_entry r l with
  | Some e => coeff e.2
  | None => 0
  end.

Lemma precedes_neq p q : precedes p q → p ≠ q.
Proof. intros Hp ->. unfold precedes in Hp. by rewrite precedes_irrefl in Hp. Qed.

Lemma precedes_asym p q : precedes p q → ¬ precedes q p.
Proof.
  intros H1 H2. pose proof (precedes_trans _ _ _ H1 H2) as H3.
  by rewrite precedes_irrefl in H3.
Qed.

Lemma not_precedes p q : p ≠ q → pprod_precedes p q = false → precedes q p.
Proof. intros Hne Hf. destruct (precedes_total p q Hne) as [H|H]; [congruence|done]. Qed.

#[local] Instance entry_lt_trans : Transitive entry_lt.
Proof. intros x y z. unfold entry_lt, precedes. apply precedes_trans. Qed.

(** *** Sorted lists of entries *)

Lemma sorted_keys_app l1 l2 :
  sorted_keys (l1 ++ l2) ↔
  sorted_keys l1 ∧ sorted_keys l2 ∧ ∀ x y, x ∈ l1 → y ∈ l2 → entry_lt x y.
Proof.
  unfold sorted_keys. induction l1 as [|a l1 IH]; simpl.
  - split; [|naive_solver]. intros H. split_and!; [constructor|done|].
    intros x y Hx. by apply elem_of_nil in Hx.
  - split.
    + intros H. apply StronglySorted_inv in H as [Hs Hall].
      apply IH in Hs as (H1 & H2 & H12). rewrite Forall_app in Hall.
      destruct Hall as [Ha1 Ha2]. split_and!; [by constructor|done|].
      intros x y [->|Hx]%elem_of_cons Hy; [|by apply H12].
      rewrite Forall_forall in Ha2. by apply Ha2.
    + intros (H1 & H2 & H12). apply StronglySorted_inv in H1 as [Hs Hall].
      constructor.
      * apply IH. split_and!; [done..|]. intros x y Hx Hy. apply H12; [by right|done].
      * apply Forall_app. split; [done|]. apply Forall_forall. intros y Hy.
        apply H12; [by left|done].
Qed.

Lemma sorted_keys_cons e l :
  sorted_keys (e :: l) ↔ sorted_keys l ∧ ∀ y, y ∈ l → entry_lt e y.
Proof.
  unfold sorted_keys. split.
  - intros [Hs Hall]%StronglySorted_inv. by rewrite Forall_forall in Hall.
  - intros [Hs Hall]. constructor; [done|]. by apply Forall_forall.
Qed.

Lemma find_entry_None r l : find_entry r l = None ↔ ∀ e, e ∈ l → key e ≠ r.
Proof.
  induction l as [|x l IH]; simpl.
  - split; [|done]. intros _ e He. by apply elem_of_nil in He.
  - destruct (decide (key x = r)) as [Hx|Hx].
    + split; [done|]. intros H. destruct (H x); [by left|done].
    + rewrite IH. split.
      * intros H e [->|He]%elem_of_cons; auto.
      * intros H e He. apply H. by right.
Qed.

Lemma find_entry_Some r l e : find_entry r l = Some e → e ∈ l ∧ key e = r.
Proof.
  induction l as [|x l IH]; simpl; [done|].
  destruct (decide (key x = r)) as [Hx|Hx].
  - intros [= <-]. split; [by left|done].
  - intros [H1 H2]%IH. split; [by right|done].
Qed.

Lemma find_entry_app r l1 l2 :
  find_entry r (l1 ++ l2) =
  match find_entry r l1 with Some e => Some e | None => find_entry r l2 end.
Proof.
  induction l1 as [|x l1 IH]; simpl; [done|].
  by destruct (decide (key x = r)).
Qed.

Lemma sorted_find_entry l e :
  sorted_keys l → e ∈ l → find_entry (key e) l = Some e.
Proof.
  induction l as [|x l IH]; intros Hs He; [by apply elem_of_nil in He|].
  apply sorted_keys_cons in Hs as [Hs Hall]. simpl.
  apply elem_of_cons in He as [->|He].
  - by rewrite decide_True.
  - rewrite decide_False; [by apply IH|]. apply precedes_neq. by apply Hall.
Qed.

Lemma sorted_key_inj l e1 e2 :
  sorted_keys l → e1 ∈ l → e2 ∈ l → key e1 = key e2 → e1 = e2.
Proof.
  intros Hs H1 H2 Hk.
  pose proof (sorted_find_entry l e1 Hs H1) as F1.
  pose proof (sorted_find_entry l e2 Hs H2) as F2.
  rewrite Hk in F1. congruence.
Qed.

Lemma find_id_Some j l m : find_id j l = Some m → (j, m) ∈ l.
Proof.
  induction l as [|[i x] l IH]; simpl; [done|].
  destruct (decide (i = j)) as [->|Hx].
  - intros [= <-]. by left.
  - intros H%IH. by right.
Qed.

Lemma find_id_None j l : find_id j l = None ↔ j ∉ l.*1.
Proof.
  induction l as [|[i x] l IH]; simpl.
  - split; [|done]. intros _ H. by apply elem_of_nil in H.
  - destruct (decide (i = j)) as [->|Hx].
    + split; [done|]. intros H. destruct H. by left.
    + rewrite IH, not_elem_of_cons. naive_solver.
Qed.

Lemma NoDup_find_id l j m : NoDup l.*1 → (j, m) ∈ l → find_id j l = Some m.
Proof.
  induction l as [|[i x] l IH]; intros Hnd Hin; [by apply elem_of_nil in Hin|].
  simpl in *. apply NoDup_cons in Hnd as [Hi Hnd].
  apply elem_of_cons in Hin as [[= -> ->]|Hin].
  - by rewrite decide_True.
  - rewrite decide_False; [by apply IH|]. intros ->. apply Hi.
    apply list_elem_of_fmap. by exists (j, m).
Qed.

(** *** Insertion, deletion and update on sorted lists *)

Lemma ins_list_app_right e l1 y l2 :
  (∀ x, x ∈ l1 → entry_lt x e) → entry_lt y e →
  ins_list e (l1 ++ y :: l2) = l1 ++ y :: ins_list e l2.
Proof.
  induction l1 as [|x l1 IH]; intros Hall Hy; simpl.
  - unfold entry_lt, precedes in Hy. by rewrite Hy.
  - assert (entry_lt x e) as Hx by (apply Hall; by left).
    unfold entry_lt, precedes in Hx. rewrite Hx. f_equal.
    apply IH; [|done]. intros z Hz. apply Hall. by right.
Qed.

Lemma ins_list_app_left e l1 y l2 :
  pprod_precedes (key y) (key e) = false →
  ins_list e (l1 ++ y :: l2) = ins_list e l1 ++ y :: l2.
Proof.
  intros Hy. induction l1 as [|x l1 IH]; simpl.
  - by rewrite Hy.
  - destruct (pprod_precedes (key x) (key e)); [|done]. simpl. by f_equal.
Qed.

Lemma ins_list_perm e l : ins_list e l ≡ₚ e :: l.
Proof.
  induction l as [|x l IH]; simpl; [done|].
  destruct (pprod_precedes (key x) (key e)); [|done].
  rewrite IH. apply Permutation_swap.
Qed.

Lemma elem_of_ins_list x e l : x ∈ ins_list e l ↔ x = e ∨ x ∈ l.
Proof. rewrite ins_list_perm. apply elem_of_cons. Qed.

Lemma sorted_ins_list e l :
  sorted_keys l → (∀ x, x ∈ l → key x ≠ key e) → sorted_keys (ins_list e l).
Proof.
  induction l as [|x l IH]; intros Hs Hne; simpl.
  - repeat constructor.
  - apply sorted_keys_cons in Hs as [Hs Hall].
    destruct (pprod_precedes (key x) (key e)) eqn:Hx.
    + apply sorted_keys_cons. split.
      * apply IH; [done|]. intros z Hz. apply Hne. by right.
      * intros z [->|Hz]%elem_of_ins_list; [done|by apply Hall].
    + assert (entry_lt e x) as Hex.
      { apply not_precedes; [|done]. apply Hne. by left. }
      apply sorted_keys_cons. split.
      * apply sorted_keys_cons. done.
      * intros z [->|Hz]%elem_of_cons; [done|].
        etrans; [done|]. by apply Hall.
Qed.

Lemma find_entry_ins_list e l r :
  (∀ x, x ∈ l → key x ≠ key e) →
  find_entry r (ins_list e l) =
  if decide (key e = r) then Some e else find_entry r l.
Proof.
  intros Hne. induction l as [|x l IH]; simpl.
  - done.
  - destruct (pprod_precedes (key x) (key e)) eqn:Hx; simpl.
    + destruct (decide (key x = r)) as [Hxr|Hxr].
      * rewrite decide_False; [done|]. intros Her.
        apply (Hne x); [by left|congruence].
      * apply IH. intros z Hz. apply Hne. by right.
    + done.
Qed.

Lemma del_list_id r l : (∀ e, e ∈ l → key e ≠ r) → del_list r l = l.
Proof.
  intros H. unfold del_list. induction l as [|x l IH]; [done|].
  rewrite filter_cons_True by (apply H; by left).
  f_equal. apply IH. intros e He. apply H. by right.
Qed.

Lemma del_list_app r l1 l2 : del_list r (l1 ++ l2) = del_list r l1 ++ del_list r l2.
Proof. apply filter_app. Qed.

Lemma elem_of_del_list r l e : e ∈ del_list r l ↔ e ∈ l ∧ key e ≠ r.
Proof. unfold del_list. rewrite list_elem_of_filter. naive_solver. Qed.

Lemma sorted_del_list r l : sorted_keys l → sorted_keys (del_list r l).
Proof.
  induction l as [|x l IH]; intros Hs; [done|].
  apply sorted_keys_cons in Hs as [Hs Hall]. unfold del_list.
  destruct (decide (key x ≠ r)).
  - rewrite filter_cons_True by done. apply sorted_keys_cons. split; [by apply IH|].
    intros y [Hy _]%elem_of_del_list. by apply Hall.
  - rewrite filter_cons_False by done. by apply IH.
Qed.

Lemma find_entry_del_list r l r' :
  find_entry r' (del_list r l) = if decide (r' = r) then None else find_entry r' l.
Proof.
  induction l as [|x l IH]; simpl.
  - by destruct (decide (r' = r)).
  - unfold del_list. destruct (decide (key x ≠ r)) as [Hx|Hx].
    + rewrite filter_cons_True by done. simpl.
      destruct (decide (key x = r')) as [Hx'|Hx'].
      * rewrite decide_False; [done|]. congruence.
      * apply IH.
    + rewrite filter_cons_False by done. fold (del_list r l). rewrite IH.
      destruct (decide (r' = r)) as [->|Hr]; [done|].
      rewrite decide_False; [done|]. apply dec_stable in Hx. congruence.
Qed.

Lemma sorted_del_list_perm r l e :
  sorted_keys l → e ∈ l → key e = r → l ≡ₚ e :: del_list r l.
Proof.
  induction l as [|x l IH]; intros Hs He Hk; [by apply elem_of_nil in He|].
  apply sorted_keys_cons in Hs as [Hs Hall]. unfold del_list.
  apply elem_of_cons in He as [->|He].
  - rewrite filter_cons_False by (intros H; by apply H).
    fold (del_list r l). rewrite del_list_id; [done|].
    intros y Hy. rewrite <- Hk. apply not_eq_sym, precedes_neq. by apply Hall.
  - rewrite filter_cons_True.
    + fold (del_list r l). rewrite (IH Hs He Hk) at 1. apply Permutation_swap.
    + rewrite <- Hk. apply precedes_neq. by apply Hall.
Qed.

Lemma upd_key_fst r f l : (upd_key r f l).*1 = l.*1.
Proof.
  unfold upd_key. rewrite <- list_fmap_compose. apply list_fmap_ext.
  intros i e _. simpl. by destruct (decide (key e = r)).
Qed.

Lemma upd_key_keys r f l : key <$> upd_key r f l = key <$> l.
Proof.
  unfold upd_key. rewrite <- list_fmap_compose. apply list_fmap_ext.
  intros i e _. simpl. by destruct (decide (key e = r)).
Qed.

Lemma sorted_keys_alt l :
  sorted_keys l ↔ StronglySorted precedes (key <$> l).
Proof.
  unfold sorted_keys. induction l as [|x l IH]; simpl.
  - split; constructor.
  - split; intros [Hs Hall]%StronglySorted_inv; constructor; try (by apply IH).
    + rewrite Forall_fmap. eapply Forall_impl; [exact Hall|]. by intros.
    + rewrite Forall_fmap in Hall. eapply Forall_impl; [exact Hall|]. by intros.
Qed.

Lemma sorted_upd_key r f l : sorted_keys l → sorted_keys (upd_key r f l).
Proof. rewrite !sorted_keys_alt. by rewrite upd_key_keys. Qed.

Lemma find_entry_upd_key r f l r' :
  find_entry r' (upd_key r f l) =
  if decide (r' = r) then upd_entry f <$> find_entry r' l else find_entry r' l.
Proof.
  induction l as [|x l IH]; simpl.
  - by destruct (decide (r' = r)).
  - destruct (decide (key x = r)) as [Hx|Hx]; simpl.
    + unfold key at 1; simpl. fold (key x).
      destruct (decide (key x = r')) as [Hx'|Hx'].
      * rewrite decide_True by congruence. done.
      * rewrite IH. done.
    + destruct (decide (key x = r')) as [Hx'|Hx'].
      * rewrite decide_False by congruence. done.
      * apply IH.
Qed.

Lemma upd_id_key j r f l m :
  NoDup l.*1 → sorted_keys l → (j, m) ∈ l → prod m = r →
  upd_id j f l = upd_key r f l.
Proof.
  intros Hnd Hs Hin Hr. unfold upd_id, upd_key.
  apply list_fmap_ext. intros i e He%list_elem_of_lookup_2.
  destruct (decide (e.1 = j)) as [Hj|Hj], (decide (key e = r)) as [Hk|Hk]; try done.
  - exfalso. apply Hk.
    pose proof (NoDup_find_id l j m Hnd Hin) as F1.
    destruct e as [i' m']. simpl in Hj. subst i'.
    pose proof (NoDup_find_id l j m' Hnd He) as F2. unfold key. simpl. congruence.
  - exfalso. apply Hj.
    assert (e = (j, m)) as ->; [|done].
    apply (sorted_key_inj l); [done..|]. unfold key at 2. simpl. congruence.
Qed.

Lemma upd_id_fresh j f l : j ∉ l.*1 → upd_id j f l = l.
Proof.
  intros Hj. unfold upd_id. rewrite <- (list_fmap_id l) at 2.
  apply list_fmap_ext. intros i e He%list_elem_of_lookup_2. simpl.
  rewrite decide_False; [done|]. intros <-. apply Hj.
  apply list_elem_of_fmap. by exists e.
Qed.

Lemma upd_id_ins_list j m f l :
  j ∉ l.*1 →
  upd_id j f (ins_list (j, m) l) = ins_list (upd_entry f (j, m)) l.
Proof.
  intros Hj. induction l as [|x l IH]; simpl.
  - unfold upd_id. simpl. by rewrite decide_True.
  - simpl in Hj. apply not_elem_of_cons in Hj as [Hx Hl].
    change (key (j, m)) with (prod m).
    change (key (upd_entry f (j, m))) with (prod m).
    destruct (pprod_precedes (key x) (prod m)) eqn:E.
    + unfold upd_id. rewrite fmap_cons. rewrite decide_False by done. f_equal.
      by apply IH.
    + unfold upd_id. rewrite !fmap_cons. simpl. rewrite decide_True by done.
      rewrite decide_False by done.
      f_equal. f_equal. fold (upd_id j f l). by apply upd_id_fresh.
Qed.

(** ** The in-order sequence of a tree under the tree operations *)

Definition bst (t : tree) : Prop := sorted_keys (inorder t).

Ltac inorder_solve :=
  repeat case_match; subst; simpl;
  repeat (rewrite <- ?app_assoc; simpl); try done.

Lemma inorder_paint c t : inorder (paint c t) = inorder t.
Proof. by destruct t. Qed.

Lemma inorder_fix_left l i m r :
  inorder (fix_left l i m r) = inorder l ++ (i, m) :: inorder r.
Proof. unfold fix_left. inorder_solve; rewrite ?inorder_paint; inorder_solve. Qed.

Lemma inorder_fix_right l i m r :
  inorder (fix_right l i m r) = inorder l ++ (i, m) :: inorder r.
Proof. unfold fix_right. inorder_solve; rewrite ?inorder_paint; inorder_solve. Qed.

Lemma inorder_bal_left l i m r :
  inorder (bal_left l i m r) = inorder l ++ (i, m) :: inorder r.
Proof. unfold bal_left. inorder_solve. Qed.

Lemma inorder_bal_right l i m r :
  inorder (bal_right l i m r) = inorder l ++ (i, m) :: inorder r.
Proof. unfold bal_right. inorder_solve. Qed.

Lemma inorder_short_left l i m r :
  inorder (short_left l i m r) = inorder l ++ (i, m) :: inorder r.
Proof.
  unfold short_left. inorder_solve;
    rewrite ?inorder_bal_right, ?inorder_paint; inorder_solve.
Qed.

Lemma inorder_short_right l i m r :
  inorder (short_right l i m r) = inorder l ++ (i, m) :: inorder r.
Proof.
  unfold short_right. inorder_solve;
    rewrite ?inorder_bal_left, ?inorder_paint; inorder_solve.
Qed.

Lemma join_red_red ll li lm lr rl ri rm rr :
  join (Node Red ll li lm lr) (Node Red rl ri rm rr) =
  match join lr rl with
  | Node Red a xi xm b =>
      Node Red (Node Red ll li lm a) xi xm (Node Red b ri rm rr)
  | t => Node Red ll li lm (Node Red t ri rm rr)
  end.
Proof. done. Qed.

Lemma join_black_black ll li lm lr rl ri rm rr :
  join (Node Black ll li lm lr) (Node Black rl ri rm rr) =
  match join lr rl with
  | Node Red a xi xm b =>
      Node Red (Node Black ll li lm a) xi xm (Node Black b ri rm rr)
  | t => short_left ll li lm (Node Black t ri rm rr)
  end.
Proof. done. Qed.

Lemma join_black_red ll li lm lr rl ri rm rr :
  join (Node Black ll li lm lr) (Node Red rl ri rm rr) =
  Node Red (join (Node Black ll li lm lr) rl) ri rm rr.
Proof. done. Qed.

Lemma join_red_black ll li lm lr rl ri rm rr :
  join (Node Red ll li lm lr) (Node Black rl ri rm rr) =
  Node Red ll li lm (join lr (Node Black rl ri rm rr)).
Proof. done. Qed.

Lemma inorder_node c l i m r :
  inorder (Node c l i m r) = inorder l ++ (i, m) :: inorder r.
Proof. done. Qed.

Lemma inorder_join l r : inorder (join l r) = inorder l ++ inorder r.
Proof.
  revert r. induction l as [|lc ll IHl li lm lr IHr]; intros r; [done|].
  induction r as [|rc rl IHrl ri rm rr IHrr]; [by rewrite app_nil_r|].
  destruct lc, rc.
  - rewrite join_red_red.
    trans (inorder ll ++ (li, lm) :: inorder (join lr rl) ++ (ri, rm) :: inorder rr).
    + destruct (join lr rl) as [|[] a xi xm b]; inorder_solve.
    + rewrite IHr. inorder_solve.
  - rewrite join_red_black, inorder_node, IHr. inorder_solve.
  - rewrite join_black_red, inorder_node, IHrl. inorder_solve.
  - rewrite join_black_black.
    trans (inorder ll ++ (li, lm) :: inorder (join lr rl) ++ (ri, rm) :: inorder rr).
    + destruct (join lr rl) as [|[] a xi xm b];
        rewrite ?inorder_short_left; inorder_solve.
    + rewrite IHr. inorder_solve.
Qed.

Lemma node_mono_inorder t j : node_mono t j = find_id j (inorder t).
Proof.
  induction t as [|c l IHl i m r IHr]; simpl; [done|].
  rewrite IHl, IHr. clear IHl IHr.
  induction (inorder l) as [|x xs IH]; simpl; [done|].
  by destruct (decide (x.1 = j)).
Qed.

Lemma inorder_set_coeff j f t : inorder (set_coeff j f t) = upd_id j f (inorder t).
Proof.
  induction t as [|c l IHl i m r IHr]; simpl; [done|].
  rewrite IHl, IHr. unfold upd_id. rewrite fmap_app. simpl.
  by destruct (decide (i = j)).
Qed.

Lemma find_node_inorder t r :
  bst t → find_node t r = from_option fst 0%nat (find_entry r (inorder t)).
Proof.
  unfold bst. induction t as [|c l IHl i m rt IHr]; simpl; [done|].
  intros (Hl & Hr & Hlr)%sorted_keys_app.
  apply sorted_keys_cons in Hr as [Hr Hmr].
  assert (∀ x, x ∈ inorder l → entry_lt x (i, m)) as Hlm.
  { intros x Hx. apply Hlr; [done|apply list_elem_of_here]. }
  rewrite find_entry_app. simpl. change (key (i, m)) with (prod m).
  destruct (decide (prod m = r)) as [Hm|Hm].
  - rewrite (proj2 (find_entry_None r (inorder l))); [done|].
    intros e He. rewrite <- Hm. by apply precedes_neq, Hlm.
  - destruct (pprod_precedes (prod m) r) eqn:Hp.
    + rewrite (proj2 (find_entry_None r (inorder l))); [by apply IHr|].
      intros e He. apply precedes_neq.
      apply (precedes_trans _ (prod m)); [by apply Hlm|done].
    + rewrite IHl by done.
      destruct (find_entry r (inorder l)) as [e|]; [done|].
      rewrite (proj2 (find_entry_None r (inorder rt))); [done|].
      intros e He. apply not_eq_sym, precedes_neq.
      apply (precedes_trans _ (prod m)); [by apply not_precedes|by apply Hmr].
Qed.

Lemma inorder_ins j r t :
  bst t → (∀ e, e ∈ inorder t → key e ≠ r) →
  inorder (ins j r t) = ins_list (j, Mono r 0) (inorder t).
Proof.
  unfold bst. induction t as [|c l IHl i m rt IHr]; simpl; [done|].
  intros (Hl & Hr & Hlr)%sorted_keys_app Hne.
  apply sorted_keys_cons in Hr as [Hr Hmr].
  assert (prod m ≠ r) as Hm.
  { apply (Hne (i, m)), elem_of_app. right. apply list_elem_of_here. }
  rewrite decide_False by done.
  destruct (pprod_precedes (prod m) r) eqn:Hp.
  - rewrite ins_list_app_right; [| |done].
    + destruct c; rewrite ?inorder_fix_right; simpl; rewrite IHr; try done;
        intros e He; apply Hne, elem_of_app; right; by right.
    + intros x Hx. unfold entry_lt.
      apply (precedes_trans _ (prod m)); [|done].
      apply (Hlr x (i, m)); [done|apply list_elem_of_here].
  - rewrite ins_list_app_left by done.
    destruct c; rewrite ?inorder_fix_left; simpl; rewrite IHl; try done;
      intros e He; apply Hne, elem_of_app; by left.
Qed.

Lemma inorder_del r t : bst t → inorder (del r t) = del_list r (inorder t).
Proof.
  unfold bst. induction t as [|c l IHl i m rt IHr]; simpl; [done|].
  intros (Hl & Hr & Hlr)%sorted_keys_app.
  apply sorted_keys_cons in Hr as [Hr Hmr].
  assert (∀ x, x ∈ inorder l → entry_lt x (i, m)) as Hlm.
  { intros x Hx. apply Hlr; [done|apply list_elem_of_here]. }
  rewrite del_list_app. unfold del_list at 2.
  destruct (decide (prod m = r)) as [Hm|Hm].
  - rewrite filter_cons_False by (intros H; by apply H).
    rewrite inorder_join. fold (del_list r (inorder rt)).
    rewrite !del_list_id; [done|..].
    + intros e He. rewrite <- Hm. apply not_eq_sym, precedes_neq. by apply Hmr.
    + intros e He. rewrite <- Hm. by apply precedes_neq, Hlm.
  - rewrite filter_cons_True by done. fold (del_list r (inorder rt)).
    destruct (pprod_precedes (prod m) r) eqn:Hp.
    + rewrite (del_list_id r (inorder l)).
      * destruct (is_black_node rt); rewrite ?inorder_short_right; simpl; by rewrite IHr.
      * intros e He. apply precedes_neq.
        apply (precedes_trans _ (prod m)); [by apply Hlm|done].
    + rewrite (del_list_id r (inorder rt)).
      * destruct (is_black_node l); rewrite ?inorder_short_left; simpl; by rewrite IHl.
      * intros e He. apply not_eq_sym, precedes_neq.
        apply (precedes_trans _ (prod m)); [by apply not_precedes|by apply Hmr].
Qed.

(** ** Well-formed buffers *)

Definition ids (b : rba_buffer_t) : list nat := (inorder (root b)).*1.
Definition slots (b : rba_buffer_t) : list nat := ids b ++ free_list b.

Record wf (b : rba_buffer_t) : Prop := Wf {
  wf_sorted : sorted_keys (inorder (root b));
  wf_nodup : NoDup (slots b);
  wf_range : ∀ i, i ∈ slots b → (0 < i < num_nodes b)%nat;
  wf_sentinel : (0 < num_nodes b)%nat;
  wf_nterms : nterms b = length (inorder (root b))
}.

Definition canonical (b : rba_buffer_t) : Prop :=
  ∀ e, e ∈ inorder (root b) → coeff e.2 ≠ 0.

Definition coeff_of (b : rba_buffer_t) (r : pprod) : Qc :=
  coeff_in (inorder (root b)) r.

(** The slots of [b'] are those of [b], up to their order, with at most
    one new slot taken at the end of the arena. *)
Definition same_slots (b b' : rba_buffer_t) : Prop :=
  (slots b' ≡ₚ slots b ∧ num_nodes b' = num_nodes b)
  ∨ (slots b' ≡ₚ num_nodes b :: slots b ∧ num_nodes b' = S (num_nodes b)).

Lemma same_slots_wf b b' :
  wf b → same_slots b b' →
  NoDup (slots b') ∧ ∀ i, i ∈ slots b' → (0 < i < num_nodes b')%nat.
Proof.
  intros [_ Hnd Hrange Hpos _] [[Hp Hn]|[Hp Hn]].
  - split; [by rewrite Hp|]. intros i Hi. rewrite Hp in Hi. rewrite Hn. auto.
  - assert (num_nodes b ∉ slots b) as Hfresh.
    { intros Hin. apply Hrange in Hin. lia. }
    split; [rewrite Hp; by constructor|].
    intros i Hi. rewrite Hp in Hi. rewrite Hn.
    apply elem_of_cons in Hi as [->|Hi]; [lia|].
    apply Hrange in Hi. lia.
Qed.

Lemma rba_alloc_node_spec b :
  wf b →
  ∃ fl, rba_alloc_node b =
        ((rba_alloc_node b).1,
         RbaBuffer (root b) (nterms b) (num_nodes (rba_alloc_node b).2) fl (ptbl b))
    ∧ (0 < (rba_alloc_node b).1)%nat
    ∧ ((rba_alloc_node b).1 ∉ ids b)
    ∧ ((free_list b = (rba_alloc_node b).1 :: fl
        ∧ num_nodes (rba_alloc_node b).2 = num_nodes b)
       ∨ ((rba_alloc_node b).1 = num_nodes b ∧ free_list b = [] ∧ fl = []
          ∧ num_nodes (rba_alloc_node b).2 = S (num_nodes b))).
Proof.
  intros [_ Hnd Hrange Hpos _]. unfold rba_alloc_node, slots in *.
  destruct (free_list b) as [|i fl] eqn:Hfl; simpl.
  - exists []. split_and!; [done|lia| |right; done].
    intros Hin. specialize (Hrange (num_nodes b)).
    rewrite app_nil_r in Hrange. apply Hrange in Hin. lia.
  - exists fl. split_and!; [done| | |left; done].
    + apply (Hrange i). apply elem_of_app. right. by left.
    + intros Hin. apply NoDup_app in Hnd as (_ & Hdisj & _).
      apply (Hdisj i Hin). by left.
Qed.

Lemma rba_get_node_spec b r b' j new :
  wf b → rba_get_node b r = (b', j, new) →
  wf b' ∧ ptbl b' = ptbl b ∧ (0 < j)%nat
  ∧ match find_entry r (inorder (root b)) with
    | Some e => new = false ∧ j = e.1 ∧ b' = b
    | None =>
        new = true ∧ (j ∉ ids b)
        ∧ inorder (root b') = ins_list (j, Mono r 0) (inorder (root b))
        ∧ same_slots b b'
    end.
Proof.
  intros Hwf. unfold rba_get_node, rba_find_node.
  rewrite find_node_inorder by apply Hwf.
  destruct (find_entry r (inorder (root b))) as [e|] eqn:Hfind; simpl.
  - apply find_entry_Some in Hfind as [He Hk].
    assert (0 < e.1)%nat as Hpos.
    { apply (wf_range b Hwf). apply elem_of_app. left.
      apply list_elem_of_fmap. by exists e. }
    destruct (e.1) as [|n] eqn:E; [lia|].
    intros [= <- <- <-]. split_and!; try done.
  - destruct (rba_alloc_node_spec b Hwf) as (fl & Halloc & Hpos & Hfresh & Hcase).
    rewrite Halloc. simpl. intros [= <- <- <-]. simpl.
    assert (inorder (paint Black (ins (rba_alloc_node b).1 r (root b)))
            = ins_list ((rba_alloc_node b).1, Mono r 0) (inorder (root b))) as Hin.
    { rewrite inorder_paint. apply inorder_ins; [apply Hwf|].
      by apply find_entry_None. }
    set (j := (rba_alloc_node b).1) in *.
    set (b' := RbaBuffer _ _ _ _ _).
    assert (same_slots b b') as Hslots.
    { unfold same_slots, slots, ids. simpl. rewrite Hin.
      rewrite (fmap_Permutation _ _ _ (ins_list_perm _ _)). simpl.
      destruct Hcase as [[Hfl Hn]|(Hj & Hfl & -> & Hn)].
      - left. split; [|done]. rewrite Hfl. by rewrite Permutation_middle.
      - right. split; [|done]. rewrite Hfl, Hj, !app_nil_r. done. }
    destruct (same_slots_wf b b' Hwf Hslots) as [Hnd Hrange].
    split_and!; try done.
    constructor; try done.
    + simpl. rewrite Hin. apply sorted_ins_list; [apply Hwf|].
      intros x Hx. by apply (proj1 (find_entry_None r _) Hfind).
    + simpl. destruct Hcase as [[_ ->]|(_ & _ & _ & ->)];
        [apply (wf_sentinel b Hwf)|lia].
    + simpl. rewrite Hin, (wf_nterms b Hwf).
      by rewrite (Permutation_length (ins_list_perm _ _)).
Qed.

Lemma del_list_ins_list e l :
  (∀ x, x ∈ l → key x ≠ key e) → del_list (key e) (ins_list e l) = l.
Proof.
  intros Hne. induction l as [|x l IH]; simpl.
  - unfold del_list. by rewrite filter_cons_False by (intros H; by apply H).
  - assert (key x ≠ key e) as Hx by (apply Hne; by left).
    destruct (pprod_precedes (key x) (key e)); unfold del_list.
    + rewrite filter_cons_True by done. f_equal. apply IH.
      intros z Hz. apply Hne. by right.
    + rewrite filter_cons_False by (intros H; by apply H).
      by apply (del_list_id (key e) (x :: l)).
Qed.

Lemma coeff_in_ins_list e l r :
  (∀ x, x ∈ l → key x ≠ key e) →
  coeff_in (ins_list e l) r = if decide (key e = r) then coeff e.2 else coeff_in l r.
Proof.
  intros Hne. unfold coeff_in. rewrite find_entry_ins_list by done.
  by destruct (decide (key e = r)).
Qed.

Lemma coeff_in_absent l r : find_entry r l = None → coeff_in l r = 0.
Proof. unfold coeff_in. by intros ->. Qed.

Lemma coeff_in_present l e : sorted_keys l → e ∈ l → coeff_in l (key e) = coeff e.2.
Proof. intros Hs He. unfold coeff_in. by rewrite (sorted_find_entry l e Hs He). Qed.

Lemma coeff_in_upd_key r f l r' :
  coeff_in (upd_key r f l) r' =
  if decide (r' = r) then
    match find_entry r l with Some e => f (coeff e.2) | None => 0 end
  else coeff_in l r'.
Proof.
  unfold coeff_in. rewrite find_entry_upd_key.
  destruct (decide (r' = r)) as [->|]; [|done].
  by destruct (find_entry r l).
Qed.

Lemma coeff_in_del_list r l r' :
  coeff_in (del_list r l) r' = if decide (r' = r) then 0 else coeff_in l r'.
Proof.
  unfold coeff_in. rewrite find_entry_del_list.
  by destruct (decide (r' = r)).
Qed.

Definition canonical_except (r : pprod) (b : rba_buffer_t) : Prop :=
  ∀ e, e ∈ inorder (root b) → key e ≠ r → coeff e.2 ≠ 0.

Lemma rba_get_node_entry b r b1 j new :
  wf b → rba_get_node b r = (b1, j, new) →
  (∀ r', coeff_of b1 r' = coeff_of b r')
  ∧ (∃ m, (j, m) ∈ inorder (root b1) ∧ prod m = r)
  ∧ (canonical b → canonical_except r b1).
Proof.
  intros Hwf Hget.
  destruct (rba_get_node_spec b r b1 j new Hwf Hget) as (Hwf1 & _ & _ & Hcase).
  destruct (find_entry r (inorder (root b))) as [e|] eqn:Hfind.
  - destruct Hcase as (_ & -> & ->).
    apply find_entry_Some in Hfind as [He Hk].
    split_and!; [done| |].
    + exists e.2. by destruct e.
    + intros Hc x Hx _. by apply Hc.
  - destruct Hcase as (_ & Hfresh & Hin & _).
    pose proof (proj1 (find_entry_None r _) Hfind) as Hne.
    split_and!.
    + intros r'. unfold coeff_of. rewrite Hin, coeff_in_ins_list by done.
      change (key (j, Mono r 0)) with r.
      destruct (decide (r = r')) as [<-|]; [|done].
      by rewrite coeff_in_absent.
    + exists (Mono r 0). split; [|done]. rewrite Hin. apply elem_of_ins_list. by left.
    + intros Hc x Hx Hk. rewrite Hin in Hx.
      apply elem_of_ins_list in Hx as [->|Hx]; [done|by apply Hc].
Qed.

Lemma set_coeff_spec b1 j m f :
  wf b1 → (j, m) ∈ inorder (root b1) →
  let b2 := RbaBuffer (set_coeff j f (root b1)) (nterms b1) (num_nodes b1)
              (free_list b1) (ptbl b1) in
  wf b2
  ∧ inorder (root b2) = upd_key (prod m) f (inorder (root b1))
  ∧ (j, Mono (prod m) (f (coeff m))) ∈ inorder (root b2).
Proof.
  intros Hwf Hin b2.
  assert (NoDup (ids b1)) as Hnd.
  { pose proof (wf_nodup b1 Hwf) as H. by apply NoDup_app in H as [? _]. }
  assert (inorder (root b2) = upd_key (prod m) f (inorder (root b1))) as Heq.
  { unfold b2. simpl. rewrite inorder_set_coeff.
    apply (upd_id_key j (prod m) f _ m); [done|apply Hwf|done|done]. }
  split_and!; [|done|].
  - constructor.
    + rewrite Heq. apply sorted_upd_key, Hwf.
    + unfold slots, ids. rewrite Heq, upd_key_fst. apply Hwf.
    + unfold slots, ids. rewrite Heq, upd_key_fst. apply Hwf.
    + apply (wf_sentinel b1 Hwf).
    + rewrite Heq. unfold upd_key. rewrite length_fmap. apply Hwf.
  - rewrite Heq. unfold upd_key. apply list_elem_of_fmap.
    exists (j, m). split; [|done]. change (key (j, m)) with (prod m).
    by rewrite decide_True.
Qed.

Lemma rba_delete_node_spec b2 j m :
  wf b2 → (j, m) ∈ inorder (root b2) →
  wf (rba_delete_node b2 j)
  ∧ inorder (root (rba_delete_node b2 j)) = del_list (prod m) (inorder (root b2))
  ∧ ptbl (rba_delete_node b2 j) = ptbl b2.
Proof.
  intros Hwf Hin.
  assert (NoDup (ids b2)) as Hnd.
  { pose proof (wf_nodup b2 Hwf) as H. by apply NoDup_app in H as [? _]. }
  unfold rba_delete_node. rewrite node_mono_inorder.
  rewrite (NoDup_find_id _ j m Hnd Hin). simpl.
  assert (inorder (paint Black (del (prod m) (root b2)))
          = del_list (prod m) (inorder (root b2))) as Heq.
  { rewrite inorder_paint. apply inorder_del, Hwf. }
  pose proof (sorted_del_list_perm (prod m) _ (j, m) (wf_sorted b2 Hwf) Hin eq_refl)
    as Hperm.
  assert ((del_list (prod m) (inorder (root b2))).*1 ++ j :: free_list b2
          ≡ₚ slots b2) as Hslots.
  { unfold slots, ids. rewrite Hperm at 2. simpl.
    by rewrite Permutation_middle. }
  split_and!; [|done|done].
  constructor; simpl.
  - rewrite Heq. apply sorted_del_list, Hwf.
  - unfold slots, ids. simpl. rewrite Heq, Hslots. apply Hwf.
  - unfold slots, ids. simpl. rewrite Heq. intros i Hi. rewrite Hslots in Hi.
    by apply (wf_range b2 Hwf).
  - apply (wf_sentinel b2 Hwf).
  - rewrite Heq, (wf_nterms b2 Hwf).
    by rewrite (Permutation_length Hperm).
Qed.

Lemma rba_buffer_add_mono_spec b a r :
  wf b →
  wf (rba_buffer_add_mono b a r)
  ∧ ptbl (rba_buffer_add_mono b a r) = ptbl b
  ∧ (∀ r', coeff_of (rba_buffer_add_mono b a r) r'
           = coeff_of b r' + (if decide (r' = r) then a else 0))
  ∧ (canonical b → canonical (rba_buffer_add_mono b a r)).
Proof.
  intros Hwf. unfold rba_buffer_add_mono.
  destruct (rba_get_node b r) as [[b1 j] new] eqn:Hget.
  destruct (rba_get_node_spec b r b1 j new Hwf Hget) as (Hwf1 & Hptbl1 & _ & _).
  destruct (rba_get_node_entry b r b1 j new Hwf Hget) as (Hco1 & (m & Hm & Hr) & Hcan1).
  destruct (set_coeff_spec b1 j m (λ c, c + a) Hwf1 Hm) as (Hwf2 & Hin2 & Hm2).
  set (b2 := RbaBuffer _ _ _ _ _) in *. rewrite Hr in *.
  assert (NoDup (ids b2)) as Hnd2.
  { pose proof (wf_nodup b2 Hwf2) as H. by apply NoDup_app in H as [? _]. }
  rewrite node_mono_inorder, (NoDup_find_id _ j _ Hnd2 Hm2). simpl.
  assert (coeff m = coeff_of b r) as Hcm.
  { rewrite <- Hco1, <- Hr. unfold coeff_of.
    symmetry. apply (coeff_in_present _ (j, m) (wf_sorted b1 Hwf1) Hm). }
  assert (∀ r', coeff_of b2 r' = if decide (r' = r) then coeff_of b r + a
                                 else coeff_of b r') as Hco2.
  { intros r'. unfold coeff_of at 1. rewrite Hin2, coeff_in_upd_key.
    destruct (decide (r' = r)) as [->|]; [|apply Hco1].
    pose proof (sorted_find_entry _ (j, m) (wf_sorted b1 Hwf1) Hm) as Hf.
    change (key (j, m)) with (prod m) in Hf. rewrite Hr in Hf.
    rewrite Hf. simpl. by rewrite Hcm. }
  assert (canonical b → canonical_except r b2) as Hcan2.
  { intros Hc e He Hk. rewrite Hin2 in He. unfold upd_key in He.
    apply list_elem_of_fmap in He as (e0 & -> & He0).
    destruct (decide (key e0 = r)) as [Hk0|Hk0].
    - exfalso. apply Hk. done.
    - by apply (Hcan1 Hc). }
  destruct (decide (coeff m + a = 0)) as [Hz|Hnz].
  - destruct (rba_delete_node_spec b2 j _ Hwf2 Hm2) as (Hwf3 & Hin3 & Hptbl3).
    cbn [prod] in Hin3. split_and!; [done|by rewrite Hptbl3| |].
    + intros r'. unfold coeff_of at 1. rewrite Hin3, coeff_in_del_list.
      change (coeff_in (inorder (root b2)) r') with (coeff_of b2 r').
      rewrite Hco2.
      destruct (decide (r' = r)) as [->|]; [|by rewrite Qcplus_0_r].
      by rewrite <- Hcm, Hz.
    + intros Hc e He. rewrite Hin3 in He.
      apply elem_of_del_list in He as [He Hk]. by apply (Hcan2 Hc).
  - split_and!; [done|done| |].
    + intros r'. rewrite Hco2.
      destruct (decide (r' = r)) as [->|]; [done|by rewrite Qcplus_0_r].
    + intros Hc e He. destruct (decide (key e = r)) as [Hk|Hk]; [|by apply (Hcan2 Hc)].
      assert (e = (j, Mono r (coeff m + a))) as ->; [|done].
      apply (sorted_key_inj _ _ _ (wf_sorted b2 Hwf2) He Hm2). done.
Qed.

(** ** Canonical output *)

Lemma to_polynomial_inorder b :
  to_polynomial b = (λ m, (prod m, coeff m)) <$> (inorder (root b)).*2.
Proof. unfold to_polynomial. by rewrite <- list_fmap_compose. Qed.

Lemma sorted_canonical_ext (l1 l2 : list entry) :
  sorted_keys l1 → sorted_keys l2 →
  (∀ e, e ∈ l1 → coeff e.2 ≠ 0) → (∀ e, e ∈ l2 → coeff e.2 ≠ 0) →
  (∀ r, coeff_in l1 r = coeff_in l2 r) →
  l1.*2 = l2.*2.
Proof.
  revert l2. induction l1 as [|e1 l1 IH]; intros l2 Hs1 Hs2 Hz1 Hz2 Hco.
  - destruct l2 as [|e2 l2]; [done|]. exfalso.
    specialize (Hco (key e2)). unfold coeff_in in Hco. simpl in Hco.
    rewrite decide_True in Hco by done. apply (Hz2 e2); [by left|done].
  - destruct l2 as [|e2 l2].
    { exfalso. specialize (Hco (key e1)). unfold coeff_in in Hco. simpl in Hco.
      rewrite decide_True in Hco by done. apply (Hz1 e1); [by left|done]. }
    apply sorted_keys_cons in Hs1 as [Hs1 Hall1].
    apply sorted_keys_cons in Hs2 as [Hs2 Hall2].
    assert (∀ (e : entry) l r, (∀ y, y ∈ l → entry_lt e y) →
                     (r = key e ∨ precedes r (key e)) → find_entry r l = None) as Hnone.
    { intros e l r Hall Hr. apply find_entry_None. intros y Hy Hk.
      specialize (Hall y Hy). unfold entry_lt in Hall. rewrite Hk in Hall.
      destruct Hr as [->|Hr]; [by apply precedes_neq in Hall|].
      by apply precedes_asym in Hall. }
    assert (key e1 = key e2) as Hk.
    { destruct (decide (key e1 = key e2)) as [|Hne]; [done|]. exfalso.
      destruct (precedes_total _ _ Hne) as [Hlt|Hlt].
      - pose proof (Hco (key e1)) as H. unfold coeff_in in H. simpl in H.
        rewrite decide_True in H by done. rewrite decide_False in H by done.
        rewrite (Hnone e2 l2) in H; [|done|by right].
        apply (Hz1 e1); [by left|done].
      - pose proof (Hco (key e2)) as H. unfold coeff_in in H. simpl in H.
        rewrite decide_False in H by done. rewrite decide_True in H by done.
        rewrite (Hnone e1 l1) in H; [|done|by right].
        apply (Hz2 e2); [by left|done]. }
    assert (coeff e1.2 = coeff e2.2) as Hc.
    { pose proof (Hco (key e1)) as H. unfold coeff_in in H. simpl in H.
      rewrite decide_True in H by done. by rewrite decide_True in H by done. }
    simpl. f_equal.
    + destruct e1 as [i1 [p1 c1]], e2 as [i2 [p2 c2]].
      unfold key in Hk. simpl in *. by subst.
    + apply IH; try done.
      * intros e He. apply Hz1. by right.
      * intros e He. apply Hz2. by right.
      * intros r. pose proof (Hco r) as H. unfold coeff_in in H |- *. simpl in H.
        destruct (decide (key e1 = r)) as [<-|Hr].
        -- rewrite (Hnone e1 l1), (Hnone e2 l2); [done|done|by left; rewrite Hk|done|by left].
        -- rewrite decide_False in H by congruence. done.
Qed.

Lemma canonical_output_ext b1 b2 :
  wf b1 → wf b2 → canonical b1 → canonical b2 →
  (∀ r, coeff_of b1 r = coeff_of b2 r) →
  to_polynomial b1 = to_polynomial b2.
Proof.
  intros Hwf1 Hwf2 Hc1 Hc2 Hco. rewrite !to_polynomial_inorder. f_equal.
  apply sorted_canonical_ext; [apply Hwf1|apply Hwf2|done..].
Qed.

Lemma filter_key_sorted (l : list entry) r :
  sorted_keys l →
  filter (λ e, key e = r) l =
  match find_entry r l with Some e => [e] | None => [] end.
Proof.
  induction l as [|x l IH]; intros Hs; [done|].
  apply sorted_keys_cons in Hs as [Hs Hall]. simpl.
  destruct (decide (key x = r)) as [Hx|Hx].
  - rewrite filter_cons_True by done. f_equal.
    rewrite IH by done. rewrite (proj2 (find_entry_None r l)); [done|].
    intros e He. rewrite <- Hx. apply not_eq_sym, precedes_neq. by apply Hall.
  - rewrite filter_cons_False by done. by apply IH.
Qed.

Lemma filter_fmap_comm {A B} (f : A → B) (P : B → Prop)
    `{∀ x, Decision (P x)} (l : list A) :
  filter P (f <$> l) = f <$> filter (λ x, P (f x)) l.
Proof.
  induction l as [|x l IH]; [done|]. rewrite fmap_cons.
  destruct (decide (P (f x))).
  - rewrite !filter_cons_True by done. rewrite fmap_cons. by f_equal.
  - by rewrite !filter_cons_False by done.
Qed.

Lemma to_polynomial_entries_for b r :
  wf b → canonical b →
  filter (λ x, x.1 = r) (to_polynomial b) =
  if decide (coeff_of b r = 0) then [] else [(r, coeff_of b r)].
Proof.
  intros Hwf Hc. unfold to_polynomial.
  rewrite filter_fmap_comm. simpl.
  change (filter _ (inorder (root b)))
    with (filter (λ e : entry, key e = r) (inorder (root b))).
  rewrite filter_key_sorted by apply Hwf.
  unfold coeff_of, coeff_in.
  destruct (find_entry r (inorder (root b))) as [e|] eqn:Hf.
  - apply find_entry_Some in Hf as [He Hk].
    rewrite decide_False by (by apply Hc). simpl. unfold key in Hk. by rewrite Hk.
  - by rewrite decide_True.
Qed.

Lemma rba_find_node_absent b r :
  wf b → rba_find_node b r = 0%nat ↔ find_entry r (inorder (root b)) = None.
Proof.
  intros Hwf. unfold rba_find_node. rewrite find_node_inorder by apply Hwf.
  destruct (find_entry r (inorder (root b))) as [e|] eqn:Hf; simpl; [|done].
  split; [|done]. intros He. exfalso.
  apply find_entry_Some in Hf as [Hin _].
  assert (0 < e.1)%nat; [|lia].
  apply (wf_range b Hwf). apply elem_of_app. left.
  apply list_elem_of_fmap. by exists e.
Qed.

Lemma wf_init tbl : wf (init_rba_buffer tbl).
Proof.
  constructor; simpl; try done; try lia.
  - constructor.
  - constructor.
  - intros i Hi. by apply elem_of_nil in Hi.
Qed.

Lemma canonical_init tbl : canonical (init_rba_buffer tbl).
Proof. intros e He. by apply elem_of_nil in He. Qed.

(** ** The wrappers *)

(** The coefficient that a list of monomials gives to [r]. *)
Definition delta (ms : list (Qc * pprod)) (r : pprod) : Qc :=
  foldr (λ x acc, (if decide (x.2 = r) then x.1 else 0) + acc) 0 ms.

Lemma add_monos_spec b ms :
  wf b →
  wf (add_monos b ms)
  ∧ ptbl (add_monos b ms) = ptbl b
  ∧ (∀ r, coeff_of (add_monos b ms) r = coeff_of b r + delta ms r)
  ∧ (canonical b → canonical (add_monos b ms)).
Proof.
  revert b. induction ms as [|[a p] ms IH]; intros b Hwf; simpl.
  - split_and!; try done. intros r. by rewrite Qcplus_0_r.
  - destruct (rba_buffer_add_mono_spec b a p Hwf) as (Hwf1 & Hp1 & Hco1 & Hcan1).
    destruct (IH _ Hwf1) as (Hwf2 & Hp2 & Hco2 & Hcan2).
    split_and!; [done|by rewrite Hp2| |auto].
    intros r. rewrite Hco2, Hco1.
    destruct (decide (r = p)) as [->|Hne].
    + rewrite decide_True by done. ring.
    + rewrite decide_False by done. ring.
Qed.

Lemma delta_app ms1 ms2 r : delta (ms1 ++ ms2) r = delta ms1 r + delta ms2 r.
Proof.
  induction ms1 as [|x ms1 IH]; simpl; [by rewrite Qcplus_0_l|].
  rewrite IH. ring.
Qed.

(** ** Merging and looking up *)

Lemma rba_buffer_add_mono_twice b r a a' :
  wf b → canonical b →
  let b2 := rba_buffer_add_mono (rba_buffer_add_mono b a r) a' r in
  wf b2 ∧ canonical b2
  ∧ filter (λ x, x.1 = r) (to_polynomial b2) =
    if decide (coeff_of b r + a + a' = 0) then []
    else [(r, coeff_of b r + a + a')].
Proof.
  intros Hwf Hcan b2.
  destruct (rba_buffer_add_mono_spec b a r Hwf) as (Hwf1 & _ & Hco1 & Hcan1).
  destruct (rba_buffer_add_mono_spec _ a' r Hwf1) as (Hwf2 & _ & Hco2 & Hcan2).
  split_and!; [done|auto|].
  rewrite to_polynomial_entries_for by auto.
  unfold b2. rewrite Hco2, Hco1.
  destruct (decide (r = r)) as [_|Hne]; [done|by destruct Hne].
Qed.

(** C1. In a buffer that holds no entry for [r], adding [r] with
    coefficient [a] and then again with coefficient [a'] leaves exactly
    one entry for [r], with coefficient [a + a'], and no entry for [r]
    when [a + a' = 0]; no entry with a zero coefficient is stored, after
    the first addition or after the second. *)
Theorem add_mono_twice_merges (b : rba_buffer_t) (r : pprod) (a a' : Qc)
    (Hwf : wf b) (Hcan : canonical b) (Hfresh : rba_find_node b r = 0%nat) :
  let b1 := rba_buffer_add_mono b a r in
  let b2 := rba_buffer_add_mono b1 a' r in
  filter (λ x, x.1 = r) (to_polynomial b2) =
    (if decide (a + a' = 0) then [] else [(r, a + a')])
  ∧ canonical b1 ∧ canonical b2.
Proof.
  intros b1 b2.
  destruct (rba_buffer_add_mono_twice b r a a' Hwf Hcan) as (_ & Hcan2 & Hf).
  destruct (rba_buffer_add_mono_spec b a r Hwf) as (_ & _ & _ & Hcan1).
  split_and!; [|auto|done].
  unfold b2, b1. rewrite Hf.
  assert (coeff_of b r = 0) as ->.
  { apply coeff_in_absent. by apply rba_find_node_absent. }
  by rewrite Qcplus_0_l.
Qed.

(** C6. On a well-formed buffer: the node that [rba_get_node] returns for
    [p] is the node that [rba_find_node] finds for [p] afterwards; the
    node is new exactly when [rba_find_node] gave 0 before the call; and
    when [p] was present, [rba_get_node] returns the node found before and
    leaves the buffer as it was.  The buffer stays well formed. *)
Theorem get_node_agrees_with_find (b : rba_buffer_t) (p : pprod) (Hwf : wf b) :
  let i := rba_find_node b p in
  let '(b', j, new_node) := rba_get_node b p in
  let k := rba_find_node b' p in
  j = k
  ∧ (new_node = true ↔ i = 0%nat)
  ∧ (i ≠ 0%nat → new_node = false ∧ j = i ∧ b' = b)
  ∧ wf b'.
Proof.
  destruct (rba_get_node b p) as [[b' j] new_node] eqn:Hget. simpl.
  destruct (rba_get_node_spec b p b' j new_node Hwf Hget) as (Hwf' & _ & Hpos & Hcase).
  pose proof (rba_find_node_absent b p Hwf) as Habs.
  unfold rba_find_node in *. rewrite (find_node_inorder (root b')) by apply Hwf'.
  rewrite (find_node_inorder (root b)) in * by apply Hwf.
  destruct (find_entry p (inorder (root b))) as [e|] eqn:Hfind.
  - destruct Hcase as (-> & -> & ->). rewrite Hfind. simpl.
    split_and!; try done. split; [done|]. intros H0. apply Habs in H0. done.
  - destruct Hcase as (-> & Hfresh & Hin & _). rewrite Hin.
    rewrite find_entry_ins_list by (by apply find_entry_None).
    change (key (j, Mono p 0)) with p. rewrite decide_True by done. simpl.
    split_and!; try done.
Qed.

End Buffer.

(** ** Runs over [varexp_pprods] *)

#[local] Existing Instance varexp_pprods.

Definition x_pp : pprod := var_pp 6%Z.
Definition y_pp : pprod := var_pp 8%Z.
Definition buffer0 : rba_buffer_t := init_rba_buffer 1%nat.

(** The buffer 2 + x + 4 y, built in another order. *)
Definition buffer1 : rba_buffer_t :=
  add_monos buffer0 [(Qz 4, y_pp); (Qz 2, empty_pp); (Qz 1, x_pp)].

Example buffer1_polynomial :
  to_polynomial buffer1 = [(empty_pp, Qz 2); (x_pp, Qz 1); (y_pp, Qz 4)]
  ∧ tree_is_well_colored buffer1 = true
  ∧ tree_is_balanced buffer1 = true.
Proof. vm_compute. done. Qed.

Example add_then_cancel :
  to_polynomial (add_monos buffer0 [(Qz 3, empty_pp); (Qz 2, x_pp); (Qz (-2), x_pp)])
  = [(empty_pp, Qz 3)].
Proof. vm_compute. reflexivity. Qed.

Lemma add_mono_twice_merges_witness :
  filter (λ x, x.1 = x_pp)
    (to_polynomial
       (rba_buffer_add_mono (rba_buffer_add_mono buffer0 (Qz 2) x_pp) (Qz 3) x_pp))
  = [(x_pp, Qz 5)].
Proof.
  destruct (add_mono_twice_merges buffer0 x_pp (Qz 2) (Qz 3)) as (H & _).
  - apply wf_init.
  - apply canonical_init.
  - reflexivity.
  - rewrite H. vm_compute. reflexivity.
Defined.

Lemma get_node_agrees_with_find_witness :
  rba_find_node buffer1 x_pp = 3%nat
  ∧ (rba_get_node buffer1 x_pp).1.2 = 3%nat
  ∧ (rba_get_node buffer1 x_pp).1.1 = buffer1.
Proof.
  pose proof (get_node_agrees_with_find buffer1 x_pp) as H.
  destruct (rba_get_node buffer1 x_pp) as [[b' j] new_node] eqn:E.
  destruct H as (_ & _ & H & _).
  - apply add_monos_spec, wf_init.
  - assert (rba_find_node buffer1 x_pp = 3%nat) as Hfind
      by (vm_compute; reflexivity).
    rewrite Hfind in H. destruct H as (_ & -> & ->); [discriminate|].
    rewrite Hfind. done.
Defined.

End RbaBuffer.

(** The red-black buffer as an instance of the primitives. *)
#[export] Instance rba_prims `{PProdTable} : RbaPrims RbaBuffer.rba_buffer_t := {|
  ptbl := RbaBuffer.ptbl;
  init_rba_buffer := RbaBuffer.init_rba_buffer;
  rba_buffer_add_pp := RbaBuffer.rba_buffer_add_pp;
  rba_buffer_sub_pp := RbaBuffer.rba_buffer_sub_pp;
  rba_buffer_mul_pp := RbaBuffer.rba_buffer_mul_pp;
  rba_buffer_add_const := RbaBuffer.rba_buffer_add_const;
  rba_buffer_sub_const := RbaBuffer.rba_buffer_sub_const;
  rba_buffer_mul_const := RbaBuffer.rba_buffer_mul_const;
  rba_buffer_add_monarray := RbaBuffer.rba_buffer_add_monarray;
  rba_buffer_sub_monarray := RbaBuffer.rba_buffer_sub_monarray;
  rba_buffer_mul_monarray := RbaBuffer.rba_buffer_mul_monarray;
  rba_buffer_add_var := RbaBuffer.rba_buffer_add_var;
  rba_buffer_sub_var := RbaBuffer.rba_buffer_sub_var;
  rba_buffer_mul_var := RbaBuffer.rba_buffer_mul_var;
  rba_buffer_add_mono := RbaBuffer.rba_buffer_add_mono;
  rba_buffer_add_const_times_monarray :=
    RbaBuffer.rba_buffer_add_const_times_monarray;
  rba_buffer_add_varmono := RbaBuffer.rba_buffer_add_varmono;
  rba_buffer_mul_monarray_power := RbaBuffer.rba_buffer_mul_monarray_power
|}.

(* ===================================================================== *)
(** * Arithmetic operations involving red-black buffers and terms        *)
(* ===================================================================== *)

Module RbaBufferTerms.
Import BufferStore.
Local Open Scope Qc_scope.

(** [polynomial_t]: the number of terms and the array of monomials. *)
Record polynomial_t : Type := Polynomial {
  poly_nterms : N;
  mono : list monomial_t
}.

(** [pbuffer->data]. *)
Definition pvector_data {P : Type} (s : store P) (v : addr) : outcome (list P) :=
  match live s !! v with
  | Some vec => Done (elems vec)
  | None => Undefined
  end.

(** The buffers on the list of the store are allocated. *)
Definition pool_ok {P : Type} (s : store P) : Prop :=
  ∀ e, e ∈ buffer_list s → is_Some (live s !! e).

(** The term table ([terms/terms.h]) is not part of these sources.  It is
    taken as an interface: the fields [table->pprods] and
    [table->kind[i]], the term encoding ([index_of], [pos_term]), the
    checks of the assertions, the accessors of the descriptors, the
    power product that stands for the variable of a monomial, and
    [pprods_for_poly], which returns a buffer of the store of pointer
    buffers that holds these power products for the monomials of a
    polynomial. *)
Class TermTable `{PProdTable} : Type := {
  term_table_t : Type;
  pprods : term_table_t → ptbl_ref;
  kind : term_table_t → Z → term_kind_t;
  index_of : term_t → Z;
  pos_term : term_t → bool;
  good_term : term_table_t → term_t → bool;
  is_arithmetic_term : term_table_t → term_t → bool;
  pprod_for_idx : term_table_t → Z → pprod;
  rational_for_idx : term_table_t → Z → Qc;
  polynomial_for_idx : term_table_t → Z → polynomial_t;
  pprod_for_term : term_table_t → term_t → pprod;
  pprods_for_poly :
    term_table_t → polynomial_t → store pprod → store pprod * addr;
  pprods_for_poly_spec : ∀ table p s,
    pool_ok s →
    pvector_data (pprods_for_poly table p s).1 (pprods_for_poly table p s).2
    = Done ((λ m, pprod_for_term table (var m)) <$> mono p)
    ∧ pool_ok (free_pbuffer (pprods_for_poly table p s).2
                 (pprods_for_poly table p s).1)
}.

(** ** Rationals in memory

    The rationals ([terms/rationals.h]) are not part of these sources:
    a [rational_t] holds an exact rational, a [Qc] here.  [rational_t]
    objects live at addresses; a local [rational_t q] is an object that
    [q_init] creates and [q_clear] releases. *)
Definition rat_ptr := positive.
Abbreviation rat_heap := (gmap rat_ptr Qc).

Definition q_get (h : rat_heap) (q : rat_ptr) : outcome Qc :=
  match h !! q with
  | Some v => Done v
  | None => Undefined
  end.

Definition q_init (h : rat_heap) : rat_heap * rat_ptr :=
  let q := fresh (dom h) in (<[q := 0]> h, q).

Definition q_set (h : rat_heap) (q a : rat_ptr) : outcome rat_heap :=
  v ← q_get h a; Done (<[q := v]> h).

Definition q_set_one (h : rat_heap) (q : rat_ptr) : rat_heap :=
  <[q := 1]> h.

Definition q_mul (h : rat_heap) (q : rat_ptr) (c : Qc) : outcome rat_heap :=
  v ← q_get h q; Done (<[q := v * c]> h).

Definition q_mulexp (h : rat_heap) (q : rat_ptr) (c : Qc) (d : N)
  : outcome rat_heap :=
  v ← q_get h q; Done (<[q := v * c ^ N.to_nat d]> h).

Definition q_clear (h : rat_heap) (q : rat_ptr) : rat_heap := delete q h.

(** ** The state that the bridge works on: the buffer [*b], the
    thread-local store of pointer buffers, and the rationals in memory. *)
Record world `{PProdTable} (B : Type) : Type := World {
  buf : B;
  pstore : store pprod;
  rats : rat_heap
}.
Arguments World {_ B} _ _ _.
Arguments buf {_ B} _.
Arguments pstore {_ B} _.
Arguments rats {_ B} _.

Definition set_buf `{PProdTable} {B : Type} (w : world B) (b : B) : world B :=
  World b (pstore w) (rats w).

Section Bridge.
Context `{PP : PProdTable} {TT : TermTable} {B : Type} {RP : RbaPrims B}.
Variable NDEBUG : bool.

Definition rba_buffer_add_term (w : world B) (table : term_table_t) (t : term_t)
  : outcome (world B) :=
  _ ← assert NDEBUG (bool_decide (ptbl (buf w) = pprods table));
  _ ← assert NDEBUG (pos_term t && good_term table t && is_arithmetic_term table t);
  let i := index_of t in
  match kind table i with
  | POWER_PRODUCT =>
      Done (set_buf w (rba_buffer_add_pp (buf w) (pprod_for_idx table i)))
  | ARITH_CONSTANT =>
      Done (set_buf w (rba_buffer_add_const (buf w) (rational_for_idx table i)))
  | ARITH_POLY =>
      let p := polynomial_for_idx table i in
      let '(s, pbuffer) := pprods_for_poly table p (pstore w) in
      data ← pvector_data s pbuffer;
      let b := rba_buffer_add_monarray (buf w) (mono p) data in
      Done (World b (free_pbuffer pbuffer s) (rats w))
  | _ =>
      Done (set_buf w (rba_buffer_add_var (buf w) t))
  end.

Definition rba_buffer_sub_term (w : world B) (table : term_table_t) (t : term_t)
  : outcome (world B) :=
  _ ← assert NDEBUG (bool_decide (ptbl (buf w) = pprods table));
  _ ← assert NDEBUG (pos_term t && good_term table t && is_arithmetic_term table t);
  let i := index_of t in
  match kind table i with
  | POWER_PRODUCT =>
      Done (set_buf w (rba_buffer_sub_pp (buf w) (pprod_for_idx table i)))
  | ARITH_CONSTANT =>
      Done (set_buf w (rba_buffer_sub_const (buf w) (rational_for_idx table i)))
  | ARITH_POLY =>
      let p := polynomial_for_idx table i in
      let '(s, pbuffer) := pprods_for_poly table p (pstore w) in
      data ← pvector_data s pbuffer;
      let b := rba_buffer_sub_monarray (buf w) (mono p) data in
      Done (World b (free_pbuffer pbuffer s) (rats w))
  | _ =>
      Done (set_buf w (rba_buffer_sub_var (buf w) t))
  end.

Definition rba_buffer_mul_term (w : world B) (table : term_table_t) (t : term_t)
  : outcome (world B) :=
  _ ← assert NDEBUG (bool_decide (ptbl (buf w) = pprods table));
  _ ← assert NDEBUG (pos_term t && good_term table t && is_arithmetic_term table t);
  let i := index_of t in
  match kind table i with
  | POWER_PRODUCT =>
      Done (set_buf w (rba_buffer_mul_pp (buf w) (pprod_for_idx table i)))
  | ARITH_CONSTANT =>
      Done (set_buf w (rba_buffer_mul_const (buf w) (rational_for_idx table i)))
  | ARITH_POLY =>
      let p := polynomial_for_idx table i in
      let '(s, pbuffer) := pprods_for_poly table p (pstore w) in
      data ← pvector_data s pbuffer;
      let b := rba_buffer_mul_monarray (buf w) (mono p) data in
      Done (World b (free_pbuffer pbuffer s) (rats w))
  | _ =>
      Done (set_buf w (rba_buffer_mul_var (buf w) t))
  end.

Definition rba_buffer_add_const_times_term (w : world B) (table : term_table_t)
    (a : rat_ptr) (t : term_t) : outcome (world B) :=
  _ ← assert NDEBUG (bool_decide (ptbl (buf w) = pprods table));
  _ ← assert NDEBUG (pos_term t && good_term table t && is_arithmetic_term table t);
  let i := index_of t in
  match kind table i with
  | POWER_PRODUCT =>
      va ← q_get (rats w) a;
      Done (set_buf w (rba_buffer_add_mono (buf w) va (pprod_for_idx table i)))
  | ARITH_CONSTANT =>
      let '(h, q) := q_init (rats w) in
      h ← q_set h q a;
      h ← q_mul h q (rational_for_idx table i);
      vq ← q_get h q;
      let b := rba_buffer_add_const (buf w) vq in
      Done (World b (pstore w) (q_clear h q))
  | ARITH_POLY =>
      let p := polynomial_for_idx table i in
      let '(s, pbuffer) := pprods_for_poly table p (pstore w) in
      data ← pvector_data s pbuffer;
      va ← q_get (rats w) a;
      let b := rba_buffer_add_const_times_monarray (buf w) (mono p) data va in
      Done (World b (free_pbuffer pbuffer s) (rats w))
  | _ =>
      va ← q_get (rats w) a;
      Done (set_buf w (rba_buffer_add_varmono (buf w) va t))
  end.

Definition rba_buffer_mul_term_power (w : world B) (table : term_table_t)
    (t : term_t) (d : N) : outcome (world B) :=
  _ ← assert NDEBUG (bool_decide (ptbl (buf w) = pprods table));
  _ ← assert NDEBUG (pos_term t && good_term table t && is_arithmetic_term table t);
  let i := index_of t in
  match kind table i with
  | POWER_PRODUCT =>
      let r := pprod_exp (pprod_for_idx table i) d in
      Done (set_buf w (rba_buffer_mul_pp (buf w) r))
  | ARITH_CONSTANT =>
      let '(h, q) := q_init (rats w) in
      let h := q_set_one h q in
      h ← q_mulexp h q (rational_for_idx table i) d;
      vq ← q_get h q;
      let b := rba_buffer_mul_const (buf w) vq in
      Done (World b (pstore w) (q_clear h q))
  | ARITH_POLY =>
      let p := polynomial_for_idx table i in
      let '(s, pbuffer) := pprods_for_poly table p (pstore w) in
      data ← pvector_data s pbuffer;
      let aux := init_rba_buffer (ptbl (buf w)) in
      let '(b, aux) := rba_buffer_mul_monarray_power (buf w) (mono p) data d aux in
      Done (World b (free_pbuffer pbuffer s) (rats w))
  | _ =>
      let r := pprod_varexp t d in
      Done (set_buf w (rba_buffer_mul_pp (buf w) r))
  end.

End Bridge.

(** ** A buffer that records the primitives applied to it *)

Section Recorder.
Context `{PP : PProdTable}.

Inductive prim_call : Type :=
  | Call_add_pp (r : pprod)
  | Call_sub_pp (r : pprod)
  | Call_mul_pp (r : pprod)
  | Call_add_const (c : Qc)
  | Call_sub_const (c : Qc)
  | Call_mul_const (c : Qc)
  | Call_add_monarray (poly : list monomial_t) (pp : list pprod)
  | Call_sub_monarray (poly : list monomial_t) (pp : list pprod)
  | Call_mul_monarray (poly : list monomial_t) (pp : list pprod)
  | Call_add_var (t : term_t)
  | Call_sub_var (t : term_t)
  | Call_mul_var (t : term_t)
  | Call_add_mono (a : Qc) (r : pprod)
  | Call_add_const_times_monarray (poly : list monomial_t) (pp : list pprod) (a : Qc)
  | Call_add_varmono (a : Qc) (t : term_t)
  | Call_mul_monarray_power (poly : list monomial_t) (pp : list pprod) (d : N).

Record recorder : Type := Recorder {
  rec_ptbl : ptbl_ref;
  calls : list prim_call
}.

Definition record (b : recorder) (c : prim_call) : recorder :=
  Recorder (rec_ptbl b) (calls b ++ [c]).

#[export] Instance recorder_prims : RbaPrims recorder | 10 := {|
  ptbl := rec_ptbl;
  init_rba_buffer tbl := Recorder tbl [];
  rba_buffer_add_pp b r := record b (Call_add_pp r);
  rba_buffer_sub_pp b r := record b (Call_sub_pp r);
  rba_buffer_mul_pp b r := record b (Call_mul_pp r);
  rba_buffer_add_const b c := record b (Call_add_const c);
  rba_buffer_sub_const b c := record b (Call_sub_const c);
  rba_buffer_mul_const b c := record b (Call_mul_const c);
  rba_buffer_add_monarray b poly pp := record b (Call_add_monarray poly pp);
  rba_buffer_sub_monarray b poly pp := record b (Call_sub_monarray poly pp);
  rba_buffer_mul_monarray b poly pp := record b (Call_mul_monarray poly pp);
  rba_buffer_add_var b t := record b (Call_add_var t);
  rba_buffer_sub_var b t := record b (Call_sub_var t);
  rba_buffer_mul_var b t := record b (Call_mul_var t);
  rba_buffer_add_mono b a r := record b (Call_add_mono a r);
  rba_buffer_add_const_times_monarray b poly pp a :=
    record b (Call_add_const_times_monarray poly pp a);
  rba_buffer_add_varmono b a t := record b (Call_add_varmono a t);
  rba_buffer_mul_monarray_power b poly pp d aux :=
    (record b (Call_mul_monarray_power poly pp d), aux)
|}.

End Recorder.

(** ** A small term table, to run the bridge

    Terms are [2 * index]; an index holds a power product, a rational
    constant, a polynomial, or an uninterpreted term. *)
Inductive example_desc `{PProdTable} : Type :=
  | DescPProd (r : pprod)
  | DescRational (c : Qc)
  | DescPoly (p : polynomial_t)
  | DescUninterpreted.

Arguments DescPProd {_} _.
Arguments DescRational {_} _.
Arguments DescPoly {_} _.
Arguments DescUninterpreted {_}.

Record example_table `{PProdTable} : Type := ExampleTable {
  ex_pprods : ptbl_ref;
  ex_desc : gmap Z example_desc
}.
Arguments ExampleTable {_} _ _.
Arguments ex_pprods {_} _.
Arguments ex_desc {_} _.

(** [pprods_for_poly] of the example table: a buffer for [nterms + 1]
    pointers is taken from the store and filled with the power products
    of the variables. *)
Definition example_pprods_for_poly `{PProdTable} (pp_of : term_t → pprod)
    (p : polynomial_t) (s : store pprod) : store pprod * addr :=
  let '(s, v) := alloc_pbuffer (poly_nterms p + 1) s in
  (Store (alter (λ vec, Vector (capacity vec) (pp_of <$> (var <$> mono p)))
                v (live s))
         (buffer_list s), v).

Lemma example_pprods_for_poly_spec `{PProdTable} pp_of p (s : store pprod) :
  pool_ok s →
  pvector_data (example_pprods_for_poly pp_of p s).1
               (example_pprods_for_poly pp_of p s).2
  = Done ((λ m, pp_of (var m)) <$> mono p)
  ∧ pool_ok (free_pbuffer (example_pprods_for_poly pp_of p s).2
               (example_pprods_for_poly pp_of p s).1).
Proof.
  intros Hok.
  unfold example_pprods_for_poly, alloc_pbuffer, alloc_buffer, pvector_data.
  rewrite <- list_fmap_compose.
  destruct (buffer_list s) as [|e rest] eqn:Hl; simpl.
  - rewrite lookup_alter_eq, lookup_insert_eq. simpl. split; [done|].
    intros x [->|Hx]%elem_of_cons; [|by apply elem_of_nil in Hx].
    unfold free_pbuffer, free_buffer. simpl.
    rewrite lookup_alter_eq, lookup_alter_eq, lookup_insert_eq. by eexists.
  - destruct (Hok e) as [vec Hvec]; [rewrite Hl; by left|].
    rewrite !lookup_alter_eq, Hvec. simpl. split; [done|].
    intros x Hx. unfold free_pbuffer, free_buffer in *. simpl in *.
    assert (is_Some (live s !! x)) as [vx Hvx].
    { apply elem_of_cons in Hx as [->|Hx]; [by eexists|].
      apply Hok. rewrite Hl. by right. }
    destruct (decide (x = e)) as [->|Hne].
    + rewrite !lookup_alter_eq, Hvec. by eexists.
    + rewrite !lookup_alter_ne by done. by eexists.
Qed.

Definition example_pprod_for_term `{PProdTable} (tbl : example_table)
    (x : term_t) : pprod :=
  if decide (x = 0%Z) then empty_pp
  else match ex_desc tbl !! Z.shiftr x 1 with
       | Some (DescPProd r) => r
       | _ => var_pp x
       end.

Definition example_terms `{PProdTable} : TermTable := {|
  term_table_t := example_table;
  pprods := ex_pprods;
  kind tbl i :=
    match ex_desc tbl !! i with
    | Some (DescPProd _) => POWER_PRODUCT
    | Some (DescRational _) => ARITH_CONSTANT
    | Some (DescPoly _) => ARITH_POLY
    | Some DescUninterpreted => OTHER_KIND 0
    | None => OTHER_KIND 1
    end;
  index_of t := Z.shiftr t 1;
  pos_term t := Z.even t;
  good_term tbl t := bool_decide (is_Some (ex_desc tbl !! Z.shiftr t 1));
  is_arithmetic_term tbl t := true;
  pprod_for_idx tbl i :=
    match ex_desc tbl !! i with Some (DescPProd r) => r | _ => empty_pp end;
  rational_for_idx tbl i :=
    match ex_desc tbl !! i with Some (DescRational c) => c | _ => 0 end;
  polynomial_for_idx tbl i :=
    match ex_desc tbl !! i with Some (DescPoly p) => p | _ => Polynomial 0 [] end;
  pprod_for_term := example_pprod_for_term;
  pprods_for_poly tbl := example_pprods_for_poly (example_pprod_for_term tbl);
  pprods_for_poly_spec tbl :=
    example_pprods_for_poly_spec (example_pprod_for_term tbl)
|}.
(** ** Facts on the store of pointer buffers and on the rationals *)

Section BridgeFacts.
Context `{PP : PProdTable} {TT : TermTable}.

(** The preconditions that the assertions of the bridge check. *)
Definition asserts_hold (b_ptbl : ptbl_ref) (table : term_table_t) (t : term_t)
  : Prop :=
  b_ptbl = pprods table
  ∧ pos_term t = true ∧ good_term table t = true
  ∧ is_arithmetic_term table t = true.

Definition poly_pprods (table : term_table_t) (p : polynomial_t) : list pprod :=
  (λ m, pprod_for_term table (var m)) <$> mono p.

Lemma pool_ok_empty {P : Type} : pool_ok (Store (∅ : gmap addr (vector P)) []).
Proof. intros e He. by apply elem_of_nil in He. Qed.

Lemma pprods_for_poly_data table p s0 s v :
  pool_ok s0 → pprods_for_poly table p s0 = (s, v) →
  pvector_data s v = Done (poly_pprods table p) ∧ pool_ok (free_pbuffer v s).
Proof.
  intros Hok E. pose proof (pprods_for_poly_spec table p s0 Hok) as H.
  by rewrite E in H.
Qed.

Lemma assert_holds NDEBUG b_ptbl table t :
  asserts_hold b_ptbl table t →
  assert NDEBUG (bool_decide (b_ptbl = pprods table)) = Done ()
  ∧ assert NDEBUG (pos_term t && good_term table t && is_arithmetic_term table t)
    = Done ().
Proof.
  intros (Hp & H1 & H2 & H3). split; apply assert_true.
  - by apply bool_decide_eq_true.
  - by rewrite H1, H2, H3.
Qed.

Lemma q_clear_init (h : rat_heap) (v : Qc) :
  q_clear (<[(q_init h).2 := v]> (q_init h).1) (q_init h).2 = h.
Proof.
  unfold q_clear, q_init. simpl.
  rewrite insert_insert_eq, delete_insert_eq. apply delete_id.
  apply not_elem_of_dom, is_fresh.
Qed.

Lemma q_init_fresh (h : rat_heap) a :
  is_Some (h !! a) → a ≠ (q_init h).2.
Proof.
  intros [v Hv] ->. unfold q_init in Hv. simpl in Hv.
  pose proof (is_fresh (dom h)) as Hf. apply not_elem_of_dom in Hf. congruence.
Qed.

End BridgeFacts.

(** ** Dispatch *)

Section Dispatch.
Context `{PP : PProdTable} {TT : TermTable}.

Ltac run_bridge Hpool :=
  simpl;
  match goal with
  | |- context [pprods_for_poly ?table ?p ?s] =>
      let s' := fresh "s" in
      let v := fresh "v" in
      let E := fresh "E" in
      destruct (pprods_for_poly table p s) as [s' v] eqn:E;
      destruct (pprods_for_poly_data table p s s' v Hpool E) as [-> _]; simpl
  | _ => idtac
  end;
  try (eexists; split; [reflexivity|reflexivity]).

(** C4. For a term that meets the preconditions, each entry point of the
    bridge applies exactly one primitive to the buffer, chosen by the kind
    of the term alone: the power-product primitive for a [POWER_PRODUCT],
    the constant primitive for an [ARITH_CONSTANT], the monomial-array
    primitive for an [ARITH_POLY], and the variable primitive for every
    other kind.  The buffer here records the primitives applied to it. *)
Theorem bridge_dispatches_one_primitive (NDEBUG : bool) (w : world recorder)
    (table : term_table_t) (t : term_t)
    (Hpre : asserts_hold (ptbl (buf w)) table t)
    (Hpool : pool_ok (pstore w)) :
  let i := index_of t in
  let p := polynomial_for_idx table i in
  let pp := poly_pprods table p in
  (∃ w', rba_buffer_add_term NDEBUG w table t = Done w'
     ∧ calls (buf w') = calls (buf w) ++
         [match kind table i with
          | POWER_PRODUCT => Call_add_pp (pprod_for_idx table i)
          | ARITH_CONSTANT => Call_add_const (rational_for_idx table i)
          | ARITH_POLY => Call_add_monarray (mono p) pp
          | _ => Call_add_var t
          end])
  ∧ (∃ w', rba_buffer_sub_term NDEBUG w table t = Done w'
     ∧ calls (buf w') = calls (buf w) ++
         [match kind table i with
          | POWER_PRODUCT => Call_sub_pp (pprod_for_idx table i)
          | ARITH_CONSTANT => Call_sub_const (rational_for_idx table i)
          | ARITH_POLY => Call_sub_monarray (mono p) pp
          | _ => Call_sub_var t
          end])
  ∧ (∃ w', rba_buffer_mul_term NDEBUG w table t = Done w'
     ∧ calls (buf w') = calls (buf w) ++
         [match kind table i with
          | POWER_PRODUCT => Call_mul_pp (pprod_for_idx table i)
          | ARITH_CONSTANT => Call_mul_const (rational_for_idx table i)
          | ARITH_POLY => Call_mul_monarray (mono p) pp
          | _ => Call_mul_var t
          end])
  ∧ (∀ a va, rats w !! a = Some va →
     ∃ w', rba_buffer_add_const_times_term NDEBUG w table a t = Done w'
     ∧ calls (buf w') = calls (buf w) ++
         [match kind table i with
          | POWER_PRODUCT => Call_add_mono va (pprod_for_idx table i)
          | ARITH_CONSTANT => Call_add_const (va * rational_for_idx table i)
          | ARITH_POLY => Call_add_const_times_monarray (mono p) pp va
          | _ => Call_add_varmono va t
          end])
  ∧ (∀ d,
     ∃ w', rba_buffer_mul_term_power NDEBUG w table t d = Done w'
     ∧ calls (buf w') = calls (buf w) ++
         [match kind table i with
          | POWER_PRODUCT => Call_mul_pp (pprod_exp (pprod_for_idx table i) d)
          | ARITH_CONSTANT =>
              Call_mul_const (1 * rational_for_idx table i ^ N.to_nat d)
          | ARITH_POLY => Call_mul_monarray_power (mono p) pp d
          | _ => Call_mul_pp (pprod_varexp t d)
          end]).
Proof.
  intros i p pp. destruct (assert_holds NDEBUG _ _ _ Hpre) as [A1 A2].
  split_and!.
  - unfold rba_buffer_add_term. rewrite A1, A2.
    fold i. destruct (kind table i); run_bridge Hpool.
  - unfold rba_buffer_sub_term. rewrite A1, A2.
    fold i. destruct (kind table i); run_bridge Hpool.
  - unfold rba_buffer_mul_term. rewrite A1, A2.
    fold i. destruct (kind table i); run_bridge Hpool.
  - intros a va Ha. unfold rba_buffer_add_const_times_term. rewrite A1, A2.
    assert (a ≠ (q_init (rats w)).2) as Hne by (apply q_init_fresh; eauto).
    fold i. unfold q_set, q_mul, q_get.
    destruct (kind table i); simpl; rewrite ?Ha; run_bridge Hpool.
    rewrite lookup_insert_ne, Ha by (by apply not_eq_sym). simpl.
    rewrite lookup_insert_eq. simpl. rewrite lookup_insert_eq. simpl.
    eexists. split; reflexivity.
  - intros d. unfold rba_buffer_mul_term_power. rewrite A1, A2.
    fold i. unfold q_mulexp, q_set_one, q_get.
    destruct (kind table i); run_bridge Hpool.
    rewrite lookup_insert_eq. simpl. rewrite lookup_insert_eq. simpl.
    eexists. split; reflexivity.
Qed.

End Dispatch.

(** ** Assertions and the order reference; the coefficient [a] *)

Section AnyBuffer.
Context `{PP : PProdTable} {TT : TermTable} {B : Type} {RP : RbaPrims B}.

Lemma assert_mismatch (b_ptbl : ptbl_ref) (table : term_table_t) :
  b_ptbl ≠ pprods table →
  assert false (bool_decide (b_ptbl = pprods table)) = AssertFailed.
Proof. intros Hne. unfold assert. by rewrite bool_decide_eq_false_2. Qed.

Lemma assert_NDEBUG c : assert true c = Done ().
Proof. done. Qed.

(** C3, amended. The equality of the buffer's power-product table and
    the term table's is checked by an assertion, the first statement of
    every entry point: when assertions are compiled in, a mismatch stops
    the call (and the program) there, before any primitive is applied to
    the buffer.  When [NDEBUG] is defined nothing is checked: no entry
    point stops at an assertion. *)
Theorem order_mismatch_stops_at_assertion (w : world B)
    (table : term_table_t) (t : term_t) (a : rat_ptr) (d : N)
    (Hmismatch : ptbl (buf w) ≠ pprods table) :
  (rba_buffer_add_term false w table t = AssertFailed
   ∧ rba_buffer_sub_term false w table t = AssertFailed
   ∧ rba_buffer_mul_term false w table t = AssertFailed
   ∧ rba_buffer_add_const_times_term false w table a t = AssertFailed
   ∧ rba_buffer_mul_term_power false w table t d = AssertFailed)
  ∧ (rba_buffer_add_term true w table t ≠ AssertFailed
     ∧ rba_buffer_sub_term true w table t ≠ AssertFailed
     ∧ rba_buffer_mul_term true w table t ≠ AssertFailed
     ∧ rba_buffer_add_const_times_term true w table a t ≠ AssertFailed
     ∧ rba_buffer_mul_term_power true w table t d ≠ AssertFailed).
Proof.
  split.
  - unfold rba_buffer_add_term, rba_buffer_sub_term, rba_buffer_mul_term,
      rba_buffer_add_const_times_term, rba_buffer_mul_term_power.
    rewrite !(assert_mismatch _ _ Hmismatch). done.
  - unfold rba_buffer_add_term, rba_buffer_sub_term, rba_buffer_mul_term,
      rba_buffer_add_const_times_term, rba_buffer_mul_term_power.
    rewrite !assert_NDEBUG. simpl.
    unfold q_set, q_mul, q_mulexp, q_get, pvector_data.
    split_and!; destruct (kind table (index_of t)); simpl; try done;
      repeat (case_match; simpl; try done).
Qed.

Lemma q_clear_fresh (h : rat_heap) (v1 v2 v3 : Qc) :
  let q := fresh (dom h) in
  q_clear (<[q := v3]> (<[q := v2]> (<[q := v1]> h))) q = h.
Proof.
  intros q. unfold q_clear.
  rewrite !insert_insert_eq, delete_insert_eq. apply delete_id.
  apply not_elem_of_dom, is_fresh.
Qed.

(** C10. [rba_buffer_add_const_times_term] leaves the rational that [a]
    points to as it was: whenever the call returns, the rationals in
    memory are those of before the call (the local [q] of the constant
    case is created and released by the call). *)
Theorem add_const_times_term_keeps_a (NDEBUG : bool) (w w' : world B)
    (table : term_table_t) (a : rat_ptr) (t : term_t)
    (Hret : rba_buffer_add_const_times_term NDEBUG w table a t = Done w') :
  rats w' !! a = rats w !! a ∧ rats w' = rats w.
Proof.
  assert (rats w' = rats w) as Heq; [|by rewrite Heq].
  unfold rba_buffer_add_const_times_term in Hret.
  repeat match type of Hret with
    | context [assert NDEBUG ?c] =>
        destruct (assert NDEBUG c); simpl in Hret; try done
    end.
  unfold q_set, q_mul, q_get in Hret.
  destruct (kind table (index_of t)); simpl in Hret;
    try (destruct (rats w !! a); simpl in Hret; [|done];
         by injection Hret as <-).
  - (* ARITH_CONSTANT *)
    destruct (<[fresh (dom (rats w)) := 0]> (rats w) !! a) as [va|];
      simpl in Hret; [|done].
    rewrite lookup_insert_eq in Hret. simpl in Hret.
    rewrite lookup_insert_eq in Hret. simpl in Hret.
    injection Hret as <-. simpl. apply q_clear_fresh.
  - (* ARITH_POLY *)
    destruct (pprods_for_poly _ _ _) as [s v]. simpl in Hret.
    destruct (pvector_data s v); simpl in Hret; try done.
    destruct (rats w !! a); simpl in Hret; [|done].
    by injection Hret as <-.
Qed.

End AnyBuffer.

(** ** Multiplying by a power with exponent 0 *)

Section RealBuffer.
Context `{PP : PProdTable} {TT : TermTable}.

(** C5. For a term of any of the four shapes that meets the
    preconditions, [rba_buffer_mul_term_power] with [d = 0] returns and
    leaves the buffer as it was (the power is the constant 1). *)
Theorem mul_term_power_zero_is_noop (NDEBUG : bool)
    (w : world RbaBuffer.rba_buffer_t) (table : term_table_t) (t : term_t)
    (Hpre : asserts_hold (ptbl (buf w)) table t)
    (Hpool : pool_ok (pstore w)) :
  ∃ w', rba_buffer_mul_term_power NDEBUG w table t 0 = Done w'
        ∧ buf w' = buf w
        ∧ RbaBuffer.to_polynomial (buf w') = RbaBuffer.to_polynomial (buf w).
Proof.
  assert (∀ b : RbaBuffer.rba_buffer_t, RbaBuffer.rba_buffer_mul_pp b empty_pp = b)
    as Hpp.
  { intros b. unfold RbaBuffer.rba_buffer_mul_pp. by rewrite decide_True. }
  assert (∀ b : RbaBuffer.rba_buffer_t, RbaBuffer.rba_buffer_mul_const b 1 = b)
    as Hone.
  { intros b. unfold RbaBuffer.rba_buffer_mul_const. by rewrite decide_True. }
  destruct (assert_holds NDEBUG _ _ _ Hpre) as [A1 A2].
  unfold rba_buffer_mul_term_power. rewrite A1, A2. simpl.
  unfold q_mulexp, q_set_one, q_get.
  destruct (kind table (index_of t)); simpl;
    try (rewrite Hpp; eexists; split_and!; reflexivity).
  - rewrite lookup_insert_eq. simpl. rewrite lookup_insert_eq. simpl.
    rewrite Qcmult_1_l, Hone. eexists. split_and!; reflexivity.
  - destruct (pprods_for_poly table _ (pstore w)) as [s v] eqn:E.
    destruct (pprods_for_poly_data table _ _ s v Hpool E) as [-> _]. simpl.
    eexists. split_and!; reflexivity.
Qed.

End RealBuffer.

(** ** Sequences of calls *)

(** A call of one of the five entry points. *)
Inductive bridge_op : Type :=
  | Op_add (t : term_t)
  | Op_sub (t : term_t)
  | Op_mul (t : term_t)
  | Op_add_const_times (a : rat_ptr) (t : term_t)
  | Op_mul_power (t : term_t) (d : N).

Definition op_term (op : bridge_op) : term_t :=
  match op with
  | Op_add t | Op_sub t | Op_mul t | Op_add_const_times _ t | Op_mul_power t _ => t
  end.

(** The operations that add to the buffer: add, subtract, scaled add. *)
Definition additive (op : bridge_op) : bool :=
  match op with
  | Op_add _ | Op_sub _ | Op_add_const_times _ _ => true
  | Op_mul _ | Op_mul_power _ _ => false
  end.

Section Runs.
Context `{PP : PProdTable} {TT : TermTable} {B : Type} {RP : RbaPrims B}.
Variable NDEBUG : bool.

Definition run_op (table : term_table_t) (w : world B) (op : bridge_op)
  : outcome (world B) :=
  match op with
  | Op_add t => rba_buffer_add_term NDEBUG w table t
  | Op_sub t => rba_buffer_sub_term NDEBUG w table t
  | Op_mul t => rba_buffer_mul_term NDEBUG w table t
  | Op_add_const_times a t => rba_buffer_add_const_times_term NDEBUG w table a t
  | Op_mul_power t d => rba_buffer_mul_term_power NDEBUG w table t d
  end.

(** The calls of [ops], one after the other, on the same buffer. *)
Fixpoint run_ops (table : term_table_t) (w : world B) (ops : list bridge_op)
  : outcome (world B) :=
  match ops with
  | [] => Done w
  | op :: ops => w' ← run_op table w op; run_ops table w' ops
  end.

End Runs.

Section Commute.
Context `{PP : PProdTable} {TT : TermTable}.
Local Open Scope Qc_scope.

(** The monomials that a call adds to the buffer: [a] is the factor of a
    power product, [k] gives the constant added for a rational term. *)
Definition term_monos (table : term_table_t) (a : Qc) (k : Qc → Qc) (t : term_t)
  : list (Qc * pprod) :=
  let i := index_of t in
  match kind table i with
  | POWER_PRODUCT => [(a, pprod_for_idx table i)]
  | ARITH_CONSTANT => [(k (rational_for_idx table i), empty_pp)]
  | ARITH_POLY =>
      let p := polynomial_for_idx table i in
      RbaBuffer.scaled a (mono p) (poly_pprods table p)
  | _ => [(a, var_pp t)]
  end.

Definition op_monos (table : term_table_t) (h : rat_heap) (op : bridge_op)
  : list (Qc * pprod) :=
  match op with
  | Op_add t => term_monos table 1 id t
  | Op_sub t => term_monos table (- 1) Qcopp t
  | Op_add_const_times a t =>
      let va := default 0 (h !! a) in term_monos table va (Qcmult va) t
  | Op_mul _ | Op_mul_power _ _ => []
  end.

(** What an additive call requires: the preconditions of the entry
    point, and an allocated rational for the coefficient. *)
Definition op_ok (table : term_table_t) (tbl : ptbl_ref) (h : rat_heap)
    (op : bridge_op) : Prop :=
  additive op = true
  ∧ asserts_hold tbl table (op_term op)
  ∧ match op with
    | Op_add_const_times a _ => is_Some (h !! a)
    | _ => True
    end.

Lemma delta_perm (ms1 ms2 : list (Qc * pprod)) r :
  ms1 ≡ₚ ms2 → RbaBuffer.delta ms1 r = RbaBuffer.delta ms2 r.
Proof.
  induction 1 as [|x l l' _ IH|x y l|l l' l'' _ IH1 _ IH2]; simpl.
  - done.
  - by rewrite IH.
  - ring.
  - by rewrite IH1.
Qed.

Lemma add_monos_step (b : RbaBuffer.rba_buffer_t) s h ms
    (w' : world RbaBuffer.rba_buffer_t) :
  RbaBuffer.wf b → pool_ok s →
  w' = World (RbaBuffer.add_monos b ms) s h →
  RbaBuffer.wf (buf w') ∧ pool_ok (pstore w') ∧ rats w' = h
  ∧ RbaBuffer.ptbl (buf w') = RbaBuffer.ptbl b
  ∧ (∀ r, RbaBuffer.coeff_of (buf w') r
          = RbaBuffer.coeff_of b r + RbaBuffer.delta ms r)
  ∧ (RbaBuffer.canonical b → RbaBuffer.canonical (buf w')).
Proof.
  intros Hwf Hpool ->. simpl.
  destruct (RbaBuffer.add_monos_spec b ms Hwf) as (H1 & H2 & H3 & H4).
  by split_and!.
Qed.

Lemma run_additive_op NDEBUG table (w : world RbaBuffer.rba_buffer_t) op :
  RbaBuffer.wf (buf w) → pool_ok (pstore w) →
  op_ok table (RbaBuffer.ptbl (buf w)) (rats w) op →
  ∃ w', run_op NDEBUG table w op = Done w'
    ∧ RbaBuffer.wf (buf w') ∧ pool_ok (pstore w') ∧ rats w' = rats w
    ∧ RbaBuffer.ptbl (buf w') = RbaBuffer.ptbl (buf w)
    ∧ (∀ r, RbaBuffer.coeff_of (buf w') r
            = RbaBuffer.coeff_of (buf w) r
              + RbaBuffer.delta (op_monos table (rats w) op) r)
    ∧ (RbaBuffer.canonical (buf w) → RbaBuffer.canonical (buf w')).
Proof.
  intros Hwf Hpool (Hadd & Hpre & Ha).
  destruct (assert_holds NDEBUG _ _ _ Hpre) as [A1 A2].
  destruct op as [t|t|t|a t|t d]; try done; simpl in *.
  - unfold rba_buffer_add_term, term_monos. simpl. rewrite A1, A2. simpl.
    destruct (kind table (index_of t));
      try (eexists; split; [reflexivity|];
           by apply (add_monos_step (buf w) (pstore w) (rats w) [_])).
    destruct (pprods_for_poly table _ (pstore w)) as [s v] eqn:E.
    destruct (pprods_for_poly_data table _ _ s v Hpool E) as [-> Hpool']. simpl.
    eexists; split; [reflexivity|]. by eapply (add_monos_step (buf w)).
  - unfold rba_buffer_sub_term, term_monos. simpl. rewrite A1, A2. simpl.
    destruct (kind table (index_of t));
      try (eexists; split; [reflexivity|];
           by apply (add_monos_step (buf w) (pstore w) (rats w) [_])).
    destruct (pprods_for_poly table _ (pstore w)) as [s v] eqn:E.
    destruct (pprods_for_poly_data table _ _ s v Hpool E) as [-> Hpool']. simpl.
    eexists; split; [reflexivity|]. by eapply (add_monos_step (buf w)).
  - destruct Ha as [va Hva].
    unfold rba_buffer_add_const_times_term, term_monos. simpl.
    rewrite A1, A2. simpl. unfold q_set, q_mul, q_get. rewrite Hva.
    destruct (kind table (index_of t));
      try (eexists; split; [reflexivity|];
           by apply (add_monos_step (buf w) (pstore w) (rats w) [_])).
    + assert (fresh (dom (rats w)) ≠ a) as Hne.
      { apply not_eq_sym, (q_init_fresh (rats w)). by eexists. }
      unfold q_init. cbn -[RbaBuffer.delta].
      rewrite lookup_insert_ne, Hva by done. cbn -[RbaBuffer.delta].
      rewrite lookup_insert_eq. cbn -[RbaBuffer.delta].
      rewrite lookup_insert_eq. cbn -[RbaBuffer.delta].
      rewrite q_clear_fresh.
      eexists; split; [reflexivity|].
      by apply (add_monos_step (buf w) (pstore w) (rats w) [_]).
    + cbn -[RbaBuffer.delta].
      destruct (pprods_for_poly table _ (pstore w)) as [s v] eqn:E.
      destruct (pprods_for_poly_data table _ _ s v Hpool E) as [-> Hpool'].
      cbn -[RbaBuffer.delta].
      eexists; split; [reflexivity|]. by eapply (add_monos_step (buf w)).
Qed.

Lemma run_additive_ops NDEBUG table ops :
  ∀ w : world RbaBuffer.rba_buffer_t,
  RbaBuffer.wf (buf w) → pool_ok (pstore w) →
  Forall (op_ok table (RbaBuffer.ptbl (buf w)) (rats w)) ops →
  ∃ w', run_ops NDEBUG table w ops = Done w'
    ∧ RbaBuffer.wf (buf w')
    ∧ (∀ r, RbaBuffer.coeff_of (buf w') r
            = RbaBuffer.coeff_of (buf w) r
              + RbaBuffer.delta (ops ≫= op_monos table (rats w)) r)
    ∧ (RbaBuffer.canonical (buf w) → RbaBuffer.canonical (buf w')).
Proof.
  induction ops as [|op ops IH]; intros w Hwf Hpool Hok.
  - exists w. split_and!; try done. intros r. simpl. by rewrite Qcplus_0_r.
  - apply Forall_cons in Hok as [Hop Hok].
    destruct (run_additive_op NDEBUG table w op Hwf Hpool Hop)
      as (w1 & Hrun & Hwf1 & Hpool1 & Hrats & Hptbl & Hco1 & Hcan1).
    destruct (IH w1 Hwf1 Hpool1) as (w' & Hrun' & Hwf' & Hco' & Hcan').
    { by rewrite Hptbl, Hrats. }
    exists w'. simpl. rewrite Hrun. simpl. split_and!; [done..| |auto].
    intros r. rewrite Hco', Hco1, Hrats, RbaBuffer.delta_app.
    apply eq_sym, Qcplus_assoc.
Qed.

(** C2, amended. The canonical output does not depend on the order of
    additive operations: two runs of the same additions, subtractions and
    scaled additions of terms, in any two orders, from the same
    well-formed buffer, both return and give the same polynomial. *)
Theorem additive_operations_commute (NDEBUG : bool) (table : term_table_t)
    (w : world RbaBuffer.rba_buffer_t) (ops1 ops2 : list bridge_op)
    (Hwf : RbaBuffer.wf (buf w)) (Hcan : RbaBuffer.canonical (buf w))
    (Hpool : pool_ok (pstore w))
    (Hok : Forall (op_ok table (RbaBuffer.ptbl (buf w)) (rats w)) ops1)
    (Hperm : ops1 ≡ₚ ops2) :
  ∃ w1 w2,
    run_ops NDEBUG table w ops1 = Done w1
    ∧ run_ops NDEBUG table w ops2 = Done w2
    ∧ RbaBuffer.to_polynomial (buf w1) = RbaBuffer.to_polynomial (buf w2).
Proof.
  assert (Forall (op_ok table (RbaBuffer.ptbl (buf w)) (rats w)) ops2) as Hok2.
  { by rewrite <- Hperm. }
  destruct (run_additive_ops NDEBUG table ops1 w Hwf Hpool Hok)
    as (w1 & Hrun1 & Hwf1 & Hco1 & Hcan1).
  destruct (run_additive_ops NDEBUG table ops2 w Hwf Hpool Hok2)
    as (w2 & Hrun2 & Hwf2 & Hco2 & Hcan2).
  exists w1, w2. split_and!; [done..|].
  apply RbaBuffer.canonical_output_ext; auto.
  intros r. rewrite Hco1, Hco2. f_equal.
  apply delta_perm. by rewrite Hperm.
Qed.

End Commute.

(** ** Runs on a small term table *)

#[local] Existing Instance varexp_pprods.
#[local] Existing Instance example_terms.

(** The table of the runs, over [varexp_pprods]: the terms
    2 = [3], 4 = [2], 6 = an uninterpreted term [x], 8 = an uninterpreted
    term [y], 10 = [x * y], 12 = [1 + 2 x + 3 y]. *)
Definition table1 : example_table :=
  ExampleTable 1%nat
    (<[1%Z := DescRational (Qz 3)]>
    (<[2%Z := DescRational (Qz 2)]>
    (<[3%Z := DescUninterpreted]>
    (<[4%Z := DescUninterpreted]>
    (<[5%Z := DescPProd (pprod_mul (var_pp 6%Z) (var_pp 8%Z))]>
    (<[6%Z := DescPoly (Polynomial 3 [Monomial 0%Z (Qz 1); Monomial 6%Z (Qz 2);
                                     Monomial 8%Z (Qz 3)])]> ∅)))))).

Definition world1 : world RbaBuffer.rba_buffer_t :=
  World (RbaBuffer.init_rba_buffer 1%nat) (Store ∅ []) ∅.

(** A buffer over another power-product table than [table1]'s. *)
Definition world0 : world RbaBuffer.rba_buffer_t :=
  World (RbaBuffer.init_rba_buffer 0%nat) (Store ∅ []) ∅.

(** The buffer 2 x, and the rational 7 at address 5. *)
Definition world2 : world RbaBuffer.rba_buffer_t :=
  World (RbaBuffer.rba_buffer_add_mono (RbaBuffer.init_rba_buffer 1%nat)
           (Qz 2) (var_pp 6%Z))
        (Store ∅ []) {[ 5%positive := Qz 7 ]}.

Definition rec_world1 : world recorder :=
  World (Recorder 1%nat []) (Store ∅ []) {[ 5%positive := Qz 7 ]}.

Definition polynomial_of (r : outcome (world RbaBuffer.rba_buffer_t))
  : outcome (list (pprod * Qc)) :=
  (λ w, RbaBuffer.to_polynomial (buf w)) <$> r.

Lemma table1_asserts_hold (t : term_t) :
  t ∈ [2; 4; 6; 8; 10; 12]%Z → asserts_hold 1%nat table1 t.
Proof.
  intros Ht. repeat (apply elem_of_cons in Ht as [->|Ht]; [by vm_compute|]).
  by apply elem_of_nil in Ht.
Qed.

(** The terms of [table1], added in two orders. *)
Example add_terms_in_two_orders :
  polynomial_of
    (run_ops false table1 world1 [Op_add 12; Op_add 10; Op_sub 4]%Z)
  = Done [(empty_pp, Qz (-1)); (var_pp 6%Z, Qz 2); (var_pp 8%Z, Qz 3);
          (pprod_mul (var_pp 6%Z) (var_pp 8%Z), Qz 1)]
  ∧ polynomial_of
      (run_ops false table1 world1 [Op_sub 4; Op_add 10; Op_add 12]%Z)
    = polynomial_of
        (run_ops false table1 world1 [Op_add 12; Op_add 10; Op_sub 4]%Z).
Proof. split; vm_compute; reflexivity. Qed.

(** (x + 1)^2 = 1 + 2 x + x^2, and the multiplication by 0. *)
Example square_of_a_polynomial :
  RbaBuffer.to_polynomial
    (RbaBuffer.rba_buffer_mul_monarray_power
       (RbaBuffer.rba_buffer_add_const (RbaBuffer.init_rba_buffer 1%nat) (Qz 1))
       [Monomial 0%Z (Qz 1); Monomial 6%Z (Qz 1)] [empty_pp; var_pp 6%Z] 2
       (RbaBuffer.init_rba_buffer 1%nat)).1
  = [(empty_pp, Qz 1); (var_pp 6%Z, Qz 2);
     (pprod_mul (var_pp 6%Z) (var_pp 6%Z), Qz 1)]
  ∧ RbaBuffer.to_polynomial
      (RbaBuffer.rba_buffer_mul_const (buf world2) (Qz 0)) = [].
Proof. split; vm_compute; reflexivity. Qed.

Lemma bridge_dispatches_one_primitive_witness :
  (∃ w', rba_buffer_add_term false rec_world1 table1 12%Z = Done w'
     ∧ calls (buf w')
       = [Call_add_monarray
            [Monomial 0%Z (Qz 1); Monomial 6%Z (Qz 2); Monomial 8%Z (Qz 3)]
            [empty_pp; var_pp 6%Z; var_pp 8%Z]])
  ∧ (∃ w', rba_buffer_sub_term false rec_world1 table1 12%Z = Done w'
     ∧ calls (buf w')
       = [Call_sub_monarray
            [Monomial 0%Z (Qz 1); Monomial 6%Z (Qz 2); Monomial 8%Z (Qz 3)]
            [empty_pp; var_pp 6%Z; var_pp 8%Z]]).
Proof.
  destruct (bridge_dispatches_one_primitive (TT := example_terms) false
              rec_world1 table1 12%Z)
    as (Hadd & Hsub & _).
  - apply table1_asserts_hold. vm_compute. set_solver.
  - apply pool_ok_empty.
  - split; [exact Hadd|exact Hsub].
Defined.

(** C3, as stated, fails: with [NDEBUG] defined, a buffer whose
    power-product table is not the term table's is not rejected; the
    call returns and the buffer has been changed. *)
Lemma order_mismatch_unchecked_with_NDEBUG :
  ptbl (buf world0) ≠ pprods table1
  ∧ polynomial_of (Done world0) = Done []
  ∧ polynomial_of (rba_buffer_add_term true world0 table1 2%Z)
    = Done [(empty_pp, Qz 3)].
Proof. split_and!; [vm_compute; lia|vm_compute; reflexivity..]. Qed.

Lemma order_mismatch_stops_at_assertion_witness :
  rba_buffer_add_term false world0 table1 2%Z = AssertFailed
  ∧ rba_buffer_mul_term_power false world0 table1 2%Z 3 = AssertFailed
  ∧ rba_buffer_add_term true world0 table1 2%Z ≠ AssertFailed.
Proof.
  destruct (order_mismatch_stops_at_assertion (TT := example_terms) world0
              table1 2%Z 5%positive 3)
    as [(H1 & _ & _ & _ & H5) (H6 & _)].
  - vm_compute. lia.
  - by split_and!.
Defined.

(** The world after the scaled addition of the constant 3 to [world2]. *)
Definition world3 : world RbaBuffer.rba_buffer_t :=
  match rba_buffer_add_const_times_term false world2 table1 5%positive 2%Z with
  | Done w => w
  | _ => world2
  end.

Lemma add_const_times_term_keeps_a_witness :
  rba_buffer_add_const_times_term false world2 table1 5%positive 2%Z
  = Done world3
  ∧ rats world3 !! 5%positive = Some (Qz 7)
  ∧ RbaBuffer.to_polynomial (buf world3)
    = [(empty_pp, Qz 21); (var_pp 6%Z, Qz 2)].
Proof.
  assert (rba_buffer_add_const_times_term false world2 table1 5%positive 2%Z
          = Done world3) as E by reflexivity.
  split_and!; [exact E| |vm_compute; reflexivity].
  destruct (add_const_times_term_keeps_a (TT := example_terms) false world2
              world3 table1 5%positive 2%Z E) as [H _].
  etrans; [exact H|reflexivity].
Defined.

Lemma mul_term_power_zero_is_noop_witness :
  ∃ w', rba_buffer_mul_term_power false world2 table1 12%Z 0 = Done w'
    ∧ buf w' = buf world2
    ∧ RbaBuffer.to_polynomial (buf w') = [(var_pp 6%Z, Qz 2)].
Proof.
  destruct (mul_term_power_zero_is_noop (TT := example_terms) false world2 table1 12%Z)
    as (w' & E & Hb & Hp).
  - apply table1_asserts_hold. vm_compute. set_solver.
  - apply pool_ok_empty.
  - exists w'. split_and!; [done..|]. rewrite Hp. vm_compute. reflexivity.
Defined.

(** C2, as stated, fails: the operations are not all additions.  Adding
    the constant 3 and multiplying by the constant 2, in the two orders,
    from the empty buffer: 6 one way, 3 the other. *)
Lemma add_and_multiply_do_not_commute :
  [Op_add 2%Z; Op_mul 4%Z] ≡ₚ [Op_mul 4%Z; Op_add 2%Z]
  ∧ polynomial_of (run_ops false table1 world1 [Op_add 2%Z; Op_mul 4%Z])
    = Done [(empty_pp, Qz 6)]
  ∧ polynomial_of (run_ops false table1 world1 [Op_mul 4%Z; Op_add 2%Z])
    = Done [(empty_pp, Qz 3)].
Proof. split_and!; [apply perm_swap|vm_compute; reflexivity..]. Qed.

Lemma additive_operations_commute_witness :
  ∃ w1 w2,
    run_ops false table1 world2
      [Op_add 12%Z; Op_sub 10%Z; Op_add_const_times 5%positive 6%Z] = Done w1
    ∧ run_ops false table1 world2
        [Op_add_const_times 5%positive 6%Z; Op_sub 10%Z; Op_add 12%Z] = Done w2
    ∧ RbaBuffer.to_polynomial (buf w1) = RbaBuffer.to_polynomial (buf w2).
Proof.
  apply (additive_operations_commute (TT := example_terms) false table1 world2).
  - apply RbaBuffer.rba_buffer_add_mono_spec, RbaBuffer.wf_init.
  - apply RbaBuffer.rba_buffer_add_mono_spec;
      [apply RbaBuffer.wf_init|apply RbaBuffer.canonical_init].
  - apply pool_ok_empty.
  - repeat constructor; try (apply table1_asserts_hold; vm_compute; set_solver).
    by eexists.
  - apply (Permutation_rev
             [Op_add 12%Z; Op_sub 10%Z; Op_add_const_times 5%positive 6%Z]).
Defined.

End RbaBufferTerms.


(* ===================================================================== *)
(** * The buffers of a store that are checked out                        *)
(* ===================================================================== *)

Module BufferStoreInvariant.
Import BufferStore.

Section Invariant.
Context {A : Type}.
Implicit Types (s : store A) (b e : addr) (n : N).

(** The list of available buffers holds each of its elements once, and
    they are allocated. *)
Definition store_ok s : Prop :=
  NoDup (buffer_list s) ∧ ∀ e, e ∈ buffer_list s → is_Some (live s !! e).

(** A buffer that a client holds: allocated, and not available. *)
Definition checked_out s b : Prop :=
  is_Some (live s !! b) ∧ b ∉ buffer_list s.

(** X1. [alloc_ibuffer] and [alloc_pbuffer] never hand out a buffer that a
    client holds: the buffer returned was not checked out before the call
    and is checked out after it, the buffers that were checked out still
    are, no other buffer is changed, and the list still holds each
    available buffer once. *)
Theorem alloc_hands_out_unheld_buffer n s (Hok : store_ok s) :
  let s' := (alloc_buffer n s).1 in
  let b := (alloc_buffer n s).2 in
  store_ok s'
  ∧ ¬ checked_out s b
  ∧ checked_out s' b
  ∧ (∀ e, checked_out s e → checked_out s' e ∧ e ≠ b)
  ∧ (∀ e, e ≠ b → live s' !! e = live s !! e).
Proof.
  destruct Hok as [Hnd Hlive]. unfold alloc_buffer.
  destruct (buffer_list s) as [|x rest] eqn:Hl; simpl.
  - assert (live s !! fresh (dom (live s)) = None) as Hfresh
      by apply not_elem_of_dom, is_fresh.
    split_and!; unfold checked_out, store_ok; simpl; rewrite ?Hl.
    + split; [constructor|]. intros e He. by apply elem_of_nil in He.
    + intros [[v Hv] _]. congruence.
    + split; [rewrite lookup_insert_eq; by eexists|]. apply not_elem_of_nil.
    + intros e [[v Hv] _].
      assert (e ≠ fresh (dom (live s))) as Hne by (intros ->; congruence).
      split; [|done]. split; [|apply not_elem_of_nil].
      rewrite lookup_insert_ne by done. by eexists.
    + intros e Hne. by rewrite lookup_insert_ne.
  - apply NoDup_cons in Hnd as [Hx Hnd].
    destruct (Hlive x) as [vx Hvx]; [by left|].
    split_and!; unfold checked_out, store_ok; simpl; rewrite ?Hl.
    + split; [done|]. intros e He.
      destruct (Hlive e) as [ve Hve]; [by right|].
      destruct (decide (e = x)) as [->|Hne].
      * rewrite lookup_alter_eq, Hvx. by eexists.
      * rewrite lookup_alter_ne by done. by eexists.
    + intros [_ Hout]. apply Hout. by left.
    + split; [|done]. rewrite lookup_alter_eq, Hvx. by eexists.
    + intros e [[v Hv] Hout]. apply not_elem_of_cons in Hout as [Hne Hout].
      split; [|done]. split; [|done].
      rewrite lookup_alter_ne by done. by eexists.
    + intros e Hne. by rewrite lookup_alter_ne.
Qed.

(** X2. [free_ibuffer] and [free_pbuffer] on a buffer that is checked out:
    the buffer becomes available, the other buffers that were checked out
    still are and no other buffer is changed, and the list still holds
    each available buffer once. *)
Theorem free_returns_held_buffer b s
    (Hok : store_ok s) (Hheld : checked_out s b) :
  let s' := free_buffer b s in
  store_ok s'
  ∧ ¬ checked_out s' b
  ∧ (∀ e, e ≠ b → (checked_out s' e ↔ checked_out s e))
  ∧ (∀ e, e ≠ b → live s' !! e = live s !! e).
Proof.
  destruct Hok as [Hnd Hlive]. destruct Hheld as [[v Hv] Hout].
  unfold free_buffer. simpl.
  split_and!; unfold checked_out, store_ok; simpl.
  - split; [by apply NoDup_cons|]. intros e He.
    destruct (decide (e = b)) as [->|Hne].
    + rewrite lookup_alter_eq, Hv. by eexists.
    + rewrite lookup_alter_ne by done.
      apply elem_of_cons in He as [?|He]; [done|]. by apply Hlive.
  - intros [_ Hnot]. apply Hnot. by left.
  - intros e Hne. rewrite lookup_alter_ne by done.
    rewrite not_elem_of_cons. naive_solver.
  - intros e Hne. by rewrite lookup_alter_ne.
Qed.

(** X3. When no buffer is checked out, [delete_ibuffer_store] and
    [delete_pbuffer_store] leave nothing allocated. *)
Theorem teardown_of_returned_buffers_frees_all s
    (Hok : store_ok s) (Hall : ∀ e, ¬ checked_out s e) :
  live (delete_buffer_store s) = ∅.
Proof.
  apply map_empty. intros e. simpl.
  destruct (decide (e ∈ buffer_list s)) as [Hin|Hout].
  - by apply free_elems_lookup_in.
  - rewrite free_elems_lookup_notin by done.
    destruct (live s !! e) as [v|] eqn:Hv; [|done].
    exfalso. apply (Hall e). split; [by eexists|done].
Qed.

End Invariant.

(** The store with buffer 1 checked out and buffer 2 available. *)
Lemma store1_ok : store_ok store1.
Proof.
  split; [apply NoDup_singleton|].
  intros e ->%list_elem_of_singleton. by eexists.
Qed.

Lemma alloc_hands_out_unheld_buffer_witness :
  (alloc_ibuffer 9 store1).2 = 2%positive
  ∧ checked_out (alloc_ibuffer 9 store1).1 1%positive
  ∧ checked_out (alloc_ibuffer 9 store1).1 2%positive.
Proof.
  destruct (alloc_hands_out_unheld_buffer 9 store1 store1_ok)
    as (_ & _ & Hnew & Hold & _).
  split_and!; [reflexivity| |exact Hnew].
  apply Hold. split; [by eexists|].
  by intros ?%list_elem_of_singleton.
Defined.

Lemma free_returns_held_buffer_witness :
  store_ok (free_ibuffer 1%positive store1)
  ∧ buffer_list (free_ibuffer 1%positive store1) = [1%positive; 2%positive].
Proof.
  destruct (free_returns_held_buffer 1%positive store1 store1_ok)
    as (Hok & _).
  - split; [by eexists|]. by intros ?%list_elem_of_singleton.
  - split; [exact Hok|reflexivity].
Defined.

Lemma teardown_of_returned_buffers_frees_all_witness :
  live (delete_ibuffer_store (free_ibuffer 1%positive store1)) = ∅.
Proof.
  apply (teardown_of_returned_buffers_frees_all (free_ibuffer 1%positive store1)).
  { split; [by apply NoDup_cons_2, NoDup_singleton; intros ?%list_elem_of_singleton|].
    intros e [->|[->|[]%elem_of_nil]%elem_of_cons]%elem_of_cons; by eexists. }
  intros e [[v Hv] Hout]. simpl in *.
  apply not_elem_of_cons in Hout as [H1 Hout].
  apply not_elem_of_cons in Hout as [H2 _].
  rewrite lookup_alter_ne in Hv by done.
  rewrite lookup_insert_ne in Hv by done.
  rewrite lookup_insert_ne in Hv by done. done.
Defined.

End BufferStoreInvariant.

(* ===================================================================== *)
(** * Bounds and disequalities of bit-array terms                        *)
(* ===================================================================== *)

Module BitArrays.
Import TermUtils.
Local Open Scope Z_scope.

(** [for (i = i0; i < ...; i++) body]: [count] iterations from [i0];
    the result is the final value of [i] and the final state. *)
Fixpoint for_loop {S : Type} (count : nat) (i : Z)
    (body : Z → S → outcome S) (s : S) : outcome (Z * S) :=
  match count with
  | O => Done (i, s)
  | S count => s ← body i s; for_loop count (i + 1) body s
  end.

(** [terms/bv64_constants.h] is not part of these sources.  Its
    operations on [uint64_t] are taken by their names and by the comments
    at their uses: [mask64(n)] has the [n] lower bits set, [set_bit64],
    [clr_bit64] and [tst_bit64] set, clear and test bit [i], and
    [norm64(c, n)] clears the bits of [c] from bit [n] on. *)
Definition mask64 (n : Z) : Z := Z.ones n.
Definition set_bit64 (c i : Z) : Z := Z.setbit c i.
Definition clr_bit64 (c i : Z) : Z := Z.clearbit c i.
Definition tst_bit64 (c i : Z) : bool := Z.testbit c i.
Definition norm64 (c n : Z) : Z := Z.land c (mask64 n).

(** [bvconst64_term_t]: a constant of 1 to 64 bits. *)
Record bvconst64_term_t : Type := BvConst64 {
  bitsize : Z;
  value : Z
}.

Section BitArray.
Variable NDEBUG : bool.
(** The terms [true_term] and [false_term], the index [bool_const] of
    the Boolean constant, and the operations [index_of] and
    [opposite_bool_terms] of [terms/terms.h], which is not part of these
    sources. *)
Variables true_term false_term : term_t.
Variable bool_const : Z.
Variable index_of : term_t → Z.
Variable opposite_bool_terms : term_t → term_t → bool.

(** [bool2term(tt)]: the term of a Boolean. *)
Definition bool2term (tt : bool) : term_t :=
  if tt then true_term else false_term.

Definition bitarray_upper_bound_unsigned64 (a : composite_term_t) : outcome Z :=
  _ ← assert NDEBUG ((0 <? arity a) && (arity a <=? 64));
  let n := arity a in
  '(_, c) ← for_loop (Z.to_nat n) 0
    (λ i c, x ← read (arg a) i;
            Done (if x =? false_term then clr_bit64 c i else c))
    (mask64 n);
  _ ← assert NDEBUG (c =? norm64 c n);
  Done c.

Definition bitarray_lower_bound_unsigned64 (a : composite_term_t) : outcome Z :=
  _ ← assert NDEBUG ((0 <? arity a) && (arity a <=? 64));
  let n := arity a in
  '(_, c) ← for_loop (Z.to_nat n) 0
    (λ i c, x ← read (arg a) i;
            Done (if x =? true_term then set_bit64 c i else c))
    0;
  _ ← assert NDEBUG (c =? norm64 c n);
  Done c.

Definition bitarray_upper_bound_signed64 (a : composite_term_t) : outcome Z :=
  _ ← assert NDEBUG ((0 <? arity a) && (arity a <=? 64));
  let n := arity a in
  '(i, c) ← for_loop (Z.to_nat (u32 (n - 1))) 0
    (λ i c, x ← read (arg a) i;
            Done (if x =? false_term then clr_bit64 c i else c))
    (mask64 n);
  x ← read (arg a) i;
  Done (if negb (x =? true_term) then clr_bit64 c i else c).

Definition bitarray_lower_bound_signed64 (a : composite_term_t) : outcome Z :=
  _ ← assert NDEBUG ((0 <? arity a) && (arity a <=? 64));
  let n := arity a in
  '(i, c) ← for_loop (Z.to_nat (u32 (n - 1))) 0
    (λ i c, x ← read (arg a) i;
            Done (if x =? true_term then set_bit64 c i else c))
    0;
  x ← read (arg a) i;
  Done (if negb (x =? false_term) then set_bit64 c i else c).

(** The loops of the disequality checks return from inside the loop. *)
Fixpoint disequal_bitarrays_loop (count : nat) (i : Z)
    (a b : composite_term_t) : outcome bool :=
  match count with
  | O => Done false
  | S count =>
      x ← read (arg a) i;
      y ← read (arg b) i;
      if opposite_bool_terms x y then Done true
      else disequal_bitarrays_loop count (i + 1) a b
  end.

Definition disequal_bitarrays (a b : composite_term_t) : outcome bool :=
  _ ← assert NDEBUG (arity a =? arity b);
  disequal_bitarrays_loop (Z.to_nat (arity a)) 0 a b.

Fixpoint disequal_bitarray_bvconst64_loop (count : nat) (i : Z)
    (a : composite_term_t) (c : bvconst64_term_t) : outcome bool :=
  match count with
  | O => Done false
  | S count =>
      x ← read (arg a) i;
      if index_of x =? bool_const then
        _ ← assert NDEBUG ((x =? true_term) || (x =? false_term));
        if negb (x =? bool2term (tst_bit64 (value c) i)) then Done true
        else disequal_bitarray_bvconst64_loop count (i + 1) a c
      else disequal_bitarray_bvconst64_loop count (i + 1) a c
  end.

Definition disequal_bitarray_bvconst64 (a : composite_term_t)
    (c : bvconst64_term_t) : outcome bool :=
  _ ← assert NDEBUG ((arity a =? bitsize c) && (0 <? arity a) && (arity a <=? 64));
  disequal_bitarray_bvconst64_loop (Z.to_nat (arity a)) 0 a c.

End BitArray.

(** ** The value of a bit array *)

(** The number with the bits [bs], lowest bit first. *)
Fixpoint bits_value (bs : list bool) : Z :=
  match bs with
  | [] => 0
  | b :: bs => Z.b2z b + 2 * bits_value bs
  end.

(** The bit array [a] under a valuation of its components. *)
Definition bitarray_value (val : term_t → bool) (a : composite_term_t) : Z :=
  bits_value (val <$> arg a).

(** An [n]-bit number read in two's complement. *)
Definition signed (n c : Z) : Z :=
  if Z.testbit c (n - 1) then c - 2 ^ n else c.

Definition wf_bitarray (a : composite_term_t) : Prop :=
  arity a = Z.of_nat (length (arg a)).

Lemma bits_value_bounds bs : 0 ≤ bits_value bs < 2 ^ Z.of_nat (length bs).
Proof.
  induction bs as [|b bs IH]; simpl length; [simpl; lia|].
  rewrite Nat2Z.inj_succ, Z.pow_succ_r by lia. simpl.
  destruct b; simpl; lia.
Qed.

Lemma testbit_bits_value bs j :
  0 ≤ j → Z.testbit (bits_value bs) j = default false (bs !! Z.to_nat j).
Proof.
  revert j. induction bs as [|b bs IH]; intros j Hj; simpl.
  - by rewrite Z.testbit_0_l.
  - rewrite (Z.add_comm (Z.b2z b)).
    destruct (decide (j = 0)) as [->|Hne].
    + by rewrite Z.testbit_0_r.
    + replace j with (Z.succ (j - 1)) at 1 by lia.
      rewrite Z.testbit_succ_r, IH by lia.
      replace (Z.to_nat j) with (S (Z.to_nat (j - 1))) by lia. done.
Qed.

Lemma bits_value_le bs1 bs2 :
  Forall2 (λ b1 b2 : bool, b1 = true → b2 = true) bs1 bs2 →
  bits_value bs1 ≤ bits_value bs2.
Proof.
  induction 1 as [|b1 b2 l1 l2 Hb _ IH]; simpl; [lia|].
  destruct b1, b2; simpl; try lia.
Qed.

Lemma bits_value_app bs1 bs2 :
  bits_value (bs1 ++ bs2)
  = bits_value bs1 + 2 ^ Z.of_nat (length bs1) * bits_value bs2.
Proof.
  induction bs1 as [|b bs1 IH]; simpl length; simpl app; simpl bits_value.
  - lia.
  - rewrite IH, Nat2Z.inj_succ, Z.pow_succ_r by lia. lia.
Qed.

Lemma bits_value_testbit_eq bs c :
  0 ≤ c →
  (∀ j, 0 ≤ j → Z.testbit c j = default false (bs !! Z.to_nat j)) →
  c = bits_value bs.
Proof.
  intros Hc Hbits. apply Z.bits_inj'. intros j Hj.
  by rewrite Hbits, testbit_bits_value.
Qed.

Lemma signed_bits_value bs s :
  signed (Z.of_nat (length bs) + 1) (bits_value (bs ++ [s]))
  = bits_value bs - 2 ^ Z.of_nat (length bs) * Z.b2z s.
Proof.
  unfold signed. replace (Z.of_nat (length bs) + 1 - 1) with (Z.of_nat (length bs)) by lia.
  rewrite testbit_bits_value by lia. rewrite Nat2Z.id.
  rewrite lookup_app_r, Nat.sub_diag by lia. simpl.
  rewrite bits_value_app. simpl. rewrite Z.pow_add_r by lia.
  destruct s; simpl; lia.
Qed.

(** ** The loops that set or clear one bit per component *)

Section BitLoops.
Variables (args : list Z) (P : Z → bool).
Variables (op : Z → Z → Z) (b : bool).
Hypothesis op_nonneg : ∀ c i, 0 ≤ c → 0 ≤ i → 0 ≤ op c i.
Hypothesis op_spec : ∀ c i j,
  0 ≤ i → 0 ≤ j → Z.testbit (op c i) j = if decide (j = i) then b else Z.testbit c j.

Lemma for_loop_bits count i c :
  0 ≤ i → i + Z.of_nat count ≤ Z.of_nat (length args) → 0 ≤ c →
  ∃ c', for_loop count i
          (λ i c, x ← read args i; Done (if P x then op c i else c)) c
        = Done (i + Z.of_nat count, c')
    ∧ 0 ≤ c'
    ∧ ∀ j, 0 ≤ j →
        Z.testbit c' j
        = if decide (i ≤ j < i + Z.of_nat count
                     ∧ P (default 0 (args !! Z.to_nat j)) = true)
          then b else Z.testbit c j.
Proof.
  revert i c. induction count as [|count IH]; intros i c Hi Hlen Hc.
  - exists c. simpl. rewrite Z.add_0_r. split_and!; [done..|].
    intros j Hj. rewrite decide_False by lia. done.
  - simpl for_loop.
    destruct (read_in_range args i) as (x & -> & Hx); [lia|]. simpl.
    set (c1 := if P x then op c i else c).
    assert (0 ≤ c1) as Hc1 by (unfold c1; destruct (P x); auto).
    destruct (IH (i + 1) c1) as (c' & -> & Hc' & Hbits); [lia..|done|].
    exists c'. split; [f_equal; f_equal; lia|]. split; [done|].
    intros j Hj. rewrite Hbits by done.
    destruct (decide (j = i)) as [->|Hne].
    + rewrite Hx. simpl. rewrite decide_False by lia. unfold c1.
      destruct (P x) eqn:HP.
      * rewrite op_spec, !decide_True by (try split; try done; lia). done.
      * rewrite decide_False by (intros [_ ?]; congruence). done.
    + assert (Z.testbit c1 j = Z.testbit c j) as ->.
      { unfold c1. destruct (P x); [|done].
        by rewrite op_spec, decide_False by lia. }
      destruct (decide (i + 1 ≤ j < i + 1 + Z.of_nat count ∧ _)) as [[? ?]|Hn].
      * rewrite decide_True; [done|]. split; [lia|done].
      * rewrite decide_False; [done|]. intros [? ?]. apply Hn. split; [lia|done].
Qed.

End BitLoops.

Lemma set_bit64_spec c i j :
  0 ≤ i → 0 ≤ j →
  Z.testbit (set_bit64 c i) j = if decide (j = i) then true else Z.testbit c j.
Proof.
  intros Hi Hj. unfold set_bit64. destruct (decide (j = i)) as [->|Hne].
  - by apply Z.setbit_eq.
  - apply Z.setbit_neq; [done|lia].
Qed.

Lemma clr_bit64_spec c i j :
  0 ≤ i → 0 ≤ j →
  Z.testbit (clr_bit64 c i) j = if decide (j = i) then false else Z.testbit c j.
Proof.
  intros Hi Hj. unfold clr_bit64. destruct (decide (j = i)) as [->|Hne].
  - by apply Z.clearbit_eq.
  - apply Z.clearbit_neq. lia.
Qed.

Lemma set_bit64_nonneg c i : 0 ≤ c → 0 ≤ i → 0 ≤ set_bit64 c i.
Proof.
  intros Hc Hi. unfold set_bit64. rewrite Z.setbit_spec'.
  apply Z.lor_nonneg. split; [done|]. apply Z.pow_nonneg. lia.
Qed.

Lemma clr_bit64_nonneg c i : 0 ≤ c → 0 ≤ i → 0 ≤ clr_bit64 c i.
Proof.
  intros Hc Hi. unfold clr_bit64. rewrite Z.clearbit_spec'.
  apply Z.ldiff_nonneg. by left.
Qed.

Lemma norm64_small c n : 0 ≤ n → 0 ≤ c < 2 ^ n → norm64 c n = c.
Proof.
  intros Hn Hc. unfold norm64, mask64.
  rewrite Z.land_ones by done. by apply Z.mod_small.
Qed.

(** ** The bounds of a bit array of 1 to 64 bits *)

Lemma bits_value_fmap_le (f g : Z → bool) (l : list Z) :
  (∀ x, x ∈ l → f x = true → g x = true) →
  bits_value (f <$> l) ≤ bits_value (g <$> l).
Proof.
  intros Hfg. apply bits_value_le, Forall2_fmap, Forall_Forall2_diag.
  apply Forall_forall. intros x Hx. by apply Hfg.
Qed.

Lemma lookup_fmap_default (f : Z → bool) (l : list Z) (j : nat) :
  (j < length l)%nat →
  default false ((f <$> l) !! j) = f (default 0 (l !! j)).
Proof.
  intros Hj. rewrite list_lookup_fmap.
  destruct (lookup_lt_is_Some_2 l j Hj) as [x Hx].
  by rewrite Hx.
Qed.

Section Bounds.
Variable NDEBUG : bool.
Variables true_term false_term : term_t.

(** A valuation of the Boolean terms gives the two constants their
    value. *)
Definition valuation (val : term_t → bool) : Prop :=
  val true_term = true ∧ val false_term = false.

(** The bits that the bounds give to a component: the lower bound has a
    1 where the component is [true_term], the upper bound has a 0 where
    it is [false_term]. *)
Definition is_true (x : term_t) : bool := x =? true_term.
Definition not_false (x : term_t) : bool := negb (x =? false_term).

Lemma is_true_val val x : valuation val → is_true x = true → val x = true.
Proof. intros [Ht _] ->%Z.eqb_eq. done. Qed.

Lemma val_not_false val x : valuation val → val x = true → not_false x = true.
Proof.
  intros [_ Hf] Hx. unfold not_false. destruct (Z.eqb_spec x false_term); [|done].
  congruence.
Qed.

Lemma lower_unsigned64_value a :
  wf_bitarray a → 0 < arity a ≤ 64 →
  bitarray_lower_bound_unsigned64 NDEBUG true_term a
  = Done (bits_value (is_true <$> arg a)).
Proof.
  intros Hwf Hn. unfold wf_bitarray in Hwf.
  unfold bitarray_lower_bound_unsigned64. unfold term_t in *.
  rewrite assert_true by lia. simpl.
  destruct (for_loop_bits (arg a) is_true set_bit64 true
              set_bit64_nonneg set_bit64_spec (Z.to_nat (arity a)) 0 0)
    as (c & Hloop & Hc & Hbits); [lia..|].
  unfold is_true in Hloop at 1. rewrite Hloop. simpl.
  assert (c = bits_value (is_true <$> arg a)) as ->.
  { apply bits_value_testbit_eq; [done|]. intros j Hj. rewrite Hbits by done.
    rewrite Z.testbit_0_l.
    destruct (decide (j < arity a)) as [Hlt|Hge].
    - rewrite lookup_fmap_default by lia.
      destruct (is_true _) eqn:E.
      + rewrite decide_True; [done|]. split; [lia|done].
      + rewrite decide_False; [done|]. intros [_ ?]. congruence.
    - rewrite decide_False by lia.
      rewrite lookup_ge_None_2; [done|].
      rewrite length_fmap. unfold term_t in *. lia. }
  rewrite assert_true; [done|]. apply Z.eqb_eq. symmetry.
  apply norm64_small; [lia|].
  pose proof (bits_value_bounds (is_true <$> arg a)) as Hb.
  rewrite length_fmap in Hb. unfold term_t in *. by rewrite <- Hwf in Hb.
Qed.

Lemma upper_unsigned64_value a :
  wf_bitarray a → 0 < arity a ≤ 64 →
  bitarray_upper_bound_unsigned64 NDEBUG false_term a
  = Done (bits_value (not_false <$> arg a)).
Proof.
  intros Hwf Hn. unfold wf_bitarray in Hwf.
  unfold bitarray_upper_bound_unsigned64. unfold term_t in *.
  rewrite assert_true by lia. simpl.
  destruct (for_loop_bits (arg a) (λ x, x =? false_term) clr_bit64 false
              clr_bit64_nonneg clr_bit64_spec (Z.to_nat (arity a)) 0
              (mask64 (arity a)))
    as (c & Hloop & Hc & Hbits); [lia..| |].
  { unfold mask64. rewrite Z.ones_equiv.
    assert (0 < 2 ^ arity a) by (apply Z.pow_pos_nonneg; lia). lia. }
  rewrite Hloop. simpl.
  assert (c = bits_value (not_false <$> arg a)) as ->.
  { apply bits_value_testbit_eq; [done|]. intros j Hj. rewrite Hbits by done.
    unfold mask64. rewrite Z.testbit_ones_nonneg by lia.
    destruct (decide (j < arity a)) as [Hlt|Hge].
    - rewrite lookup_fmap_default by lia.
      unfold not_false. destruct (_ =? false_term) eqn:E; simpl.
      + rewrite decide_True; [done|]. split; [lia|done].
      + rewrite decide_False by (intros [_ ?]; congruence).
        by apply Z.ltb_lt.
    - rewrite decide_False by lia.
      rewrite lookup_ge_None_2
        by (rewrite length_fmap; unfold term_t in *; lia).
      simpl. apply Z.ltb_ge. lia. }
  rewrite assert_true; [done|]. apply Z.eqb_eq. symmetry.
  apply norm64_small; [lia|].
  pose proof (bits_value_bounds (not_false <$> arg a)) as Hb.
  rewrite length_fmap in Hb. unfold term_t in *. by rewrite <- Hwf in Hb.
Qed.

Lemma bitarray_unsigned64_values (a : composite_term_t)
    (Hwf : wf_bitarray a) (Hn : 0 < arity a ≤ 64) :
  ∃ lo hi,
    bitarray_lower_bound_unsigned64 NDEBUG true_term a = Done lo
    ∧ bitarray_upper_bound_unsigned64 NDEBUG false_term a = Done hi
    ∧ 0 ≤ lo ∧ hi < 2 ^ arity a
    ∧ (∀ val, valuation val → lo ≤ bitarray_value val a ≤ hi)
    ∧ lo = bitarray_value is_true a
    ∧ hi = bitarray_value not_false a.
Proof.
  exists (bits_value (is_true <$> arg a)), (bits_value (not_false <$> arg a)).
  split_and!; try done.
  - by apply lower_unsigned64_value.
  - by apply upper_unsigned64_value.
  - apply bits_value_bounds.
  - pose proof (bits_value_bounds (not_false <$> arg a)) as Hb.
    rewrite length_fmap in Hb. unfold wf_bitarray, term_t in *.
    rewrite <- Hwf in Hb. lia.
  - intros val Hval. unfold bitarray_value. split.
    + apply bits_value_fmap_le. intros x _. by apply is_true_val.
    + apply bits_value_fmap_le. intros x _. by apply val_not_false.
Qed.

(** X4. The bounds of [bitarray_lower_bound_unsigned64] and
    [bitarray_upper_bound_unsigned64] on an array of 1 to 64 components:
    both calls return (the assertions hold), the results are [n]-bit
    numbers, every value that the array takes under a valuation of its
    components lies between them, and each bound is the value of the array
    when the components other than [true_term] and [false_term] are all 0,
    respectively all 1. *)
Theorem bitarray_bounds_unsigned64 (a : composite_term_t)
    (Hwf : wf_bitarray a) (Hn : 0 < arity a ≤ 64) :
  ∃ lo hi,
    bitarray_lower_bound_unsigned64 NDEBUG true_term a = Done lo
    ∧ bitarray_upper_bound_unsigned64 NDEBUG false_term a = Done hi
    ∧ 0 ≤ lo ∧ hi < 2 ^ arity a
    ∧ (∀ val, valuation val → lo ≤ bitarray_value val a ≤ hi)
    ∧ lo = bitarray_value is_true a
    ∧ hi = bitarray_value not_false a.
Proof. exact (bitarray_unsigned64_values a Hwf Hn). Qed.

Lemma last_component (a : composite_term_t) :
  wf_bitarray a → 0 < arity a →
  ∃ l z, arg a = l ++ [z] ∧ arity a = Z.of_nat (length l) + 1.
Proof.
  unfold wf_bitarray. intros Hwf Hn.
  destruct (arg a) as [|z l _] using rev_ind; simpl in *; [lia|].
  exists l, z. split; [done|]. rewrite length_app in Hwf. simpl in Hwf. lia.
Qed.

Lemma signed_loop_value (a : composite_term_t) (l : list Z) (z : Z)
    (P Q : Z → bool) (op : Z → Z → Z) (b : bool) (c0 c1 : Z) :
  arg a = l ++ [z] →
  (∀ c i j, 0 ≤ i → 0 ≤ j →
     Z.testbit (op c i) j = if decide (j = i) then b else Z.testbit c j) →
  0 ≤ (if Q z then op c1 (Z.of_nat (length l)) else c1) →
  (∀ j, 0 ≤ j →
     Z.testbit c1 j
     = if decide (0 ≤ j < 0 + Z.of_nat (Z.to_nat (Z.of_nat (length l)))
                  ∧ P (default 0 (arg a !! Z.to_nat j)) = true)
       then b else Z.testbit c0 j) →
  (∀ j, 0 ≤ j → Z.testbit c0 j = negb b && (j <? Z.of_nat (length l) + 1)) →
  (if Q z then op c1 (Z.of_nat (length l)) else c1)
  = bits_value (((λ x, xorb (negb b) (P x)) <$> l) ++ [xorb (negb b) (Q z)]).
Proof.
  intros Ha Hop Hnn Hbits H0. apply bits_value_testbit_eq; [done|].
  intros j Hj.
  assert (Z.testbit (if Q z then op c1 (Z.of_nat (length l)) else c1) j
          = if decide (j = Z.of_nat (length l))
            then (if Q z then b else Z.testbit c1 j)
            else Z.testbit c1 j) as ->.
  { destruct (Q z); [by rewrite Hop by lia|]. by destruct (decide _). }
  rewrite !Hbits, !H0 by done. rewrite Ha.
  destruct (decide (j = Z.of_nat (length l))) as [->|Hne].
  - rewrite Nat2Z.id, decide_False by lia.
    rewrite lookup_app_r by (rewrite length_fmap; lia).
    rewrite length_fmap, Nat.sub_diag. simpl.
    assert ((Z.of_nat (length l) <? Z.of_nat (length l) + 1) = true) as ->
      by (apply Z.ltb_lt; lia).
    by destruct (Q z), b.
  - destruct (decide (j < Z.of_nat (length l))) as [Hlt|Hge].
    + rewrite !lookup_app_l by (rewrite ?length_fmap; lia).
      rewrite lookup_fmap_default by lia.
      assert ((j <? Z.of_nat (length l) + 1) = true) as ->
        by (apply Z.ltb_lt; lia).
      destruct (P _) eqn:E.
      * rewrite decide_True by (split; [lia|done]). by destruct b.
      * rewrite decide_False by (intros [_ ?]; congruence). by destruct b.
    + rewrite decide_False by lia.
      rewrite lookup_ge_None_2
        by (rewrite length_app, length_fmap; simpl; lia).
      assert ((j <? Z.of_nat (length l) + 1) = false) as ->
        by (apply Z.ltb_ge; lia).
      by destruct b.
Qed.

Lemma lower_signed64_value a l z :
  arg a = l ++ [z] → arity a = Z.of_nat (length l) + 1 → arity a ≤ 64 →
  bitarray_lower_bound_signed64 NDEBUG true_term false_term a
  = Done (bits_value ((is_true <$> l) ++ [not_false z])).
Proof.
  intros Ha Hn H64. unfold bitarray_lower_bound_signed64. unfold term_t in *.
  rewrite assert_true by lia. simpl.
  rewrite u32_small by lia.
  replace (arity a - 1) with (Z.of_nat (length l)) by lia.
  destruct (for_loop_bits (arg a) is_true set_bit64 true
              set_bit64_nonneg set_bit64_spec
              (Z.to_nat (Z.of_nat (length l))) 0 0)
    as (c & Hloop & Hc & Hbits); [lia|rewrite Ha, length_app; simpl; lia|lia|].
  unfold is_true in Hloop at 1. rewrite Hloop. simpl.
  rewrite Z2Nat.id, Z.add_0_l by lia.
  assert (@read Z (arg a) (Z.of_nat (length l)) = Done z) as ->.
  { apply read_Done. split; [lia|].
    rewrite Ha, Nat2Z.id, lookup_app_r, Nat.sub_diag by lia. done. }
  simpl. f_equal.
  pose proof (signed_loop_value a l z is_true not_false set_bit64 true 0 c Ha
                set_bit64_spec) as Hval.
  simpl in Hval. unfold not_false in Hval at 1 2.
  rewrite Hval; [reflexivity| |done|].
  - destruct (negb _); [apply set_bit64_nonneg; lia|done].
  - intros j Hj. by rewrite Z.testbit_0_l.
Qed.

Lemma upper_signed64_value a l z :
  arg a = l ++ [z] → arity a = Z.of_nat (length l) + 1 → arity a ≤ 64 →
  bitarray_upper_bound_signed64 NDEBUG true_term false_term a
  = Done (bits_value ((not_false <$> l) ++ [is_true z])).
Proof.
  intros Ha Hn H64. unfold bitarray_upper_bound_signed64. unfold term_t in *.
  rewrite assert_true by lia. simpl.
  rewrite u32_small by lia.
  replace (arity a - 1) with (Z.of_nat (length l)) by lia.
  assert (0 ≤ mask64 (arity a)) as Hmask.
  { unfold mask64. rewrite Z.ones_equiv.
    assert (0 < 2 ^ arity a) by (apply Z.pow_pos_nonneg; lia). lia. }
  destruct (for_loop_bits (arg a) (λ x, x =? false_term) clr_bit64 false
              clr_bit64_nonneg clr_bit64_spec
              (Z.to_nat (Z.of_nat (length l))) 0 (mask64 (arity a)))
    as (c & Hloop & Hc & Hbits); [lia|rewrite Ha, length_app; simpl; lia|done|].
  rewrite Hloop. simpl.
  rewrite Z2Nat.id, Z.add_0_l by lia.
  assert (@read Z (arg a) (Z.of_nat (length l)) = Done z) as ->.
  { apply read_Done. split; [lia|].
    rewrite Ha, Nat2Z.id, lookup_app_r, Nat.sub_diag by lia. done. }
  simpl. f_equal.
  pose proof (signed_loop_value a l z (λ x, x =? false_term)
                (λ x, negb (x =? true_term)) clr_bit64 false
                (mask64 (arity a)) c Ha clr_bit64_spec) as Hval.
  simpl in Hval.
  rewrite Hval; [| |done|].
  - unfold is_true. f_equal. f_equal. by destruct (z =? true_term).
  - destruct (negb _); [apply clr_bit64_nonneg; lia|done].
  - intros j Hj. unfold mask64. rewrite Z.testbit_ones_nonneg by lia.
    by rewrite Hn.
Qed.

Lemma bitarray_signed64_values (a : composite_term_t)
    (Hwf : wf_bitarray a) (Hn : 0 < arity a ≤ 64) :
  ∃ lo hi,
    bitarray_lower_bound_signed64 NDEBUG true_term false_term a = Done lo
    ∧ bitarray_upper_bound_signed64 NDEBUG true_term false_term a = Done hi
    ∧ 0 ≤ lo < 2 ^ arity a ∧ 0 ≤ hi < 2 ^ arity a
    ∧ (∀ val, valuation val →
         signed (arity a) lo ≤ signed (arity a) (bitarray_value val a)
         ≤ signed (arity a) hi).
Proof.
  destruct (last_component a Hwf) as (l & z & Ha & Hlen); [lia|].
  exists (bits_value ((is_true <$> l) ++ [not_false z])),
         (bits_value ((not_false <$> l) ++ [is_true z])).
  assert (∀ f (s : bool),
            0 ≤ bits_value ((f <$> l) ++ [s]) < 2 ^ arity a) as Hbound.
  { intros f s. pose proof (bits_value_bounds ((f <$> l) ++ [s])) as Hb.
    rewrite length_app, length_fmap in Hb. simpl in Hb.
    replace (Z.of_nat (length l + 1)) with (arity a) in Hb by lia. done. }
  split_and!; try apply Hbound.
  - apply lower_signed64_value; [done..|lia].
  - apply upper_signed64_value; [done..|lia].
  - intros val Hval. unfold bitarray_value. rewrite Ha, fmap_app. simpl.
    rewrite Hlen.
    pose proof (signed_bits_value (is_true <$> l) (not_false z)) as H1.
    pose proof (signed_bits_value (val <$> l) (val z)) as H2.
    pose proof (signed_bits_value (not_false <$> l) (is_true z)) as H3.
    rewrite !length_fmap in *. rewrite H1, H2, H3.
    pose proof (bits_value_fmap_le is_true val l
                  (λ x _, is_true_val val x Hval)) as Hlo.
    pose proof (bits_value_fmap_le val not_false l
                  (λ x _, val_not_false val x Hval)) as Hhi.
    assert (0 < 2 ^ Z.of_nat (length l)) as Hpow by (apply Z.pow_pos_nonneg; lia).
    pose proof (is_true_val val z Hval) as Hz1.
    pose proof (val_not_false val z Hval) as Hz2.
    destruct (is_true z), (val z), (not_false z); simpl;
      try (specialize (Hz1 eq_refl)); try (specialize (Hz2 eq_refl));
      try done; unfold term_t in *; lia.
Qed.

(** X5. The bounds of [bitarray_lower_bound_signed64] and
    [bitarray_upper_bound_signed64] on an array of 1 to 64 components:
    both calls return [n]-bit numbers, and every value that the array
    takes under a valuation of its components, read in two's complement,
    lies between the two results read in two's complement. *)
Theorem bitarray_bounds_signed64 (a : composite_term_t)
    (Hwf : wf_bitarray a) (Hn : 0 < arity a ≤ 64) :
  ∃ lo hi,
    bitarray_lower_bound_signed64 NDEBUG true_term false_term a = Done lo
    ∧ bitarray_upper_bound_signed64 NDEBUG true_term false_term a = Done hi
    ∧ 0 ≤ lo < 2 ^ arity a ∧ 0 ≤ hi < 2 ^ arity a
    ∧ (∀ val, valuation val →
         signed (arity a) lo ≤ signed (arity a) (bitarray_value val a)
         ≤ signed (arity a) hi).
Proof. exact (bitarray_signed64_values a Hwf Hn). Qed.

End Bounds.

(** ** The disequality checks on bit arrays *)

Lemma bitarray_value_testbit val a j x :
  arg a !! j = Some x →
  Z.testbit (bitarray_value val a) (Z.of_nat j) = val x.
Proof.
  intros Hx. unfold bitarray_value.
  rewrite testbit_bits_value, Nat2Z.id, list_lookup_fmap by lia.
  unfold term_t in *. by rewrite Hx.
Qed.

Section Disequal.
Variable NDEBUG : bool.
Variables true_term false_term : term_t.
Variable bool_const : Z.
Variable index_of : term_t → Z.
Variable opposite_bool_terms : term_t → term_t → bool.

(** Two components at the same position that are opposite. *)
Definition opposite_at (a b : composite_term_t) (j : nat) : Prop :=
  ∃ x y, arg a !! j = Some x ∧ arg b !! j = Some y
         ∧ opposite_bool_terms x y = true.

Lemma disequal_bitarrays_loop_spec count i a b :
  0 ≤ i →
  i + Z.of_nat count ≤ Z.of_nat (length (arg a)) →
  i + Z.of_nat count ≤ Z.of_nat (length (arg b)) →
  ∃ r, disequal_bitarrays_loop opposite_bool_terms count i a b = Done r
    ∧ (r = true ↔ ∃ j, i ≤ Z.of_nat j < i + Z.of_nat count ∧ opposite_at a b j).
Proof.
  revert i. induction count as [|count IH]; intros i Hi Ha Hb; simpl.
  - exists false. split; [done|]. split; [done|]. intros (j & ? & _). lia.
  - destruct (read_in_range (arg a) i) as (x & -> & Hx); [lia|].
    destruct (read_in_range (arg b) i) as (y & -> & Hy); [lia|]. simpl.
    destruct (opposite_bool_terms x y) eqn:Hopp.
    + exists true. split; [done|]. split; [|done]. intros _.
      exists (Z.to_nat i). split; [lia|]. by exists x, y.
    + destruct (IH (i + 1)) as (r & -> & Hr); [lia..|].
      exists r. split; [done|]. rewrite Hr. split.
      * intros (j & Hj & Hat). exists j. split; [lia|done].
      * intros (j & Hj & Hat). exists j. split; [|done].
        destruct (decide (Z.of_nat j = i)) as [<-|Hne]; [|lia].
        destruct Hat as (x' & y' & Hx' & Hy' & Ho).
        rewrite Nat2Z.id in Hx, Hy. congruence.
Qed.

(** X6. [disequal_bitarrays] on two arrays of the same arity returns; the
    answer is true exactly when two components at the same position are
    opposite Boolean terms, and then the two arrays have different values
    under every valuation that gives opposite terms opposite values. *)
Theorem disequal_bitarrays_sound (a b : composite_term_t)
    (Hwfa : wf_bitarray a) (Hwfb : wf_bitarray b)
    (Harity : arity a = arity b) :
  ∃ r, disequal_bitarrays NDEBUG opposite_bool_terms a b = Done r
    ∧ (r = true ↔ ∃ j, opposite_at a b j)
    ∧ (r = true →
       ∀ val, (∀ x y, opposite_bool_terms x y = true → val x = negb (val y)) →
              bitarray_value val a ≠ bitarray_value val b).
Proof.
  unfold wf_bitarray in *. unfold disequal_bitarrays.
  rewrite assert_true by (by apply Z.eqb_eq). simpl.
  destruct (disequal_bitarrays_loop_spec (Z.to_nat (arity a)) 0 a b)
    as (r & -> & Hr); [lia..|].
  assert (r = true ↔ ∃ j, opposite_at a b j) as Hiff.
  { rewrite Hr. split; intros (j & Hj); [exists j; apply Hj|].
    exists j. split; [|done]. destruct Hj as (x & _ & Hx%lookup_lt_Some & _).
    lia. }
  exists r. split_and!; [done..|].
  intros (j & x & y & Hx & Hy & Hopp)%Hiff val Hval Heq.
  apply (f_equal (λ c, Z.testbit c (Z.of_nat j))) in Heq.
  rewrite (bitarray_value_testbit val a j x),
          (bitarray_value_testbit val b j y) in Heq by done.
  rewrite (Hval x y Hopp) in Heq. by destruct (val y).
Qed.

(** A component that is a Boolean constant and is not the bit of [c] at
    its position. *)
Definition differs_at (a : composite_term_t) (c : bvconst64_term_t) (j : nat)
  : Prop :=
  ∃ x, arg a !! j = Some x ∧ index_of x = bool_const
       ∧ x ≠ bool2term true_term false_term (tst_bit64 (value c) (Z.of_nat j)).

Lemma disequal_bitarray_bvconst64_loop_spec count i a c :
  0 ≤ i →
  i + Z.of_nat count ≤ Z.of_nat (length (arg a)) →
  (∀ x, x ∈ arg a → index_of x = bool_const →
        x = true_term ∨ x = false_term) →
  ∃ r, disequal_bitarray_bvconst64_loop NDEBUG true_term false_term
         bool_const index_of count i a c = Done r
    ∧ (r = true ↔ ∃ j, i ≤ Z.of_nat j < i + Z.of_nat count ∧ differs_at a c j).
Proof.
  intros Hi Ha Hbool. revert i Hi Ha.
  induction count as [|count IH]; intros i Hi Ha; simpl.
  - exists false. split; [done|]. split; [done|]. intros (j & ? & _). lia.
  - destruct (read_in_range (arg a) i) as (x & -> & Hx); [lia|]. simpl.
    assert (∀ r0, (r0 = true ↔ ∃ j, i + 1 ≤ Z.of_nat j < i + 1 + Z.of_nat count
                                     ∧ differs_at a c j) →
              ¬ differs_at a c (Z.to_nat i) →
              (r0 = true ↔ ∃ j, i ≤ Z.of_nat j < i + Z.of_nat (S count)
                                 ∧ differs_at a c j)) as Hskip.
    { intros r0 Hr0 Hnot. rewrite Hr0. split.
      - intros (j & Hj & Hat). exists j. split; [lia|done].
      - intros (j & Hj & Hat). exists j. split; [|done].
        destruct (decide (Z.of_nat j = i)) as [<-|Hne]; [|lia].
        by rewrite Nat2Z.id in Hnot. }
    destruct (Z.eqb_spec (index_of x) bool_const) as [Hidx|Hidx].
    + rewrite assert_true.
      2:{ apply orb_true_iff. rewrite !Z.eqb_eq. apply Hbool; [|done].
          by eapply list_elem_of_lookup_2. }
      simpl.
      destruct (Z.eqb_spec x (bool2term true_term false_term
                                (tst_bit64 (value c) i))) as [Heq|Hne]; simpl.
      * destruct (IH (i + 1)) as (r & -> & Hr); [lia..|].
        exists r. split; [done|]. apply Hskip; [done|].
        intros (x' & Hx' & _ & Hne). rewrite Z2Nat.id in Hne by lia. congruence.
      * exists true. split; [done|]. split; [|done]. intros _.
        exists (Z.to_nat i). split; [lia|]. exists x.
        rewrite Z2Nat.id by lia. done.
    + destruct (IH (i + 1)) as (r & -> & Hr); [lia..|].
      exists r. split; [done|]. apply Hskip; [done|].
      intros (x' & Hx' & Hidx' & _). congruence.
Qed.

(** X7. [disequal_bitarray_bvconst64] on an array of 1 to 64 components
    whose components of index [bool_const] are [true_term] or
    [false_term], and a constant of the same size: the call returns; the
    answer is true exactly when a constant component is not the bit of
    [c] at its position, and then the array has a value other than [c]
    under every valuation. *)
Theorem disequal_bitarray_bvconst64_sound (a : composite_term_t)
    (c : bvconst64_term_t)
    (Hwf : wf_bitarray a) (Hsize : arity a = bitsize c)
    (Hn : 0 < arity a ≤ 64)
    (Hbool : ∀ x, x ∈ arg a → index_of x = bool_const →
                  x = true_term ∨ x = false_term) :
  ∃ r, disequal_bitarray_bvconst64 NDEBUG true_term false_term bool_const
         index_of a c = Done r
    ∧ (r = true ↔ ∃ j, differs_at a c j)
    ∧ (r = true →
       ∀ val, valuation true_term false_term val →
              bitarray_value val a ≠ value c).
Proof.
  unfold wf_bitarray in *. unfold disequal_bitarray_bvconst64.
  rewrite assert_true.
  2:{ rewrite !andb_true_iff, Z.eqb_eq, Z.ltb_lt, Z.leb_le. lia. }
  simpl.
  destruct (disequal_bitarray_bvconst64_loop_spec (Z.to_nat (arity a)) 0 a c)
    as (r & -> & Hr); [lia..|done|].
  assert (r = true ↔ ∃ j, differs_at a c j) as Hiff.
  { rewrite Hr. split; intros (j & Hj); [exists j; apply Hj|].
    exists j. split; [|done]. destruct Hj as (x & Hx%lookup_lt_Some & _).
    lia. }
  exists r. split_and!; [done..|].
  intros (j & x & Hx & Hidx & Hne)%Hiff val [Ht Hf] Heq.
  apply (f_equal (λ c, Z.testbit c (Z.of_nat j))) in Heq.
  rewrite (bitarray_value_testbit val a j x) in Heq by done.
  unfold tst_bit64, bool2term in Hne.
  destruct (Hbool x) as [->| ->]; [by eapply list_elem_of_lookup_2|done|..].
  - rewrite Ht in Heq. rewrite <- Heq in Hne. done.
  - rewrite Hf in Heq. rewrite <- Heq in Hne. done.
Qed.

End Disequal.

(** ** A bit array with two constant components *)

(** The array [(true, x, false, y)], lowest bit first, with 2 for
    [true_term] and 3 for [false_term]; two terms are opposite when they
    differ in their lowest bit only. *)
Definition array1 : composite_term_t := Composite 4 [2; 8; 3; 10].
Definition array2 : composite_term_t := Composite 4 [4; 9; 3; 6].
Definition xor_opposite (x y : term_t) : bool := Z.lxor x y =? 1.

Lemma bitarray_bounds_unsigned64_witness :
  bitarray_lower_bound_unsigned64 false 2 array1 = Done 1
  ∧ bitarray_upper_bound_unsigned64 false 3 array1 = Done 11.
Proof.
  destruct (bitarray_bounds_unsigned64 false 2 3 array1)
    as (lo & hi & Hlo & Hhi & _ & _ & _ & -> & ->).
  - reflexivity.
  - simpl. lia.
  - split; [exact Hlo|exact Hhi].
Defined.

Lemma bitarray_bounds_signed64_witness :
  bitarray_lower_bound_signed64 false 2 3 array1 = Done 9
  ∧ bitarray_upper_bound_signed64 false 2 3 array1 = Done 3
  ∧ signed 4 9 = -7 ∧ signed 4 3 = 3.
Proof.
  destruct (bitarray_bounds_signed64 false 2 3 array1)
    as (lo & hi & Hlo & Hhi & _).
  - reflexivity.
  - simpl. lia.
  - assert (lo = 9) as -> by (vm_compute in Hlo; congruence).
    assert (hi = 3) as -> by (vm_compute in Hhi; congruence).
    split_and!; [exact Hlo|exact Hhi|reflexivity..].
Defined.

Lemma xor_opposite_even x y :
  xor_opposite x y = true → Z.even x = negb (Z.even y).
Proof.
  intros Hxy%Z.eqb_eq.
  apply (f_equal (λ z, Z.testbit z 0)) in Hxy.
  rewrite Z.lxor_spec, !Z.bit0_odd in Hxy. simpl in Hxy.
  rewrite <- !Z.negb_odd. by destruct (Z.odd x), (Z.odd y).
Qed.

Lemma disequal_bitarrays_sound_witness :
  disequal_bitarrays false xor_opposite array1 array2 = Done true
  ∧ bitarray_value Z.even array1 ≠ bitarray_value Z.even array2.
Proof.
  destruct (disequal_bitarrays_sound false xor_opposite array1 array2)
    as (r & Hr & _ & Hsound); [reflexivity..|].
  assert (r = true) as -> by (vm_compute in Hr; congruence).
  split; [exact Hr|]. apply Hsound; [done|]. apply xor_opposite_even.
Defined.

Lemma disequal_bitarray_bvconst64_sound_witness :
  disequal_bitarray_bvconst64 false 2 3 1 (λ t, Z.shiftr t 1) array1
    (BvConst64 4 5) = Done true.
Proof.
  destruct (disequal_bitarray_bvconst64_sound false 2 3 1 (λ t, Z.shiftr t 1)
              array1 (BvConst64 4 5)) as (r & Hr & _); [reflexivity..| | |].
  - simpl. lia.
  - intros x Hx Hidx. simpl in Hx.
    repeat (apply elem_of_cons in Hx as [->|Hx]; [by vm_compute in Hidx; auto|]).
    by apply elem_of_nil in Hx.
  - assert (r = true) as -> by (vm_compute in Hr; congruence). exact Hr.
Defined.

End BitArrays.

(* ===================================================================== *)
(** * Bounds and bits of bit-vector terms                                *)
(* ===================================================================== *)

Module BvTerms.
Import BitArrays.
Local Open Scope Z_scope.

(** [max_signed64(n)] and [min_signed64(n)] of [terms/bv64_constants.h],
    taken by their names: the largest and the smallest [n]-bit number in
    two's complement, as [n]-bit patterns. *)
Definition max_signed64 (n : Z) : Z := 2 ^ (n - 1) - 1.
Definition min_signed64 (n : Z) : Z := 2 ^ (n - 1).

(** [bvconst_term_t]: a constant of more than 64 bits, an array of
    32-bit words. *)
Record bvconst_term_t : Type := BvConst {
  bv_bitsize : Z;
  bv_data : list Z
}.

Section Table.
Variable NDEBUG : bool.
(** The term table ([terms/terms.h]) is not part of these sources: its
    type, the kind, the size in bits and the descriptors of a term are an
    interface, with the terms [true_term], [false_term] and [NULL_TERM]
    and the test [bvconst_tst_bit] of a bit in an array of words
    ([terms/bv_constants.h]). *)
Variable term_table_t : Type.
Variable term_kind : term_table_t → term_t → term_kind_t.
Variable is_bitvector_term : term_table_t → term_t → bool.
Variable term_bitsize : term_table_t → term_t → Z.
Variable bvconst64_term_desc : term_table_t → term_t → bvconst64_term_t.
Variable bvconst_term_desc : term_table_t → term_t → bvconst_term_t.
Variable bvarray_term_desc : term_table_t → term_t → TermUtils.composite_term_t.
Variable bvconst_tst_bit : list Z → Z → bool.
Variables true_term false_term NULL_TERM : term_t.

Definition upper_bound_unsigned64 (tbl : term_table_t) (t : term_t) : outcome Z :=
  _ ← assert NDEBUG (is_bitvector_term tbl t);
  match term_kind tbl t with
  | BV64_CONSTANT => Done (value (bvconst64_term_desc tbl t))
  | BV_ARRAY =>
      bitarray_upper_bound_unsigned64 NDEBUG false_term (bvarray_term_desc tbl t)
  | _ =>
      let n := term_bitsize tbl t in
      _ ← assert NDEBUG ((1 <=? n) && (n <=? 64));
      Done (mask64 n)
  end.

Definition lower_bound_unsigned64 (tbl : term_table_t) (t : term_t) : outcome Z :=
  _ ← assert NDEBUG (is_bitvector_term tbl t);
  match term_kind tbl t with
  | BV64_CONSTANT => Done (value (bvconst64_term_desc tbl t))
  | BV_ARRAY =>
      bitarray_lower_bound_unsigned64 NDEBUG true_term (bvarray_term_desc tbl t)
  | _ => Done 0
  end.

Definition upper_bound_signed64 (tbl : term_table_t) (t : term_t) : outcome Z :=
  _ ← assert NDEBUG (is_bitvector_term tbl t);
  match term_kind tbl t with
  | BV64_CONSTANT => Done (value (bvconst64_term_desc tbl t))
  | BV_ARRAY =>
      bitarray_upper_bound_signed64 NDEBUG true_term false_term
        (bvarray_term_desc tbl t)
  | _ => Done (max_signed64 (term_bitsize tbl t))
  end.

Definition lower_bound_signed64 (tbl : term_table_t) (t : term_t) : outcome Z :=
  _ ← assert NDEBUG (is_bitvector_term tbl t);
  match term_kind tbl t with
  | BV64_CONSTANT => Done (value (bvconst64_term_desc tbl t))
  | BV_ARRAY =>
      bitarray_lower_bound_signed64 NDEBUG true_term false_term
        (bvarray_term_desc tbl t)
  | _ => Done (min_signed64 (term_bitsize tbl t))
  end.

Definition extract_bit (tbl : term_table_t) (t : term_t) (i : Z) : outcome term_t :=
  _ ← assert NDEBUG (is_bitvector_term tbl t && (term_bitsize tbl t >? i));
  match term_kind tbl t with
  | BV64_CONSTANT =>
      let c := value (bvconst64_term_desc tbl t) in
      Done (bool2term true_term false_term (tst_bit64 c i))
  | BV_CONSTANT =>
      let d := bv_data (bvconst_term_desc tbl t) in
      Done (bool2term true_term false_term (bvconst_tst_bit d i))
  | BV_ARRAY => read (TermUtils.arg (bvarray_term_desc tbl t)) i
  | _ => Done NULL_TERM
  end.

(** ** What the bounds and [extract_bit] say about the values of a term *)

(** A bit-vector term of 1 to 64 bits as the table should hold it: a
    constant is normalized, an array has as many components as the term
    has bits. *)
Definition wf_bv64_term (tbl : term_table_t) (t : term_t) : Prop :=
  is_bitvector_term tbl t = true
  ∧ 0 < term_bitsize tbl t ≤ 64
  ∧ match term_kind tbl t with
    | BV64_CONSTANT =>
        0 ≤ value (bvconst64_term_desc tbl t) < 2 ^ term_bitsize tbl t
    | BV_ARRAY =>
        wf_bitarray (bvarray_term_desc tbl t)
        ∧ TermUtils.arity (bvarray_term_desc tbl t) = term_bitsize tbl t
    | _ => True
    end.

(** The values that [t] can take under a valuation of the Boolean
    terms: the value of a constant, the value of a bit array, and any
    number of its size for a term of another kind. *)
Definition term_value (tbl : term_table_t) (val : term_t → bool) (t : term_t)
    (v : Z) : Prop :=
  match term_kind tbl t with
  | BV64_CONSTANT => v = value (bvconst64_term_desc tbl t)
  | BV_ARRAY => v = bitarray_value val (bvarray_term_desc tbl t)
  | _ => 0 ≤ v < 2 ^ term_bitsize tbl t
  end.

End Table.

Lemma testbit_top (n v : Z) :
  0 < n → 0 ≤ v < 2 ^ n → Z.testbit v (n - 1) = (2 ^ (n - 1) <=? v).
Proof.
  intros Hn Hv.
  assert (2 ^ n = 2 * 2 ^ (n - 1)) as Hpow
    by (rewrite <- Z.pow_succ_r by lia; f_equal; lia).
  assert (0 < 2 ^ (n - 1)) as Hpos by (apply Z.pow_pos_nonneg; lia).
  pose proof (Z.testbit_spec' v (n - 1)) as Hbit.
  pose proof (Z.div_mod v (2 ^ (n - 1))) as Hdiv.
  pose proof (Z.mod_pos_bound v (2 ^ (n - 1)) Hpos) as Hmod.
  assert (0 ≤ v / 2 ^ (n - 1) < 2) as Hq.
  { split; [apply Z.div_pos; lia|]. apply Z.div_lt_upper_bound; lia. }
  destruct (Z.leb_spec (2 ^ (n - 1)) v) as [Hle|Hlt].
  - assert (v / 2 ^ (n - 1) = 1) as Hone by nia.
    rewrite Hone in Hbit. destruct (Z.testbit v (n - 1)); [done|].
    specialize (Hbit ltac:(lia)). simpl in Hbit. done.
  - assert (v / 2 ^ (n - 1) = 0) as Hzero by (apply Z.div_small; lia).
    rewrite Hzero in Hbit. destruct (Z.testbit v (n - 1)); [|done].
    specialize (Hbit ltac:(lia)). simpl in Hbit. done.
Qed.

Lemma signed_range (n v : Z) :
  0 < n → 0 ≤ v < 2 ^ n →
  signed n (min_signed64 n) ≤ signed n v ≤ signed n (max_signed64 n).
Proof.
  intros Hn Hv.
  assert (2 ^ n = 2 * 2 ^ (n - 1)) as Hpow
    by (rewrite <- Z.pow_succ_r by lia; f_equal; lia).
  assert (0 < 2 ^ (n - 1)) as Hpos by (apply Z.pow_pos_nonneg; lia).
  unfold signed, min_signed64, max_signed64.
  rewrite !testbit_top by lia.
  destruct (Z.leb_spec (2 ^ (n - 1)) (2 ^ (n - 1))); [|lia].
  destruct (Z.leb_spec (2 ^ (n - 1)) (2 ^ (n - 1) - 1)); [lia|].
  destruct (Z.leb_spec (2 ^ (n - 1)) v); lia.
Qed.

Section TableFacts.
Variable NDEBUG : bool.
Variable term_table_t : Type.
Variable term_kind : term_table_t → term_t → term_kind_t.
Variable is_bitvector_term : term_table_t → term_t → bool.
Variable term_bitsize : term_table_t → term_t → Z.
Variable bvconst64_term_desc : term_table_t → term_t → bvconst64_term_t.
Variable bvconst_term_desc : term_table_t → term_t → bvconst_term_t.
Variable bvarray_term_desc : term_table_t → term_t → TermUtils.composite_term_t.
Variable bvconst_tst_bit : list Z → Z → bool.
Variables true_term false_term NULL_TERM : term_t.

#[local] Abbreviation wf_term := (wf_bv64_term term_table_t term_kind is_bitvector_term
                       term_bitsize bvconst64_term_desc bvarray_term_desc).
#[local] Abbreviation value_of := (term_value term_table_t term_kind term_bitsize
                        bvconst64_term_desc bvarray_term_desc).

(** X8. For a bit-vector term of 1 to 64 bits, [lower_bound_unsigned64] and
    [upper_bound_unsigned64] return, and every value that the term can
    take lies between the two results. *)
Theorem term_bounds_unsigned64 (tbl : term_table_t) (t : term_t)
    (Hwf : wf_term tbl t) :
  ∃ lo hi,
    lower_bound_unsigned64 NDEBUG term_table_t term_kind is_bitvector_term
      bvconst64_term_desc bvarray_term_desc true_term tbl t = Done lo
    ∧ upper_bound_unsigned64 NDEBUG term_table_t term_kind is_bitvector_term
        term_bitsize bvconst64_term_desc bvarray_term_desc false_term tbl t
      = Done hi
    ∧ ∀ val v, valuation true_term false_term val → value_of tbl val t v →
               lo ≤ v ≤ hi.
Proof.
  destruct Hwf as (Hbv & Hn & Hkind).
  unfold lower_bound_unsigned64, upper_bound_unsigned64, term_value.
  rewrite Hbv. rewrite !assert_true by done. simpl.
  assert (assert NDEBUG ((1 <=? term_bitsize tbl t) && (term_bitsize tbl t <=? 64))
          = Done ()) as Hsize.
  { apply assert_true. rewrite andb_true_iff, !Z.leb_le. lia. }
  assert (2 ^ term_bitsize tbl t - 1 = mask64 (term_bitsize tbl t)) as Hmask.
  { unfold mask64. by rewrite Z.ones_equiv, Z.sub_1_r. }
  destruct (term_kind tbl t); rewrite ?Hsize; simpl;
    try (eexists _, _; split_and!; [reflexivity..|];
         intros val v _ Hv; lia).
  destruct Hkind as [Hwfa Har].
  destruct (bitarray_unsigned64_values NDEBUG true_term false_term _ Hwfa)
    as (lo & hi & -> & -> & _ & _ & Hb & _); [lia|].
  exists lo, hi. split_and!; [done..|]. intros val v Hval ->. by apply Hb.
Qed.

(** X9. For a bit-vector term of 1 to 64 bits, [lower_bound_signed64] and
    [upper_bound_signed64] return, and every value that the term can
    take, read in two's complement, lies between the two results read in
    two's complement. *)
Theorem term_bounds_signed64 (tbl : term_table_t) (t : term_t)
    (Hwf : wf_term tbl t) :
  ∃ lo hi,
    lower_bound_signed64 NDEBUG term_table_t term_kind is_bitvector_term
      term_bitsize bvconst64_term_desc bvarray_term_desc true_term false_term
      tbl t = Done lo
    ∧ upper_bound_signed64 NDEBUG term_table_t term_kind is_bitvector_term
        term_bitsize bvconst64_term_desc bvarray_term_desc true_term false_term
        tbl t = Done hi
    ∧ ∀ val v, valuation true_term false_term val → value_of tbl val t v →
               signed (term_bitsize tbl t) lo ≤ signed (term_bitsize tbl t) v
               ≤ signed (term_bitsize tbl t) hi.
Proof.
  destruct Hwf as (Hbv & Hn & Hkind).
  unfold lower_bound_signed64, upper_bound_signed64, term_value.
  rewrite Hbv. rewrite !assert_true by done. simpl.
  destruct (term_kind tbl t); simpl;
    try (eexists _, _; split_and!; [reflexivity..|];
         intros val v _ Hv; first [apply signed_range; lia | subst v; lia]).
  destruct Hkind as [Hwfa Har].
  destruct (bitarray_signed64_values NDEBUG true_term false_term _ Hwfa)
    as (lo & hi & -> & -> & _ & _ & Hb); [lia|].
  exists lo, hi. split_and!; [done..|]. intros val v Hval ->.
  rewrite <- Har. by apply Hb.
Qed.

(** X10. [extract_bit] on a bit-vector term of 1 to 64 bits and a bit index
    within its size returns; for a constant of at most 64 bits and for a
    bit array the term returned has, under every valuation, the value of
    bit [i] of the term; for a term that is neither a constant nor a bit
    array the answer is [NULL_TERM]. *)
Theorem extract_bit_sound (tbl : term_table_t) (t : term_t) (i : Z)
    (Hwf : wf_term tbl t) (Hi : 0 ≤ i < term_bitsize tbl t) :
  ∃ b,
    extract_bit NDEBUG term_table_t term_kind is_bitvector_term term_bitsize
      bvconst64_term_desc bvconst_term_desc bvarray_term_desc bvconst_tst_bit
      true_term false_term NULL_TERM tbl t i = Done b
    ∧ (term_kind tbl t = BV64_CONSTANT ∨ term_kind tbl t = BV_ARRAY →
       ∀ val v, valuation true_term false_term val → value_of tbl val t v →
                val b = Z.testbit v i)
    ∧ (term_kind tbl t ≠ BV64_CONSTANT → term_kind tbl t ≠ BV_CONSTANT →
       term_kind tbl t ≠ BV_ARRAY → b = NULL_TERM).
Proof.
  destruct Hwf as (Hbv & Hn & Hkind).
  unfold extract_bit, term_value. rewrite Hbv.
  rewrite assert_true by (apply Z.gtb_lt; lia). simpl.
  destruct (term_kind tbl t) eqn:Hk; simpl;
    try (eexists; split_and!; [reflexivity| |done];
         intros [?|?]; congruence).
  - eexists. split_and!; [reflexivity| |done].
    intros _ val v [Ht Hf] ->. unfold bool2term, tst_bit64.
    by destruct (Z.testbit _ i).
  - destruct Hkind as [Hwfa Har]. unfold wf_bitarray in Hwfa.
    destruct (read_in_range (TermUtils.arg (bvarray_term_desc tbl t)) i)
      as (x & -> & Hx); [lia|].
    exists x. split_and!; [done| |done].
    intros _ val v _ ->.
    rewrite <- (bitarray_value_testbit val _ _ x Hx).
    by rewrite Z2Nat.id by lia.
Qed.

End TableFacts.

(** ** A table with three terms of four bits *)

(** The terms 20 = the bit array [array1], 22 = the constant 5, and
    24 = a term of another kind. *)
Definition example_kind (_ : unit) (t : term_t) : term_kind_t :=
  if t =? 20 then BV_ARRAY else if t =? 22 then BV64_CONSTANT else BV_DIV.
Definition example_is_bitvector (_ : unit) (t : term_t) : bool := true.
Definition example_bitsize (_ : unit) (t : term_t) : Z := 4.
Definition example_bvconst64 (_ : unit) (t : term_t) : bvconst64_term_t :=
  BvConst64 4 5.
Definition example_bvconst (_ : unit) (t : term_t) : bvconst_term_t :=
  BvConst 4 [5].
Definition example_bvarray (_ : unit) (t : term_t) : TermUtils.composite_term_t :=
  array1.

Lemma example_wf (t : term_t) :
  wf_bv64_term unit example_kind example_is_bitvector example_bitsize
    example_bvconst64 example_bvarray () t.
Proof.
  unfold wf_bv64_term, example_kind, example_bitsize.
  split_and!; [done|lia..|].
  destruct (t =? 20); [done|]. destruct (t =? 22); [|done].
  simpl. lia.
Qed.

Lemma term_bounds_unsigned64_witness :
  lower_bound_unsigned64 false unit example_kind example_is_bitvector
    example_bvconst64 example_bvarray 2 () 20 = Done 1
  ∧ upper_bound_unsigned64 false unit example_kind example_is_bitvector
      example_bitsize example_bvconst64 example_bvarray 3 () 20 = Done 11.
Proof.
  destruct (term_bounds_unsigned64 false unit example_kind example_is_bitvector
              example_bitsize example_bvconst64 example_bvarray 2 3 () 20
              (example_wf 20)) as (lo & hi & Hlo & Hhi & _).
  assert (lo = 1) as -> by (vm_compute in Hlo; congruence).
  assert (hi = 11) as -> by (vm_compute in Hhi; congruence).
  split; [exact Hlo|exact Hhi].
Defined.

Lemma term_bounds_signed64_witness :
  lower_bound_signed64 false unit example_kind example_is_bitvector
    example_bitsize example_bvconst64 example_bvarray 2 3 () 24 = Done 8
  ∧ upper_bound_signed64 false unit example_kind example_is_bitvector
      example_bitsize example_bvconst64 example_bvarray 2 3 () 24 = Done 7
  ∧ signed 4 8 = -8 ∧ signed 4 7 = 7.
Proof.
  destruct (term_bounds_signed64 false unit example_kind example_is_bitvector
              example_bitsize example_bvconst64 example_bvarray 2 3 () 24
              (example_wf 24)) as (lo & hi & Hlo & Hhi & _).
  assert (lo = 8) as -> by (vm_compute in Hlo; congruence).
  assert (hi = 7) as -> by (vm_compute in Hhi; congruence).
  split_and!; [exact Hlo|exact Hhi|reflexivity..].
Defined.

Lemma extract_bit_sound_witness :
  extract_bit false unit example_kind example_is_bitvector example_bitsize
    example_bvconst64 example_bvconst example_bvarray (λ _ _, false)
    2 3 (-1) () 20 2 = Done 3
  ∧ extract_bit false unit example_kind example_is_bitvector example_bitsize
      example_bvconst64 example_bvconst example_bvarray (λ _ _, false)
      2 3 (-1) () 24 2 = Done (-1).
Proof.
  split.
  - destruct (extract_bit_sound false unit example_kind example_is_bitvector
                example_bitsize example_bvconst64 example_bvconst
                example_bvarray (λ _ _, false) 2 3 (-1) () 20 2
                (example_wf 20)) as (b & Hb & _);
      [unfold example_bitsize; lia|].
    assert (b = 3) as -> by (vm_compute in Hb; congruence). exact Hb.
  - destruct (extract_bit_sound false unit example_kind example_is_bitvector
                example_bitsize example_bvconst64 example_bvconst
                example_bvarray (λ _ _, false) 2 3 (-1) () 24 2
                (example_wf 24)) as (b & Hb & _ & Hnull);
      [unfold example_bitsize; lia|].
    rewrite Hnull in Hb by done. exact Hb.
Defined.

End BvTerms.

(* ===================================================================== *)
(** * The finite domain of a special if-then-else and its leaves         *)
(* ===================================================================== *)

Module FiniteDomains.
Import TermUtils.
Local Open Scope Z_scope.

(** The constants at the leaves of the if-then-else term [t]: [t] itself
    when it is a constant; the leaves of the then and else parts
    ([arg[1]] and [arg[2]]) when it is a special if-then-else. *)
Inductive leaf (tbl : term_table_t) : term_t → term_t → Prop :=
  | leaf_constant t :
      constant_term tbl t → leaf tbl t t
  | leaf_branch t e d a x :
      tbl !! t = Some e → entry_kind e = ITE_SPECIAL → entry_desc e = Some d →
      arg (body d) !! 1%nat = Some a ∨ arg (body d) !! 2%nat = Some a →
      leaf tbl a x → leaf tbl t x.

(** Every domain stored in the table holds exactly the leaves of its
    term. *)
Definition domains_exact (tbl : term_table_t) : Prop :=
  ∀ t e d dom,
    tbl !! t = Some e → entry_kind e = ITE_SPECIAL → entry_desc e = Some d →
    extra d = Some dom →
    ∀ x, x ∈ data dom ↔ leaf tbl t x.

(** The nodes of [cache] that are not in [S] (the terms whose visit is
    not finished) have their successors in [cache], and the constants of
    [cache] are in [v]. *)
Definition closed (tbl : term_table_t) (S cache : gset term_t)
    (v : list term_t) : Prop :=
  (∀ s, s ∈ cache → constant_term tbl s → s ∈ v)
  ∧ (∀ s e d, s ∈ cache → s ∉ S → tbl !! s = Some e →
       entry_kind e = ITE_SPECIAL → entry_desc e = Some d →
       match extra d with
       | Some dom => ∀ x, x ∈ data dom → x ∈ cache
       | None => ∀ a, arg (body d) !! 1%nat = Some a
                      ∨ arg (body d) !! 2%nat = Some a → a ∈ cache
       end).

Lemma constant_not_special tbl t :
  constant_term tbl t → special_term tbl t → False.
Proof.
  intros (e & He & Hk) (e' & He' & Hk').
  assert (e' = e) as -> by congruence.
  rewrite Hk' in Hk. destruct Hk as [?|[?|?]]; discriminate.
Qed.

Lemma leaf_special_inv tbl t e d c a1 a2 x :
  tbl !! t = Some e → entry_kind e = ITE_SPECIAL → entry_desc e = Some d →
  arg (body d) = [c; a1; a2] →
  leaf tbl t x ↔ leaf tbl a1 x ∨ leaf tbl a2 x.
Proof.
  intros He Hk Hd Harg. split.
  - inversion 1 as [? Hc|? e' d' a ? He' Hk' Hd' Ha Hl]; subst.
    + exfalso. eapply constant_not_special; [done|]. by exists e.
    + assert (e' = e) as -> by congruence.
      assert (d' = d) as -> by congruence.
      rewrite Harg in Ha. simpl in Ha. destruct Ha as [[= ->]|[= ->]]; auto.
  - intros [Hl|Hl]; eapply leaf_branch; eauto; rewrite Harg; simpl; auto.
Qed.

Lemma add_domain_loop_cache l cache v s :
  s ∈ (add_domain_loop cache v l).1 ↔ s ∈ cache ∨ s ∈ l.
Proof.
  revert cache v. induction l as [|t l IH]; intros cache v; simpl.
  - rewrite elem_of_nil. tauto.
  - rewrite IH, elem_of_union, elem_of_singleton, elem_of_cons. tauto.
Qed.

Lemma add_domain_loop_vector l cache v x :
  x ∈ (add_domain_loop cache v l).2 ↔ x ∈ v ∨ (x ∈ l ∧ x ∉ cache).
Proof.
  revert cache v. induction l as [|t l IH]; intros cache v; simpl.
  - rewrite elem_of_nil. tauto.
  - rewrite IH, not_elem_of_union, not_elem_of_singleton, elem_of_cons.
    unfold ivector_push. destruct (decide (x = t)) as [->|Hne].
    + case_bool_decide as Hin.
      * rewrite elem_of_app, list_elem_of_singleton. tauto.
      * tauto.
    + case_bool_decide as Hin.
      * rewrite elem_of_app, list_elem_of_singleton. tauto.
      * tauto.
Qed.

Lemma closed_mono tbl S cache v cache' v' :
  closed tbl S cache v →
  cache ⊆ cache' → (∀ x, x ∈ v → x ∈ v') →
  (∀ s, s ∈ cache' → s ∉ cache → constant_term tbl s → s ∈ v') →
  (∀ s e d, s ∈ cache' → s ∉ cache → s ∉ S → tbl !! s = Some e →
     entry_kind e = ITE_SPECIAL → entry_desc e = Some d →
     match extra d with
     | Some dom => ∀ x, x ∈ data dom → x ∈ cache'
     | None => ∀ a, arg (body d) !! 1%nat = Some a
                    ∨ arg (body d) !! 2%nat = Some a → a ∈ cache'
     end) →
  closed tbl S cache' v'.
Proof.
  intros [Hc Hs] Hsub Hv Hnewc Hnews. split.
  - intros s Hin Hconst. destruct (decide (s ∈ cache)); [|by apply Hnewc].
    apply Hv. by apply Hc.
  - intros s e d Hin HS He Hk Hd.
    destruct (decide (s ∈ cache)) as [Hold|Hnew]; [|by eapply Hnews].
    specialize (Hs s e d Hold HS He Hk Hd).
    destruct (extra d); intros; apply Hsub; by apply Hs.
Qed.

Lemma closed_finish tbl S cache v t :
  closed tbl ({[t]} ∪ S) cache v →
  (∀ e d, tbl !! t = Some e → entry_kind e = ITE_SPECIAL →
     entry_desc e = Some d →
     match extra d with
     | Some dom => ∀ x, x ∈ data dom → x ∈ cache
     | None => ∀ a, arg (body d) !! 1%nat = Some a
                    ∨ arg (body d) !! 2%nat = Some a → a ∈ cache
     end) →
  closed tbl S cache v.
Proof.
  intros [Hc Hs] Ht. split; [done|].
  intros s e d Hin HS He Hk Hd.
  destruct (decide (s = t)) as [->|Hne]; [by eapply Ht|].
  eapply Hs; eauto. set_solver.
Qed.

Section Collect.
Variable NDEBUG : bool.
Variable tbl : term_table_t.
Hypothesis Htbl : table_ok tbl.

(** What [collect_finite_domain] leaves when it returns: [t] is visited,
    nothing is removed, and the terms visited are closed under
    successors, but for those whose visit is not finished. *)
Lemma collect_finite_domain_closed fuel S cache v t cache' v' :
  collect_finite_domain NDEBUG fuel tbl cache v t = Done (cache', v') →
  closed tbl S cache v →
  closed tbl S cache' v' ∧ t ∈ cache' ∧ cache ⊆ cache'
  ∧ (∀ x, x ∈ v → x ∈ v').
Proof.
  revert S cache v t cache' v'.
  induction fuel as [|fuel IH]; intros S cache v t cache' v' Hrun Hcl; [done|].
  simpl in Hrun. case_bool_decide as Hin.
  2:{ injection Hrun as <- <-. split_and!; [|set_solver..|done].
      eapply closed_mono; [done|set_solver|done|set_solver|set_solver]. }
  unfold term_kind in Hrun.
  destruct (tbl !! t) as [e|] eqn:He; [|done]. simpl in Hrun.
  destruct (decide (entry_kind e = ITE_SPECIAL)) as [Hk|Hk].
  - destruct (Htbl t e He Hk)
      as (d & c & a1 & a2 & Hd & Har & Harg & Ha1 & Ha2 & Hex).
    assert (special_term tbl t) as Hspecial by (by exists e).
    unfold ite_special_desc in Hrun. rewrite He in Hrun.
    destruct e as [k od]. simpl in *. subst od. simpl in Hrun.
    destruct (extra d) as [dm|] eqn:Hextra.
    + destruct (Hex dm eq_refl) as (Hlen & Hsorted & Hconst).
      unfold add_domain in Hrun. rewrite Hlen, Nat2Z.id, firstn_all in Hrun.
      pose proof (add_domain_loop_cache (data dm) ({[t]} ∪ cache) v) as Hc'.
      pose proof (add_domain_loop_vector (data dm) ({[t]} ∪ cache) v) as Hv'.
      destruct (add_domain_loop _ _ _) as [c1 v1]. injection Hrun as <- <-.
      simpl in *. rewrite Forall_forall in Hconst.
      assert (cache ⊆ c1) as Hsub.
      { intros s Hs. apply Hc'. left. set_solver. }
      split_and!; [|apply Hc'; left; set_solver|done|intros x Hx; apply Hv'; auto].
      eapply closed_mono; [done|done|intros x Hx; apply Hv'; auto|..].
      * intros s [[->%elem_of_singleton|?]%elem_of_union|Hs]%Hc' Hnew Hcs.
        -- exfalso. by eapply constant_not_special.
        -- done.
        -- apply Hv'. right. split; [done|].
           intros [->%elem_of_singleton|?]%elem_of_union; [|done].
           by eapply constant_not_special.
      * intros s e' d' [[->%elem_of_singleton|?]%elem_of_union|Hs]%Hc'
          Hnew HS He' Hk' Hd'.
        -- rewrite He in He'. injection He' as <-. simpl in Hd'.
           injection Hd' as <-. rewrite Hextra.
           intros x Hx. apply Hc'. by right.
        -- done.
        -- exfalso. eapply constant_not_special; [by apply Hconst|].
           by exists e'.
    + rewrite Harg in Hrun. simpl in Hrun.
      assert (closed tbl ({[t]} ∪ S) ({[t]} ∪ cache) v) as Hcl0.
      { apply (closed_mono tbl ({[t]} ∪ S) cache v ({[t]} ∪ cache) v);
          [|set_solver|done|..].
        - destruct Hcl as [Hc Hs]. split; [done|].
          intros s e' d' ? HS.  apply Hs; [done|set_solver].
        - intros s [->%elem_of_singleton|?]%elem_of_union Hnew Hcs; [|done].
          exfalso. by eapply constant_not_special.
        - intros s e' d' [->%elem_of_singleton|?]%elem_of_union Hnew HS;
            [|done]. set_solver. }
      destruct (collect_finite_domain NDEBUG fuel tbl ({[t]} ∪ cache) v a1)
        as [[c1 v1]| | |] eqn:E1; try done. simpl in Hrun.
      destruct (IH _ _ _ _ _ _ E1 Hcl0) as (Hcl1 & Hin1 & Hsub1 & Hv1).
      destruct (IH _ _ _ _ _ _ Hrun Hcl1) as (Hcl2 & Hin2 & Hsub2 & Hv2).
      split_and!; [|set_solver..|auto].
      eapply closed_finish; [done|].
      intros e' d' He' _ Hd'. rewrite He in He'. injection He' as <-.
      simpl in Hd'. injection Hd' as <-. rewrite Hextra, Harg. simpl.
      intros a [[= <-]|[= <-]]; [set_solver|done].
  - destruct (assert NDEBUG _); try done. simpl in Hrun.
    injection Hrun as <- <-. unfold ivector_push.
    split_and!; [|set_solver..|intros x Hx; apply elem_of_app; auto].
    eapply closed_mono; [done|set_solver|intros x Hx; apply elem_of_app; auto|..].
    + intros s [->%elem_of_singleton|?]%elem_of_union Hnew _; [|done].
      apply elem_of_app. right. by apply list_elem_of_singleton.
    + intros s e' d' [->%elem_of_singleton|?]%elem_of_union Hnew _ He' Hk';
        [|done]. congruence.
Qed.

Hypothesis Hexact : domains_exact tbl.

(** Every constant that [collect_finite_domain] adds is a leaf of [t]. *)
Lemma collect_finite_domain_sound fuel cache v t cache' v' :
  collect_finite_domain NDEBUG fuel tbl cache v t = Done (cache', v') →
  special_term tbl t ∨ constant_term tbl t →
  ∀ x, x ∈ v' → x ∈ v ∨ leaf tbl t x.
Proof.
  revert cache v t cache' v'.
  induction fuel as [|fuel IH]; intros cache v t cache' v' Hrun Ht; [done|].
  simpl in Hrun. case_bool_decide as Hin.
  2:{ injection Hrun as <- <-. auto. }
  unfold term_kind in Hrun.
  destruct (tbl !! t) as [e|] eqn:He; [|done]. simpl in Hrun.
  destruct (decide (entry_kind e = ITE_SPECIAL)) as [Hk|Hk].
  - destruct (Htbl t e He Hk)
      as (d & c & a1 & a2 & Hd & Har & Harg & Ha1 & Ha2 & Hex).
    pose proof (leaf_special_inv tbl t e d c a1 a2) as Hleaf.
    unfold ite_special_desc in Hrun. rewrite He in Hrun.
    destruct e as [k od]. simpl in *. subst od. simpl in Hrun.
    destruct (extra d) as [dm|] eqn:Hextra.
    + destruct (Hex dm eq_refl) as (Hlen & Hsorted & Hconst).
      unfold add_domain in Hrun. rewrite Hlen, Nat2Z.id, firstn_all in Hrun.
      pose proof (add_domain_loop_vector (data dm) ({[t]} ∪ cache) v) as Hv'.
      destruct (add_domain_loop _ _ _) as [c1 v1]. injection Hrun as <- <-.
      intros x [?|[Hx _]]%Hv'; [auto|]. right.
      by apply (Hexact t (Entry k (Some d)) d dm).
    + rewrite Harg in Hrun. simpl in Hrun.
      destruct (collect_finite_domain NDEBUG fuel tbl ({[t]} ∪ cache) v a1)
        as [[c1 v1]| | |] eqn:E1; try done. simpl in Hrun.
      intros x Hx.
      destruct (IH _ _ _ _ _ Hrun Ha2 x Hx) as [Hx1|Hl2].
      * destruct (IH _ _ _ _ _ E1 Ha1 x Hx1) as [?|Hl1]; [auto|].
        right. apply Hleaf; auto.
      * right. apply Hleaf; auto.
  - destruct (assert NDEBUG _); try done. simpl in Hrun.
    injection Hrun as <- <-. unfold ivector_push.
    intros x [?| ->%list_elem_of_singleton]%elem_of_app; [auto|].
    right. apply leaf_constant.
    destruct Ht as [(e' & He' & Hk')|?]; [congruence|done].
Qed.

(** In a closed set of visited terms, with no visit unfinished, the
    leaves of a visited term have been collected. *)
Lemma closed_leaf cache v s x :
  closed tbl ∅ cache v → leaf tbl s x → s ∈ cache → x ∈ v.
Proof.
  intros [Hc Hs]. induction 1 as [t Hconst|t e d a x He Hk Hd Ha Hl IH];
    intros Hin; [by apply Hc|].
  pose proof (Hs t e d Hin (not_elem_of_empty t) He Hk Hd) as Hsucc.
  destruct (extra d) as [dm|] eqn:Hextra.
  - assert (x ∈ data dm) as Hx.
    { apply (Hexact t e d dm); [done..|]. by eapply leaf_branch. }
    destruct (Htbl t e He Hk) as (d' & _ & _ & _ & Hd' & _ & _ & _ & _ & Hex).
    assert (d' = d) as -> by congruence.
    destruct (Hex dm Hextra) as (_ & _ & Hconst).
    rewrite Forall_forall in Hconst. apply Hc; [by apply Hsucc|by apply Hconst].
  - apply IH. by apply Hsucc.
Qed.

End Collect.

Lemma leaf_set_extra tbl t dom s x :
  leaf (set_extra tbl t dom) s x ↔ leaf tbl s x.
Proof.
  split.
  - induction 1 as [s Hc|s e d a x He Hk Hd Ha _ IH].
    + apply leaf_constant. by apply constant_term_set_extra in Hc.
    + unfold set_extra in He. destruct (decide (t = s)) as [->|Hne].
      * rewrite lookup_alter_eq in He.
        destruct (tbl !! s) as [e0|] eqn:He0; [|done].
        injection He as <-. simpl in *.
        destruct (entry_desc e0) as [d0|] eqn:Hd0; [|done].
        injection Hd as <-. simpl in Ha. by eapply leaf_branch.
      * rewrite lookup_alter_ne in He by done. by eapply leaf_branch.
  - induction 1 as [s Hc|s e d a x He Hk Hd Ha _ IH].
    + apply leaf_constant. by apply constant_term_set_extra.
    + destruct (decide (t = s)) as [->|Hne].
      * eapply (leaf_branch _ s _ (Special (Some dom) (body d)) a); [..|done].
        -- unfold set_extra. by rewrite lookup_alter_eq, He.
        -- done.
        -- simpl. by rewrite Hd.
        -- done.
      * eapply leaf_branch; [..|done]; [|done..].
        unfold set_extra. by rewrite lookup_alter_ne.
Qed.

Section Exact.
Variable NDEBUG : bool.
Variable MAX_FINITE_DOMAIN_SIZE : Z.
Variable int_array_sort : list term_t → list term_t.
Hypothesis sort_sorted : ∀ l, Sorted Z.le (int_array_sort l).
Hypothesis sort_perm : ∀ l, int_array_sort l ≡ₚ l.

Lemma build_ite_finite_domain_exact tbl fuel d c a1 a2 dom :
  table_ok tbl → domains_exact tbl →
  arg d = [c; a1; a2] →
  special_term tbl a1 ∨ constant_term tbl a1 →
  special_term tbl a2 ∨ constant_term tbl a2 →
  build_ite_finite_domain NDEBUG MAX_FINITE_DOMAIN_SIZE int_array_sort
    fuel tbl d = Done dom →
  ∀ x, x ∈ data dom ↔ leaf tbl a1 x ∨ leaf tbl a2 x.
Proof.
  intros Htbl Hexact Harg Ha1 Ha2 Hrun x. unfold build_ite_finite_domain in Hrun.
  destruct (assert NDEBUG _); try done. simpl in Hrun.
  rewrite Harg in Hrun. simpl in Hrun.
  destruct (collect_finite_domain NDEBUG fuel tbl ∅ [] a1)
    as [[c1 v1]| | |] eqn:E1; try done. simpl in Hrun.
  destruct (collect_finite_domain NDEBUG fuel tbl c1 v1 a2)
    as [[c2 v2]| | |] eqn:E2; try done. simpl in Hrun.
  unfold make_finite_domain in Hrun.
  destruct (assert NDEBUG _); try done. simpl in Hrun.
  injection Hrun as <-. simpl. rewrite Nat2Z.id, firstn_all, sort_perm.
  assert (closed tbl ∅ ∅ []) as Hcl0.
  { split; [set_solver|]. intros s e d' Hs. set_solver. }
  destruct (collect_finite_domain_closed NDEBUG tbl Htbl fuel ∅ _ _ _ _ _ E1 Hcl0)
    as (Hcl1 & Hin1 & _ & _).
  destruct (collect_finite_domain_closed NDEBUG tbl Htbl fuel ∅ _ _ _ _ _ E2 Hcl1)
    as (Hcl2 & Hin2 & Hsub2 & _).
  split.
  - intros Hx.
    destruct (collect_finite_domain_sound NDEBUG tbl Htbl Hexact fuel
                _ _ _ _ _ E2 Ha2 x Hx) as [Hx1|?]; [|auto].
    destruct (collect_finite_domain_sound NDEBUG tbl Htbl Hexact fuel
                _ _ _ _ _ E1 Ha1 x Hx1) as [Hx0|?]; [|auto].
    by apply elem_of_nil in Hx0.
  - intros [Hl|Hl]; eapply (closed_leaf tbl Htbl Hexact); eauto.
Qed.

Lemma special_ite_get_finite_domain_exact (tbl : term_table_t) (t : term_t)
    (fuel : nat)
    (Htbl : table_ok tbl) (Hexact : domains_exact tbl)
    (Hsize : NDEBUG = true ∨ Z.of_nat (size tbl) ≤ MAX_FINITE_DOMAIN_SIZE)
    (Ht : special_term tbl t) (Hfuel : (size tbl < fuel)%nat) :
  ∃ dom tbl',
    special_ite_get_finite_domain NDEBUG MAX_FINITE_DOMAIN_SIZE
      int_array_sort fuel tbl t = Done (dom, tbl')
    ∧ (∀ x, x ∈ data dom ↔ leaf tbl t x)
    ∧ (∀ s x, leaf tbl' s x ↔ leaf tbl s x)
    ∧ table_ok tbl' ∧ domains_exact tbl'.
Proof.
  destruct (special_ite_get_finite_domain_spec NDEBUG MAX_FINITE_DOMAIN_SIZE
              int_array_sort sort_sorted sort_perm tbl Htbl Hsize fuel t Ht Hfuel)
    as (dom & tbl' & Hget & _ & Htbl' & _).
  exists dom, tbl'. split; [done|].
  destruct Ht as (e & He & Hk).
  destruct (Htbl t e He Hk) as (d & c & a1 & a2 & Hd & Har & Harg & Ha1 & Ha2 & Hex).
  unfold special_ite_get_finite_domain, ite_special_desc in Hget.
  rewrite He in Hget. destruct e as [k od]. simpl in *. subst od k.
  simpl in Hget. destruct (extra d) as [dm|] eqn:Hextra; simpl in Hget.
  - injection Hget as <- <-. split_and!; [|done..].
    by apply (Hexact t (Entry ITE_SPECIAL (Some d)) d dm).
  - destruct (build_ite_finite_domain _ _ _ _ _ _) as [dm| | |] eqn:Hbuild;
      try done.
    simpl in Hget. injection Hget as <- <-.
    assert (∀ x, x ∈ data dm ↔ leaf tbl t x) as Hdom.
    { intros x.
      rewrite (build_ite_finite_domain_exact tbl fuel (body d) c a1 a2 dm)
        by done.
      symmetry. by eapply leaf_special_inv. }
    split_and!; [done|intros s x; apply leaf_set_extra|done|].
    intros s e' d' dom' He' Hk' Hd' Hextra' x.
    rewrite leaf_set_extra. unfold set_extra in He'.
    destruct (decide (t = s)) as [->|Hne].
    + rewrite lookup_alter_eq, He in He'. simpl in He'.
      injection He' as <-. simpl in Hd'. injection Hd' as <-.
      simpl in Hextra'. injection Hextra' as <-. apply Hdom.
    + rewrite lookup_alter_ne in He' by done. by eapply Hexact.
Qed.

(** X11. With an [int_array_sort] that sorts in increasing order, on a
    well-formed table whose stored domains hold the leaves of their
    terms: the domain that [special_ite_get_finite_domain] returns for a
    special if-then-else [t] holds exactly the constants at the leaves of
    [t], and the table returned has the same leaves and stored domains
    that hold them. *)
Theorem finite_domain_holds_the_leaves (tbl : term_table_t) (t : term_t)
    (fuel : nat)
    (Htbl : table_ok tbl) (Hexact : domains_exact tbl)
    (Hsize : NDEBUG = true ∨ Z.of_nat (size tbl) ≤ MAX_FINITE_DOMAIN_SIZE)
    (Ht : special_term tbl t) (Hfuel : (size tbl < fuel)%nat) :
  ∃ dom tbl',
    special_ite_get_finite_domain NDEBUG MAX_FINITE_DOMAIN_SIZE
      int_array_sort fuel tbl t = Done (dom, tbl')
    ∧ (∀ x, x ∈ data dom ↔ leaf tbl t x)
    ∧ (∀ s x, leaf tbl' s x ↔ leaf tbl s x)
    ∧ table_ok tbl' ∧ domains_exact tbl'.
Proof.
  exact (special_ite_get_finite_domain_exact tbl t fuel Htbl Hexact Hsize Ht
           Hfuel).
Qed.

End Exact.

(** ** Domains of rational constants: signs *)

(** [q_is_neg] and [q_is_nonneg] of [terms/rationals.h], on exact
    rationals. *)
Definition q_is_neg (q : Qc) : bool := bool_decide (q < 0)%Qc.
Definition q_is_nonneg (q : Qc) : bool := bool_decide (0 ≤ q)%Qc.

Section Sign.
Variable NDEBUG : bool.
Variable MAX_FINITE_DOMAIN_SIZE : Z.
Variable int_array_sort : list term_t → list term_t.
(** [rational_term_desc(tbl, t)]: the rational of a constant term, which
    is not in the part of the table that [term_table_t] holds. *)
Variable rational_term_desc : term_table_t → term_t → Qc.

Fixpoint finite_domain_is_nonneg_loop (count : nat) (i : Z)
    (tbl : term_table_t) (d : finite_domain_t) : outcome bool :=
  match count with
  | O => Done true
  | S count =>
      t ← read (data d) i;
      if q_is_neg (rational_term_desc tbl t) then Done false
      else finite_domain_is_nonneg_loop count (i + 1) tbl d
  end.

Definition finite_domain_is_nonneg (tbl : term_table_t) (d : finite_domain_t)
  : outcome bool :=
  finite_domain_is_nonneg_loop (Z.to_nat (nelems d)) 0 tbl d.

Fixpoint finite_domain_is_neg_loop (count : nat) (i : Z)
    (tbl : term_table_t) (d : finite_domain_t) : outcome bool :=
  match count with
  | O => Done true
  | S count =>
      t ← read (data d) i;
      if q_is_nonneg (rational_term_desc tbl t) then Done false
      else finite_domain_is_neg_loop count (i + 1) tbl d
  end.

Definition finite_domain_is_neg (tbl : term_table_t) (d : finite_domain_t)
  : outcome bool :=
  finite_domain_is_neg_loop (Z.to_nat (nelems d)) 0 tbl d.

Definition term_has_nonneg_finite_domain (fuel : nat) (tbl : term_table_t)
    (t : term_t) : outcome (bool * term_table_t) :=
  '(d, tbl) ← special_ite_get_finite_domain NDEBUG MAX_FINITE_DOMAIN_SIZE
                int_array_sort fuel tbl t;
  b ← finite_domain_is_nonneg tbl d;
  Done (b, tbl).

Definition term_has_negative_finite_domain (fuel : nat) (tbl : term_table_t)
    (t : term_t) : outcome (bool * term_table_t) :=
  '(d, tbl) ← special_ite_get_finite_domain NDEBUG MAX_FINITE_DOMAIN_SIZE
                int_array_sort fuel tbl t;
  b ← finite_domain_is_neg tbl d;
  Done (b, tbl).

Lemma finite_domain_is_nonneg_loop_spec count i tbl d :
  0 ≤ i → i + Z.of_nat count = Z.of_nat (length (data d)) →
  ∃ b, finite_domain_is_nonneg_loop count i tbl d = Done b
    ∧ (b = true ↔ ∀ j x, i ≤ Z.of_nat j → data d !! j = Some x →
                         (0 ≤ rational_term_desc tbl x)%Qc).
Proof.
  revert i. induction count as [|count IH]; intros i Hi Hlen; simpl.
  - exists true. split; [done|]. split; [|done]. intros _ j x Hj Hx.
    apply lookup_lt_Some in Hx. lia.
  - destruct (read_in_range (data d) i) as (x & -> & Hx); [lia|]. simpl.
    unfold q_is_neg. case_bool_decide as Hneg.
    + exists false. split; [done|]. split; [done|]. intros Hall.
      specialize (Hall (Z.to_nat i) x ltac:(lia) Hx).
      by apply Qcle_ngt in Hall.
    + destruct (IH (i + 1)) as (b & -> & Hb); [lia..|].
      exists b. split; [done|]. rewrite Hb. split.
      * intros Hall j y Hj Hy.
        destruct (decide (Z.of_nat j = i)) as [<-|Hne].
        -- rewrite Nat2Z.id in Hx. assert (y = x) as -> by congruence.
           by apply Qcle_ngt.
        -- apply (Hall j y); [lia|done].
      * intros Hall j y Hj Hy. apply (Hall j y); [lia|done].
Qed.

Lemma finite_domain_is_neg_loop_spec count i tbl d :
  0 ≤ i → i + Z.of_nat count = Z.of_nat (length (data d)) →
  ∃ b, finite_domain_is_neg_loop count i tbl d = Done b
    ∧ (b = true ↔ ∀ j x, i ≤ Z.of_nat j → data d !! j = Some x →
                         (rational_term_desc tbl x < 0)%Qc).
Proof.
  revert i. induction count as [|count IH]; intros i Hi Hlen; simpl.
  - exists true. split; [done|]. split; [|done]. intros _ j x Hj Hx.
    apply lookup_lt_Some in Hx. lia.
  - destruct (read_in_range (data d) i) as (x & -> & Hx); [lia|]. simpl.
    unfold q_is_nonneg. case_bool_decide as Hnn.
    + exists false. split; [done|]. split; [done|]. intros Hall.
      specialize (Hall (Z.to_nat i) x ltac:(lia) Hx).
      by apply Qclt_nge in Hall.
    + destruct (IH (i + 1)) as (b & -> & Hb); [lia..|].
      exists b. split; [done|]. rewrite Hb. split.
      * intros Hall j y Hj Hy.
        destruct (decide (Z.of_nat j = i)) as [<-|Hne].
        -- rewrite Nat2Z.id in Hx. assert (y = x) as -> by congruence.
           by apply Qclt_nge.
        -- apply (Hall j y); [lia|done].
      * intros Hall j y Hj Hy. apply (Hall j y); [lia|done].
Qed.

Lemma finite_domain_signs_spec (tbl : term_table_t) (d : finite_domain_t)
    (Hlen : nelems d = Z.of_nat (length (data d))) :
  ∃ b1 b2,
    finite_domain_is_nonneg tbl d = Done b1
    ∧ finite_domain_is_neg tbl d = Done b2
    ∧ (b1 = true ↔ ∀ x, x ∈ data d → (0 ≤ rational_term_desc tbl x)%Qc)
    ∧ (b2 = true ↔ ∀ x, x ∈ data d → (rational_term_desc tbl x < 0)%Qc)
    ∧ (b1 = true ∧ b2 = true ↔ data d = []).
Proof.
  unfold finite_domain_is_nonneg, finite_domain_is_neg.
  destruct (finite_domain_is_nonneg_loop_spec (Z.to_nat (nelems d)) 0 tbl d)
    as (b1 & -> & Hb1); [lia..|].
  destruct (finite_domain_is_neg_loop_spec (Z.to_nat (nelems d)) 0 tbl d)
    as (b2 & -> & Hb2); [lia..|].
  assert (b1 = true ↔ ∀ x, x ∈ data d → (0 ≤ rational_term_desc tbl x)%Qc)
    as Hb1'.
  { rewrite Hb1. split.
    - intros Hall x [j Hj]%list_elem_of_lookup. apply (Hall j x); [lia|done].
    - intros Hall j x _ Hj. apply Hall. by eapply list_elem_of_lookup_2. }
  assert (b2 = true ↔ ∀ x, x ∈ data d → (rational_term_desc tbl x < 0)%Qc)
    as Hb2'.
  { rewrite Hb2. split.
    - intros Hall x [j Hj]%list_elem_of_lookup. apply (Hall j x); [lia|done].
    - intros Hall j x _ Hj. apply Hall. by eapply list_elem_of_lookup_2. }
  exists b1, b2. split_and!; [done..|]. rewrite Hb1', Hb2'. split.
  - intros [Hnn Hneg]. destruct (data d) as [|x l]; [done|]. exfalso.
    assert (x ∈ x :: l) as Hx by left.
    specialize (Hnn x Hx). specialize (Hneg x Hx). by apply Qcle_ngt in Hnn.
  - intros ->. split; intros x Hx; by apply elem_of_nil in Hx.
Qed.

(** X12. [finite_domain_is_nonneg] and [finite_domain_is_neg] on a domain
    with [nelems] elements return; the first answers true exactly when
    no element is negative, the second exactly when every element is
    negative; both answer true only on the empty domain. *)
Theorem finite_domain_sign_checks (tbl : term_table_t) (d : finite_domain_t)
    (Hlen : nelems d = Z.of_nat (length (data d))) :
  ∃ b1 b2,
    finite_domain_is_nonneg tbl d = Done b1
    ∧ finite_domain_is_neg tbl d = Done b2
    ∧ (b1 = true ↔ ∀ x, x ∈ data d → (0 ≤ rational_term_desc tbl x)%Qc)
    ∧ (b2 = true ↔ ∀ x, x ∈ data d → (rational_term_desc tbl x < 0)%Qc)
    ∧ (b1 = true ∧ b2 = true ↔ data d = []).
Proof. exact (finite_domain_signs_spec tbl d Hlen). Qed.

Hypothesis sort_sorted : ∀ l, Sorted Z.le (int_array_sort l).
Hypothesis sort_perm : ∀ l, int_array_sort l ≡ₚ l.

Lemma term_finite_domain_signs_spec (tbl : term_table_t) (t : term_t)
    (fuel : nat)
    (Htbl : table_ok tbl) (Hexact : domains_exact tbl)
    (Hsize : NDEBUG = true ∨ Z.of_nat (size tbl) ≤ MAX_FINITE_DOMAIN_SIZE)
    (Ht : special_term tbl t) (Hfuel : (size tbl < fuel)%nat) :
  ∃ b1 b2 tbl',
    term_has_nonneg_finite_domain fuel tbl t = Done (b1, tbl')
    ∧ term_has_negative_finite_domain fuel tbl t = Done (b2, tbl')
    ∧ (b1 = true ↔ ∀ x, leaf tbl t x → (0 ≤ rational_term_desc tbl' x)%Qc)
    ∧ (b2 = true ↔ ∀ x, leaf tbl t x → (rational_term_desc tbl' x < 0)%Qc).
Proof.
  destruct (special_ite_get_finite_domain_spec NDEBUG MAX_FINITE_DOMAIN_SIZE
              int_array_sort sort_sorted sort_perm tbl Htbl Hsize fuel t Ht Hfuel)
    as (dom & tbl' & Hget & (Hlen & _) & _).
  destruct (special_ite_get_finite_domain_exact NDEBUG MAX_FINITE_DOMAIN_SIZE
              int_array_sort sort_sorted sort_perm tbl t fuel Htbl Hexact
              Hsize Ht Hfuel) as (dom' & tbl'' & Hget' & Hleaf & _).
  rewrite Hget in Hget'. injection Hget' as <- <-.
  destruct (finite_domain_signs_spec tbl' dom Hlen)
    as (b1 & b2 & Hnn & Hneg & Hb1 & Hb2 & _).
  exists b1, b2, tbl'.
  unfold term_has_nonneg_finite_domain, term_has_negative_finite_domain.
  rewrite Hget. simpl. rewrite Hnn, Hneg. simpl.
  split_and!; [done..| |].
  - rewrite Hb1. split; intros Hall x Hx; apply Hall; by apply Hleaf.
  - rewrite Hb2. split; intros Hall x Hx; apply Hall; by apply Hleaf.
Qed.

(** X13. With an [int_array_sort] that sorts in increasing order, on a
    well-formed table whose stored domains hold the leaves of their
    terms: [term_has_nonneg_finite_domain] answers true exactly when no
    constant at a leaf of [t] is negative, and
    [term_has_negative_finite_domain] exactly when every constant at a
    leaf of [t] is negative. *)
Theorem term_sign_is_the_sign_of_the_leaves (tbl : term_table_t) (t : term_t)
    (fuel : nat)
    (Htbl : table_ok tbl) (Hexact : domains_exact tbl)
    (Hsize : NDEBUG = true ∨ Z.of_nat (size tbl) ≤ MAX_FINITE_DOMAIN_SIZE)
    (Ht : special_term tbl t) (Hfuel : (size tbl < fuel)%nat) :
  ∃ b1 b2 tbl',
    term_has_nonneg_finite_domain fuel tbl t = Done (b1, tbl')
    ∧ term_has_negative_finite_domain fuel tbl t = Done (b2, tbl')
    ∧ (b1 = true ↔ ∀ x, leaf tbl t x → (0 ≤ rational_term_desc tbl' x)%Qc)
    ∧ (b2 = true ↔ ∀ x, leaf tbl t x → (rational_term_desc tbl' x < 0)%Qc).
Proof.
  exact (term_finite_domain_signs_spec tbl t fuel Htbl Hexact Hsize Ht Hfuel).
Qed.

End Sign.

(** ** Membership and disjointness, in terms of the leaves *)

Lemma size_set_extra tbl t dom : size (set_extra tbl t dom) = size tbl.
Proof.
  unfold set_extra. rewrite <- (size_dom (alter _ _ _)), dom_alter_L.
  apply size_dom.
Qed.

Lemma domain_ok_length_le_size tbl dom :
  domain_ok tbl dom → nelems dom ≤ Z.of_nat (size tbl).
Proof.
  intros (Hlen & Hsorted & Hconst). rewrite Hlen, <- (size_dom tbl).
  apply inj_le, NoDup_length_le_size.
  - by apply StronglySorted_lt_NoDup.
  - intros x Hx. rewrite Forall_forall in Hconst.
    destruct (Hconst x Hx) as (e & He & _). by apply elem_of_dom_2 in He.
Qed.

Lemma two_elements_length (l : list Z) x y :
  x ≠ y → x ∈ l → y ∈ l → 2 ≤ Z.of_nat (length l).
Proof.
  intros Hne Hx Hy. destruct l as [|a [|b l]]; simpl; [|
    apply list_elem_of_singleton in Hx; apply list_elem_of_singleton in Hy;
    congruence|lia].
  by apply elem_of_nil in Hx.
Qed.

Lemma one_element_length (l : list Z) x : x ∈ l → 1 ≤ Z.of_nat (length l).
Proof. destruct l; simpl; [by intros ?%elem_of_nil|lia]. Qed.

Section Decide.
Variable NDEBUG : bool.
Variable MAX_FINITE_DOMAIN_SIZE : Z.
Variable int_array_sort : list term_t → list term_t.
Hypothesis sort_sorted : ∀ l, Sorted Z.le (int_array_sort l).
Hypothesis sort_perm : ∀ l, int_array_sort l ≡ₚ l.

#[local] Abbreviation get_domain :=
  (special_ite_get_finite_domain NDEBUG MAX_FINITE_DOMAIN_SIZE int_array_sort).

Lemma get_domain_table tbl t fuel dom tbl' :
  get_domain fuel tbl t = Done (dom, tbl') →
  tbl' = tbl ∨ tbl' = set_extra tbl t dom.
Proof.
  unfold special_ite_get_finite_domain.
  destruct (ite_special_desc tbl t) as [d| | |]; try done. simpl.
  destruct (extra d); simpl.
  - intros [= <- <-]. by left.
  - destruct (build_ite_finite_domain _ _ _ _ _ _); try done. simpl.
    intros [= <- <-]. by right.
Qed.

Lemma get_domain_spec tbl t fuel :
  table_ok tbl → domains_exact tbl →
  NDEBUG = true ∨ Z.of_nat (size tbl) ≤ MAX_FINITE_DOMAIN_SIZE →
  special_term tbl t → (size tbl < fuel)%nat →
  ∃ dom tbl',
    get_domain fuel tbl t = Done (dom, tbl')
    ∧ domain_ok tbl' dom
    ∧ nelems dom ≤ Z.of_nat (size tbl)
    ∧ (∀ x, x ∈ data dom ↔ leaf tbl t x)
    ∧ (∀ s x, leaf tbl' s x ↔ leaf tbl s x)
    ∧ table_ok tbl' ∧ domains_exact tbl'
    ∧ size tbl' = size tbl
    ∧ (∀ s, special_term tbl' s ↔ special_term tbl s).
Proof.
  intros Htbl Hexact Hsize Ht Hfuel.
  destruct (special_ite_get_finite_domain_spec NDEBUG MAX_FINITE_DOMAIN_SIZE
              int_array_sort sort_sorted sort_perm tbl Htbl Hsize fuel t Ht Hfuel)
    as (dom & tbl' & Hget & Hdom & _).
  destruct (special_ite_get_finite_domain_exact NDEBUG MAX_FINITE_DOMAIN_SIZE
              int_array_sort sort_sorted sort_perm tbl t fuel Htbl Hexact
              Hsize Ht Hfuel) as (dom' & tbl'' & Hget' & Hleaf & Hsame & Hok & Hex).
  rewrite Hget in Hget'. injection Hget' as <- <-.
  assert (size tbl' = size tbl ∧ ∀ s, special_term tbl' s ↔ special_term tbl s)
    as [Hsz Hsp].
  { destruct (get_domain_table _ _ _ _ _ Hget) as [->| ->]; [done|].
    split; [apply size_set_extra|]. intros s. apply special_term_set_extra. }
  exists dom, tbl'. split_and!; try done.
  rewrite <- Hsz. by apply domain_ok_length_le_size.
Qed.

Lemma term_is_in_finite_domain_leaf_spec (tbl : term_table_t)
    (t u : term_t) (fuel : nat)
    (Htbl : table_ok tbl) (Hexact : domains_exact tbl)
    (Hsize : NDEBUG = true ∨ Z.of_nat (size tbl) ≤ MAX_FINITE_DOMAIN_SIZE)
    (Hsmall : Z.of_nat (size tbl) < 2 ^ 31)
    (Ht : special_term tbl t) (Hfuel : (size tbl < fuel)%nat)
    (Hleaves : (∃ x y, x ≠ y ∧ leaf tbl t x ∧ leaf tbl t y)
               ∨ (NDEBUG = true ∧ ∃ x, leaf tbl t x)) :
  ∃ b tbl',
    term_is_in_finite_domain NDEBUG MAX_FINITE_DOMAIN_SIZE int_array_sort
      fuel tbl t u = Done (b, tbl')
    ∧ (b = true ↔ leaf tbl t u)
    ∧ (∀ s x, leaf tbl' s x ↔ leaf tbl s x).
Proof.
  destruct (get_domain_spec tbl t fuel Htbl Hexact Hsize Ht Hfuel)
    as (dom & tbl' & Hget & (Hlen & Hsorted & _) & Hle & Hleaf & Hsame & _).
  destruct (term_is_in_finite_domain_spec NDEBUG MAX_FINITE_DOMAIN_SIZE
              int_array_sort tbl fuel t u dom tbl' Hget Hlen Hsorted)
    as (b & Hrun & Hb); [|lia..|].
  - rewrite Hlen.
    destruct Hleaves as [(x & y & Hne & Hx & Hy)|[Hnd [x Hx]]].
    + left. apply (two_elements_length _ x y Hne); by apply Hleaf.
    + right. split; [done|]. apply (one_element_length _ x). by apply Hleaf.
  - exists b, tbl'. split_and!; [done| |done]. by rewrite Hb.
Qed.

(** X14. With an [int_array_sort] that sorts in increasing order, on a
    well-formed table of fewer than 2^31 terms whose stored domains hold
    the leaves of their terms: [term_is_in_finite_domain(tbl, t, u)] on a
    special if-then-else [t] with two distinct leaves (one leaf is enough
    when the assertions are compiled out) returns, and answers true exactly
    when [u] is a constant at a leaf of [t]. *)
Theorem term_is_in_finite_domain_decides_leaf (tbl : term_table_t)
    (t u : term_t) (fuel : nat)
    (Htbl : table_ok tbl) (Hexact : domains_exact tbl)
    (Hsize : NDEBUG = true ∨ Z.of_nat (size tbl) ≤ MAX_FINITE_DOMAIN_SIZE)
    (Hsmall : Z.of_nat (size tbl) < 2 ^ 31)
    (Ht : special_term tbl t) (Hfuel : (size tbl < fuel)%nat)
    (Hleaves : (∃ x y, x ≠ y ∧ leaf tbl t x ∧ leaf tbl t y)
               ∨ (NDEBUG = true ∧ ∃ x, leaf tbl t x)) :
  ∃ b tbl',
    term_is_in_finite_domain NDEBUG MAX_FINITE_DOMAIN_SIZE int_array_sort
      fuel tbl t u = Done (b, tbl')
    ∧ (b = true ↔ leaf tbl t u)
    ∧ (∀ s x, leaf tbl' s x ↔ leaf tbl s x).
Proof.
  exact (term_is_in_finite_domain_leaf_spec tbl t u fuel Htbl Hexact Hsize
           Hsmall Ht Hfuel Hleaves).
Qed.

Lemma terms_have_disjoint_finite_domains_leaf_spec (tbl : term_table_t)
    (t u : term_t) (fuel : nat)
    (Htbl : table_ok tbl) (Hexact : domains_exact tbl)
    (Hsize : NDEBUG = true ∨ Z.of_nat (size tbl) ≤ MAX_FINITE_DOMAIN_SIZE)
    (Hsmall : Z.of_nat (size tbl) < 2 ^ 32)
    (Ht : special_term tbl t) (Hu : special_term tbl u)
    (Hfuel : (size tbl < fuel)%nat ∧ (2 * size tbl ≤ fuel)%nat)
    (Hlt : ∃ x, leaf tbl t x) (Hlu : ∃ x, leaf tbl u x) :
  ∃ b tbl',
    terms_have_disjoint_finite_domains NDEBUG MAX_FINITE_DOMAIN_SIZE
      int_array_sort fuel tbl t u = Done (b, tbl')
    ∧ (b = true ↔ ∀ x, leaf tbl t x → ¬ leaf tbl u x)
    ∧ (∀ s x, leaf tbl' s x ↔ leaf tbl s x).
Proof.
  destruct Hfuel as [Hfuel Hfuel2].
  destruct (get_domain_spec tbl t fuel Htbl Hexact Hsize Ht Hfuel)
    as (d1 & tbl1 & Hget1 & (Hlen1 & Hsorted1 & _) & Hle1 & Hleaf1 & Hsame1
        & Hok1 & Hex1 & Hsz1 & Hsp1).
  destruct (get_domain_spec tbl1 u fuel Hok1 Hex1)
    as (d2 & tbl2 & Hget2 & (Hlen2 & Hsorted2 & _) & Hle2 & Hleaf2 & Hsame2 & _).
  { by rewrite Hsz1. }
  { by apply Hsp1. }
  { by rewrite Hsz1. }
  rewrite Hsz1 in Hle2.
  destruct Hlt as [x Hx]. destruct Hlu as [y Hy].
  apply Hleaf1, one_element_length in Hx.
  apply Hsame1, Hleaf2, one_element_length in Hy.
  unfold term_t in *.
  destruct (disjoint_finite_domains_spec NDEBUG d1 d2 Hlen1 Hlen2
              Hsorted1 Hsorted2) with (fuel := fuel) as (b & Hrun & Hb);
    [lia..|].
  exists b, tbl2. unfold terms_have_disjoint_finite_domains.
  rewrite Hget1. simpl. rewrite Hget2. simpl. rewrite Hrun. simpl.
  split_and!; [done| |].
  - rewrite Hb. unfold disjoint_data. split.
    + intros Hd z Hz1 Hz2. apply (Hd z); [by apply Hleaf1|].
      by apply Hleaf2, Hsame1.
    + intros Hd z Hz1 Hz2. apply (Hd z); [by apply Hleaf1|].
      by apply Hsame1, Hleaf2.
  - intros s z. by rewrite Hsame2, Hsame1.
Qed.

(** X15. In the same setting, on two special if-then-else terms that each
    have a leaf: [terms_have_disjoint_finite_domains(tbl, t, u)] returns,
    and answers true exactly when [t] and [u] have no leaf in common. *)
Theorem terms_have_disjoint_finite_domains_decides (tbl : term_table_t)
    (t u : term_t) (fuel : nat)
    (Htbl : table_ok tbl) (Hexact : domains_exact tbl)
    (Hsize : NDEBUG = true ∨ Z.of_nat (size tbl) ≤ MAX_FINITE_DOMAIN_SIZE)
    (Hsmall : Z.of_nat (size tbl) < 2 ^ 32)
    (Ht : special_term tbl t) (Hu : special_term tbl u)
    (Hfuel : (size tbl < fuel)%nat ∧ (2 * size tbl ≤ fuel)%nat)
    (Hlt : ∃ x, leaf tbl t x) (Hlu : ∃ x, leaf tbl u x) :
  ∃ b tbl',
    terms_have_disjoint_finite_domains NDEBUG MAX_FINITE_DOMAIN_SIZE
      int_array_sort fuel tbl t u = Done (b, tbl')
    ∧ (b = true ↔ ∀ x, leaf tbl t x → ¬ leaf tbl u x)
    ∧ (∀ s x, leaf tbl' s x ↔ leaf tbl s x).
Proof.
  exact (terms_have_disjoint_finite_domains_leaf_spec tbl t u fuel Htbl
           Hexact Hsize Hsmall Ht Hu Hfuel Hlt Hlu).
Qed.

End Decide.

(** ** Disequality of arithmetic terms *)

(** [q_is_integer] of [terms/rationals.h], on exact rationals in lowest
    terms. *)
Definition q_is_integer (q : Qc) : bool := bool_decide (Qden q = 1%positive).

Lemma kind_cases (k : term_kind_t) :
  k = ARITH_CONSTANT ∨ k = ITE_SPECIAL ∨ k = ARITH_POLY
  ∨ (k ≠ ARITH_CONSTANT ∧ k ≠ ITE_SPECIAL ∧ k ≠ ARITH_POLY).
Proof. destruct k; auto 10. Qed.

Ltac decide_kinds :=
  repeat match goal with
  | |- context [bool_decide (?k = ?c)] =>
      first [ rewrite (bool_decide_eq_true_2 (k = c)) by congruence
            | rewrite (bool_decide_eq_false_2 (k = c)) by congruence ]
  end.

Ltac solve_plain :=
  solve [ repeat match goal with
          | |- context [if ?c then _ else _] => destruct c
          end;
          eexists _, _; (split; [reflexivity|]);
          split_and!; intros; congruence ].

Section DisequalArith.
Variable NDEBUG : bool.
Variable MAX_FINITE_DOMAIN_SIZE : Z.
Variable int_array_sort : list term_t → list term_t.
Variable rational_term_desc : term_table_t → term_t → Qc.
(** The test [is_integer_term], the descriptor of a polynomial term and
    the checks [disequal_polynomials] and [polynomial_is_const_plus_var]
    ([terms/terms.h], [terms/polynomials.h]) are not part of these
    sources. *)
Variable is_integer_term : term_table_t → term_t → bool.
Variable polynomial_t : Type.
Variable poly_term_desc : term_table_t → term_t → polynomial_t.
Variable disequal_polynomials : polynomial_t → polynomial_t → bool.
Variable polynomial_is_const_plus_var : polynomial_t → term_t → bool.

Definition is_non_integer_term (tbl : term_table_t) (x : term_t)
  : outcome bool :=
  k ← term_kind tbl x;
  Done (bool_decide (k = ARITH_CONSTANT)
        && negb (q_is_integer (rational_term_desc tbl x))).

Definition disequal_arith_terms (fuel : nat) (tbl : term_table_t)
    (x y : term_t) : outcome (bool * term_table_t) :=
  b ← (if is_integer_term tbl x then is_non_integer_term tbl y else Done false);
  if b : bool then Done (true, tbl) else
  b ← (if is_integer_term tbl y then is_non_integer_term tbl x else Done false);
  if b : bool then Done (true, tbl) else
  kx ← term_kind tbl x;
  ky ← term_kind tbl y;
  if bool_decide (kx = ARITH_CONSTANT) && bool_decide (ky = ARITH_CONSTANT)
  then Done (negb (x =? y), tbl)
  else if bool_decide (kx = ARITH_CONSTANT) && bool_decide (ky = ITE_SPECIAL)
  then
    '(b, tbl) ← term_is_in_finite_domain NDEBUG MAX_FINITE_DOMAIN_SIZE
                  int_array_sort fuel tbl y x;
    Done (negb b, tbl)
  else if bool_decide (kx = ITE_SPECIAL) && bool_decide (ky = ARITH_CONSTANT)
  then
    '(b, tbl) ← term_is_in_finite_domain NDEBUG MAX_FINITE_DOMAIN_SIZE
                  int_array_sort fuel tbl x y;
    Done (negb b, tbl)
  else if bool_decide (kx = ITE_SPECIAL) && bool_decide (ky = ITE_SPECIAL)
  then
    terms_have_disjoint_finite_domains NDEBUG MAX_FINITE_DOMAIN_SIZE
      int_array_sort fuel tbl x y
  else if bool_decide (kx = ARITH_POLY) && bool_decide (ky = ARITH_POLY)
  then
    Done (disequal_polynomials (poly_term_desc tbl x) (poly_term_desc tbl y),
          tbl)
  else if bool_decide (kx = ARITH_POLY)
          && negb (bool_decide (ky = ARITH_CONSTANT))
  then Done (polynomial_is_const_plus_var (poly_term_desc tbl x) y, tbl)
  else if bool_decide (ky = ARITH_POLY)
          && negb (bool_decide (kx = ARITH_CONSTANT))
  then Done (polynomial_is_const_plus_var (poly_term_desc tbl y) x, tbl)
  else Done (false, tbl).

Hypothesis sort_sorted : ∀ l, Sorted Z.le (int_array_sort l).
Hypothesis sort_perm : ∀ l, int_array_sort l ≡ₚ l.

(** The special if-then-else terms among [x] and [y] have two distinct
    leaves. *)
Definition two_leaves (tbl : term_table_t) (t : term_t) : Prop :=
  special_term tbl t → ∃ a b, a ≠ b ∧ leaf tbl t a ∧ leaf tbl t b.

Lemma disequal_arith_terms_unfold tbl x y ex ey fuel :
  tbl !! x = Some ex → tbl !! y = Some ey →
  disequal_arith_terms fuel tbl x y
  = let kx := entry_kind ex in
    let ky := entry_kind ey in
    let nx := bool_decide (kx = ARITH_CONSTANT)
              && negb (q_is_integer (rational_term_desc tbl x)) in
    let ny := bool_decide (ky = ARITH_CONSTANT)
              && negb (q_is_integer (rational_term_desc tbl y)) in
    if (is_integer_term tbl x && ny) || (is_integer_term tbl y && nx)
    then Done (true, tbl)
    else
      if bool_decide (kx = ARITH_CONSTANT) && bool_decide (ky = ARITH_CONSTANT)
      then Done (negb (x =? y), tbl)
      else if bool_decide (kx = ARITH_CONSTANT) && bool_decide (ky = ITE_SPECIAL)
      then
        '(b, tbl) ← term_is_in_finite_domain NDEBUG MAX_FINITE_DOMAIN_SIZE
                      int_array_sort fuel tbl y x;
        Done (negb b, tbl)
      else if bool_decide (kx = ITE_SPECIAL) && bool_decide (ky = ARITH_CONSTANT)
      then
        '(b, tbl) ← term_is_in_finite_domain NDEBUG MAX_FINITE_DOMAIN_SIZE
                      int_array_sort fuel tbl x y;
        Done (negb b, tbl)
      else if bool_decide (kx = ITE_SPECIAL) && bool_decide (ky = ITE_SPECIAL)
      then
        terms_have_disjoint_finite_domains NDEBUG MAX_FINITE_DOMAIN_SIZE
          int_array_sort fuel tbl x y
      else if bool_decide (kx = ARITH_POLY) && bool_decide (ky = ARITH_POLY)
      then
        Done (disequal_polynomials (poly_term_desc tbl x)
                (poly_term_desc tbl y), tbl)
      else if bool_decide (kx = ARITH_POLY)
              && negb (bool_decide (ky = ARITH_CONSTANT))
      then Done (polynomial_is_const_plus_var (poly_term_desc tbl x) y, tbl)
      else if bool_decide (ky = ARITH_POLY)
              && negb (bool_decide (kx = ARITH_CONSTANT))
      then Done (polynomial_is_const_plus_var (poly_term_desc tbl y) x, tbl)
      else Done (false, tbl).
Proof.
  intros Hx Hy. unfold disequal_arith_terms, is_non_integer_term, term_kind.
  rewrite Hx, Hy. simpl.
  destruct (is_integer_term tbl x), (is_integer_term tbl y); simpl;
    repeat match goal with
    | |- context [bool_decide (?k = ARITH_CONSTANT) && negb (q_is_integer ?q)] =>
        destruct (bool_decide (k = ARITH_CONSTANT) && negb (q_is_integer q));
        simpl
    end; reflexivity.
Qed.

Section Facts.
Variables (tbl : term_table_t) (x y : term_t) (ex ey : term_entry).
Variable fuel : nat.
Hypothesis Htbl : table_ok tbl.
Hypothesis Hexact : domains_exact tbl.
Hypothesis Hsize :
  NDEBUG = true ∨ Z.of_nat (size tbl) ≤ MAX_FINITE_DOMAIN_SIZE.
Hypothesis Hsmall : Z.of_nat (size tbl) < 2 ^ 31.
Hypothesis Hfuel : (size tbl < fuel)%nat ∧ (2 * size tbl ≤ fuel)%nat.
Hypothesis Hx : tbl !! x = Some ex.
Hypothesis Hy : tbl !! y = Some ey.
Hypothesis Hlx : two_leaves tbl x.
Hypothesis Hly : two_leaves tbl y.

Lemma member_run s u es :
  tbl !! s = Some es → two_leaves tbl s → entry_kind es = ITE_SPECIAL →
  ∃ b tbl',
    term_is_in_finite_domain NDEBUG MAX_FINITE_DOMAIN_SIZE int_array_sort
      fuel tbl s u = Done (b, tbl')
    ∧ (b = true ↔ leaf tbl s u).
Proof.
  intros Hs Hl Hk. assert (special_term tbl s) as Hsp by (by exists es).
  destruct (term_is_in_finite_domain_leaf_spec NDEBUG MAX_FINITE_DOMAIN_SIZE
              int_array_sort sort_sorted sort_perm tbl s u fuel)
    as (b & tbl' & Hrun & Hb & _); try done.
  - apply Hfuel.
  - left. by apply Hl.
  - by exists b, tbl'.
Qed.

Lemma disjoint_run s u es eu :
  tbl !! s = Some es → tbl !! u = Some eu →
  two_leaves tbl s → two_leaves tbl u →
  entry_kind es = ITE_SPECIAL → entry_kind eu = ITE_SPECIAL →
  ∃ b tbl',
    terms_have_disjoint_finite_domains NDEBUG MAX_FINITE_DOMAIN_SIZE
      int_array_sort fuel tbl s u = Done (b, tbl')
    ∧ (b = true ↔ ∀ c, leaf tbl s c → ¬ leaf tbl u c).
Proof.
  intros Hs Hu Hls Hlu Hks Hku.
  assert (special_term tbl s) as Hsp by (by exists es).
  assert (special_term tbl u) as Hup by (by exists eu).
  destruct (Hls Hsp) as (a & _ & _ & Ha & _).
  destruct (Hlu Hup) as (b' & _ & _ & Hb' & _).
  destruct (terms_have_disjoint_finite_domains_leaf_spec NDEBUG
              MAX_FINITE_DOMAIN_SIZE int_array_sort sort_sorted sort_perm
              tbl s u fuel) as (b & tbl' & Hrun & Hb & _); try done.
  - lia.
  - by exists a.
  - by exists b'.
  - by exists b, tbl'.
Qed.

(** X16. On arithmetic terms of a well-formed table, where a special
    if-then-else among [x] and [y] has two distinct leaves:
    [disequal_arith_terms] returns; on a constant and a special
    if-then-else it answers true exactly when the if-then-else is an
    integer term and the constant is not an integer, or the constant is
    not at a leaf of the if-then-else; on two special if-then-else terms
    exactly when they have no leaf in common. *)
Theorem disequal_arith_terms_on_finite_domains :
  ∃ b tbl',
    disequal_arith_terms fuel tbl x y = Done (b, tbl')
    ∧ (entry_kind ex = ARITH_CONSTANT → entry_kind ey = ITE_SPECIAL →
       (b = true ↔ (is_integer_term tbl y = true
                     ∧ q_is_integer (rational_term_desc tbl x) = false)
                   ∨ ¬ leaf tbl y x))
    ∧ (entry_kind ex = ITE_SPECIAL → entry_kind ey = ARITH_CONSTANT →
       (b = true ↔ (is_integer_term tbl x = true
                     ∧ q_is_integer (rational_term_desc tbl y) = false)
                   ∨ ¬ leaf tbl x y))
    ∧ (entry_kind ex = ITE_SPECIAL → entry_kind ey = ITE_SPECIAL →
       (b = true ↔ ∀ c, leaf tbl x c → ¬ leaf tbl y c)).
Proof.
  rewrite (disequal_arith_terms_unfold tbl x y ex ey fuel Hx Hy). cbv zeta.
  destruct (kind_cases (entry_kind ex)) as [Hkx|[Hkx|[Hkx|(Hkx1 & Hkx2 & Hkx3)]]];
    destruct (kind_cases (entry_kind ey))
      as [Hky|[Hky|[Hky|(Hky1 & Hky2 & Hky3)]]];
    decide_kinds; simpl; try solve_plain.
  - (* constant, special *)
    destruct (member_run y x ey Hy Hly Hky) as (b & tbl' & Hrun & Hb).
    rewrite Hrun. simpl.
    destruct (is_integer_term tbl x), (is_integer_term tbl y),
      (q_is_integer (rational_term_desc tbl x)); simpl;
      eexists _, _; (split; [reflexivity|]);
      (split_and!; intros; try congruence);
      destruct b; simpl; intuition congruence.
  - (* special, constant *)
    destruct (member_run x y ex Hx Hlx Hkx) as (b & tbl' & Hrun & Hb).
    rewrite Hrun. simpl.
    destruct (is_integer_term tbl x), (is_integer_term tbl y),
      (q_is_integer (rational_term_desc tbl y)); simpl;
      eexists _, _; (split; [reflexivity|]);
      (split_and!; intros; try congruence);
      destruct b; simpl; intuition congruence.
  - (* special, special *)
    destruct (disjoint_run x y ex ey Hx Hy Hlx Hly Hkx Hky)
      as (b & tbl' & Hrun & Hb).
    rewrite Hrun.
    destruct (is_integer_term tbl x), (is_integer_term tbl y); simpl;
      eexists _, _; (split; [reflexivity|]);
      (split_and!; intros; try congruence); done.
Qed.

(** X17. In the same setting, when [disequal_polynomials] does not depend on
    the order of its arguments: [disequal_arith_terms(tbl, x, y)] and
    [disequal_arith_terms(tbl, y, x)] both return, with the same answer. *)
Theorem disequal_arith_terms_symmetric
    (Hpoly : ∀ p q, disequal_polynomials p q = disequal_polynomials q p) :
  ∃ b tbl1 tbl2,
    disequal_arith_terms fuel tbl x y = Done (b, tbl1)
    ∧ disequal_arith_terms fuel tbl y x = Done (b, tbl2).
Proof.
  rewrite (disequal_arith_terms_unfold tbl x y ex ey fuel Hx Hy).
  rewrite (disequal_arith_terms_unfold tbl y x ey ex fuel Hy Hx). cbv zeta.
  rewrite (orb_comm (is_integer_term tbl y && _)).
  destruct (_ || _); [by exists true, tbl, tbl|].
  rewrite (Z.eqb_sym y x), (Hpoly (poly_term_desc tbl y)).
  destruct (kind_cases (entry_kind ex)) as [Hkx|[Hkx|[Hkx|(Hkx1 & Hkx2 & Hkx3)]]];
    destruct (kind_cases (entry_kind ey))
      as [Hky|[Hky|[Hky|(Hky1 & Hky2 & Hky3)]]];
    decide_kinds; simpl; try (by eexists _, _, _).
  - destruct (member_run y x ey Hy Hly Hky) as (b & tbl' & -> & _).
    by eexists _, _, _.
  - destruct (member_run x y ex Hx Hlx Hkx) as (b & tbl' & -> & _).
    by eexists _, _, _.
  - destruct (disjoint_run x y ex ey Hx Hy Hlx Hly Hkx Hky)
      as (b1 & tbl1 & -> & Hb1).
    destruct (disjoint_run y x ey ex Hy Hx Hly Hlx Hky Hkx)
      as (b2 & tbl2 & -> & Hb2).
    assert (b1 = b2) as ->; [|by eexists _, _, _].
    destruct b1, b2; try done.
    + destruct Hb2 as [_ <-]; [done|].
      intros c Hc1 Hc2. by apply (proj1 Hb1 eq_refl c).
    + destruct Hb1 as [_ <-]; [done|].
      intros c Hc1 Hc2. by apply (proj1 Hb2 eq_refl c).
Qed.


End Facts.
End DisequalArith.

(** ** The sign of an arithmetic term *)

Section ArithSign.
Variable NDEBUG : bool.
Variable MAX_FINITE_DOMAIN_SIZE : Z.
Variable int_array_sort : list term_t → list term_t.
Variable rational_term_desc : term_table_t → term_t → Qc.
(** The test [is_arithmetic_term], the descriptor of a polynomial term
    and the sign checks on polynomials ([terms/terms.h],
    [terms/polynomials.h]) are not part of these sources. *)
Variable is_arithmetic_term : term_table_t → term_t → bool.
Variable polynomial_t : Type.
Variable poly_term_desc : term_table_t → term_t → polynomial_t.
Variables polynomial_is_nonneg polynomial_is_neg : polynomial_t → bool.

Definition arith_term_is_nonneg (fuel : nat) (tbl : term_table_t) (t : term_t)
  : outcome (bool * term_table_t) :=
  _ ← assert NDEBUG (is_arithmetic_term tbl t);
  k ← term_kind tbl t;
  match k with
  | ARITH_CONSTANT => Done (q_is_nonneg (rational_term_desc tbl t), tbl)
  | ITE_SPECIAL =>
      term_has_nonneg_finite_domain NDEBUG MAX_FINITE_DOMAIN_SIZE
        int_array_sort rational_term_desc fuel tbl t
  | ARITH_POLY => Done (polynomial_is_nonneg (poly_term_desc tbl t), tbl)
  | _ => Done (false, tbl)
  end.

Definition arith_term_is_negative (fuel : nat) (tbl : term_table_t) (t : term_t)
  : outcome (bool * term_table_t) :=
  _ ← assert NDEBUG (is_arithmetic_term tbl t);
  k ← term_kind tbl t;
  match k with
  | ARITH_CONSTANT => Done (q_is_neg (rational_term_desc tbl t), tbl)
  | ITE_SPECIAL =>
      term_has_negative_finite_domain NDEBUG MAX_FINITE_DOMAIN_SIZE
        int_array_sort rational_term_desc fuel tbl t
  | ARITH_POLY => Done (polynomial_is_neg (poly_term_desc tbl t), tbl)
  | _ => Done (false, tbl)
  end.

Hypothesis sort_sorted : ∀ l, Sorted Z.le (int_array_sort l).
Hypothesis sort_perm : ∀ l, int_array_sort l ≡ₚ l.
Hypothesis polynomial_signs :
  ∀ p, polynomial_is_nonneg p = true → polynomial_is_neg p = true → False.

(** X18. [arith_term_is_nonneg] and [arith_term_is_negative] return on every
    arithmetic term of a well-formed table, and never both answer true:
    for a constant by its sign, for a special if-then-else that has a
    leaf by the signs of its leaves, for a polynomial when the two checks
    on polynomials exclude each other; for every other term both answer
    false. *)
Theorem arith_term_signs_exclude_each_other (tbl : term_table_t) (t : term_t)
    (e : term_entry) (fuel : nat)
    (Htbl : table_ok tbl) (Hexact : domains_exact tbl)
    (Hsize : NDEBUG = true ∨ Z.of_nat (size tbl) ≤ MAX_FINITE_DOMAIN_SIZE)
    (Hfuel : (size tbl < fuel)%nat)
    (He : tbl !! t = Some e) (Harith : is_arithmetic_term tbl t = true)
    (Hleaf : entry_kind e = ITE_SPECIAL → ∃ x, leaf tbl t x) :
  ∃ b1 b2 tbl',
    arith_term_is_nonneg fuel tbl t = Done (b1, tbl')
    ∧ arith_term_is_negative fuel tbl t = Done (b2, tbl')
    ∧ ¬ (b1 = true ∧ b2 = true)
    ∧ (entry_kind e ≠ ARITH_CONSTANT → entry_kind e ≠ ITE_SPECIAL →
       entry_kind e ≠ ARITH_POLY → b1 = false ∧ b2 = false).
Proof.
  unfold arith_term_is_nonneg, arith_term_is_negative, term_kind.
  rewrite Harith, He. rewrite assert_true by done. simpl.
  destruct (entry_kind e) eqn:Hk;
    try (exists false, false, tbl; split_and!; [done..|by intros [? _]|done]).
  - eexists _, _, tbl. split_and!; [done..| |done].
    unfold q_is_nonneg, q_is_neg.
    intros [Hnn%bool_decide_eq_true Hneg%bool_decide_eq_true].
    by apply Qcle_ngt in Hnn.
  - destruct (term_finite_domain_signs_spec NDEBUG MAX_FINITE_DOMAIN_SIZE
                int_array_sort rational_term_desc sort_sorted sort_perm tbl t
                fuel Htbl Hexact Hsize) as (b1 & b2 & tbl' & -> & -> & Hb1 & Hb2);
      [by exists e|done|].
    exists b1, b2, tbl'. split_and!; [done..| |done].
    intros [Hnn Hneg]. destruct (Hleaf eq_refl) as [x Hx].
    pose proof (proj1 Hb1 Hnn x Hx) as H1.
    pose proof (proj1 Hb2 Hneg x Hx) as H2. by apply Qcle_ngt in H1.
  - eexists _, _, tbl. split_and!; [done..| |done].
    intros [? ?]. by eapply polynomial_signs.
Qed.

End ArithSign.

(** ** The table with the terms 10 = (ite 8 6 2) and 12 = (ite 8 10 4) *)

Lemma table0_exact : domains_exact table0.
Proof.
  intros t e d dom He Hk Hd Hextra. unfold table0 in He.
  repeat (apply lookup_insert_Some in He as [[<- <-]|[? He]]; [|]);
    try done; try (by apply lookup_empty_Some in He).
  - simpl in Hd. injection Hd as <-. done.
  - simpl in Hd. injection Hd as <-. done.
Qed.

Lemma table0_special_12 : special_term table0 12.
Proof. by exists (ite_entry 8 10 4). Qed.

Lemma merge_sort_sorted (l : list term_t) : Sorted Z.le (merge_sort Z.le l).
Proof. apply Sorted_merge_sort. intros x y. lia. Qed.

Lemma finite_domain_holds_the_leaves_witness :
  leaf table0 12 2 ∧ leaf table0 12 4 ∧ leaf table0 12 6
  ∧ ¬ leaf table0 12 8.
Proof.
  destruct (finite_domain_holds_the_leaves false (2 ^ 30) (merge_sort Z.le)
              merge_sort_sorted (λ l, merge_sort_Permutation Z.le l)
              table0 12 6%nat table0_ok table0_exact)
    as (dom & tbl' & Hget & Hleaf & _).
  - right. vm_compute. discriminate.
  - apply table0_special_12.
  - vm_compute. lia.
  - assert (data dom = [2; 4; 6]) as Hdata.
    { apply (f_equal (fmap fst)) in Hget. rewrite domain_of_12 in Hget.
      by injection Hget as <-. }
    rewrite Hdata in Hleaf. split_and!; try (apply Hleaf; set_solver).
    intros Hl%Hleaf. set_solver.
Defined.

(** The rational of the constant term [t] is [t - 3] here. *)
Definition example_rational (_ : term_table_t) (t : term_t) : Qc :=
  Qz (t - 3).

Lemma finite_domain_sign_checks_witness :
  finite_domain_is_nonneg example_rational table0 (FiniteDomain 3 [2; 4; 6])
  = Done false
  ∧ finite_domain_is_neg example_rational table0 (FiniteDomain 3 [2; 4; 6])
    = Done false.
Proof.
  destruct (finite_domain_sign_checks example_rational table0
              (FiniteDomain 3 [2; 4; 6]) eq_refl)
    as (b1 & b2 & H1 & H2 & _).
  assert (b1 = false) as -> by (vm_compute in H1; congruence).
  assert (b2 = false) as -> by (vm_compute in H2; congruence).
  split; [exact H1|exact H2].
Defined.

Lemma term_sign_is_the_sign_of_the_leaves_witness :
  fst <$> term_has_nonneg_finite_domain false (2 ^ 30) (merge_sort Z.le)
            example_rational 6 table0 12 = Done false
  ∧ fst <$> term_has_negative_finite_domain false (2 ^ 30) (merge_sort Z.le)
              example_rational 6 table0 12 = Done false.
Proof.
  destruct (term_sign_is_the_sign_of_the_leaves false (2 ^ 30)
              (merge_sort Z.le) example_rational
              merge_sort_sorted (λ l, merge_sort_Permutation Z.le l)
              table0 12 6%nat table0_ok table0_exact)
    as (b1 & b2 & tbl' & H1 & H2 & _).
  - right. vm_compute. discriminate.
  - apply table0_special_12.
  - vm_compute. lia.
  - rewrite H1, H2. simpl.
    apply (f_equal (fmap fst)) in H1, H2.
    vm_compute in H1, H2. split; congruence.
Defined.

Lemma arith_term_signs_exclude_each_other_witness :
  fst <$> arith_term_is_nonneg false (2 ^ 30) (merge_sort Z.le)
            example_rational (λ _ _, true) unit (λ _ _, ()) (λ _, false)
            6 table0 4 = Done true
  ∧ fst <$> arith_term_is_negative false (2 ^ 30) (merge_sort Z.le)
              example_rational (λ _ _, true) unit (λ _ _, ()) (λ _, false)
              6 table0 4 = Done false.
Proof.
  destruct (arith_term_signs_exclude_each_other false (2 ^ 30)
              (merge_sort Z.le) example_rational (λ _ _, true) unit
              (λ _ _, ()) (λ _, false) (λ _, false)
              merge_sort_sorted (λ l, merge_sort_Permutation Z.le l)
              (λ _ H _, diff_false_true H)
              table0 4 (Entry ARITH_CONSTANT None) 6%nat
              table0_ok table0_exact)
    as (b1 & b2 & tbl' & H1 & H2 & _).
  - right. vm_compute. discriminate.
  - vm_compute. lia.
  - reflexivity.
  - reflexivity.
  - intros [=].
  - rewrite H1, H2. simpl.
    apply (f_equal (fmap fst)) in H1, H2.
    vm_compute in H1, H2. split; congruence.
Defined.

Lemma table0_constant_term (t : term_t) :
  t = 2 ∨ t = 4 ∨ t = 6 → constant_term table0 t.
Proof.
  intros Ht. exists (Entry ARITH_CONSTANT None).
  split; [|by left]. by destruct Ht as [->|[->| ->]].
Qed.

Lemma table0_constant (t : term_t) :
  t = 2 ∨ t = 4 ∨ t = 6 → leaf table0 t t.
Proof. intros Ht. by apply leaf_constant, table0_constant_term. Qed.

Lemma table0_leaf_10_2 : leaf table0 10 2.
Proof.
  apply (leaf_branch table0 10 (ite_entry 8 6 2)
           (Special None (Composite 3 [8; 6; 2])) 2 2); try done.
  - by right.
  - apply table0_constant. auto.
Qed.

Lemma table0_leaf_12_2 : leaf table0 12 2.
Proof.
  apply (leaf_branch table0 12 (ite_entry 8 10 4)
           (Special None (Composite 3 [8; 10; 4])) 10 2); try done.
  - by left.
  - apply table0_leaf_10_2.
Qed.

Lemma table0_leaf_12_4 : leaf table0 12 4.
Proof.
  apply (leaf_branch table0 12 (ite_entry 8 10 4)
           (Special None (Composite 3 [8; 10; 4])) 4 4); try done.
  - by right.
  - apply table0_constant. auto.
Qed.

Lemma term_is_in_finite_domain_decides_leaf_witness :
  ∃ b tbl',
    term_is_in_finite_domain false (2 ^ 30) (merge_sort Z.le) 6 table0 12 4
    = Done (b, tbl')
    ∧ b = true.
Proof.
  destruct (term_is_in_finite_domain_decides_leaf false (2 ^ 30)
              (merge_sort Z.le) merge_sort_sorted
              (λ l, merge_sort_Permutation Z.le l)
              table0 12 4 6%nat table0_ok table0_exact)
    as (b & tbl' & Hrun & Hb & _).
  - right. vm_compute. discriminate.
  - vm_compute. reflexivity.
  - apply table0_special_12.
  - vm_compute. lia.
  - left. exists 2, 4. split; [done|].
    split; [apply table0_leaf_12_2|apply table0_leaf_12_4].
  - exists b, tbl'. split; [exact Hrun|]. apply Hb, table0_leaf_12_4.
Defined.

Lemma terms_have_disjoint_finite_domains_decides_witness :
  ∃ b tbl',
    terms_have_disjoint_finite_domains false (2 ^ 30) (merge_sort Z.le)
      12 table0 12 10 = Done (b, tbl')
    ∧ b = false.
Proof.
  destruct (terms_have_disjoint_finite_domains_decides false (2 ^ 30)
              (merge_sort Z.le) merge_sort_sorted
              (λ l, merge_sort_Permutation Z.le l)
              table0 12 10 12%nat table0_ok table0_exact)
    as (b & tbl' & Hrun & Hb & _).
  - right. vm_compute. discriminate.
  - vm_compute. reflexivity.
  - apply table0_special_12.
  - by exists (ite_entry 8 6 2).
  - vm_compute. lia.
  - exists 2. apply table0_leaf_12_2.
  - exists 2. apply table0_leaf_10_2.
  - exists b, tbl'. split; [exact Hrun|].
    destruct b; [|done]. exfalso.
    apply (proj1 Hb eq_refl 2); [apply table0_leaf_12_2|apply table0_leaf_10_2].
Defined.

Lemma constant_leaf tbl t x : constant_term tbl t → leaf tbl t x → x = t.
Proof.
  intros Hc. inversion 1 as [|? e d a ? He Hk]; [done|]. subst.
  exfalso. eapply constant_not_special; [done|]. by exists e.
Qed.

Lemma table0_leaf_10_6 : leaf table0 10 6.
Proof.
  apply (leaf_branch table0 10 (ite_entry 8 6 2)
           (Special None (Composite 3 [8; 6; 2])) 6 6); try done.
  - by left.
  - apply table0_constant. auto.
Qed.

Lemma table0_not_leaf_10_4 : ¬ leaf table0 10 4.
Proof.
  intros Hl.
  apply (leaf_special_inv table0 10 (ite_entry 8 6 2)
           (Special None (Composite 3 [8; 6; 2])) 8 6 2 4) in Hl; try done.
  destruct Hl as [Hl|Hl]; apply constant_leaf in Hl; try done;
    apply table0_constant_term; auto.
Qed.

Lemma table0_two_leaves_10 : two_leaves table0 10.
Proof.
  intros _. exists 6, 2. split; [done|].
  split; [apply table0_leaf_10_6|apply table0_leaf_10_2].
Qed.

Lemma table0_two_leaves_12 : two_leaves table0 12.
Proof.
  intros _. exists 2, 4. split; [done|].
  split; [apply table0_leaf_12_2|apply table0_leaf_12_4].
Qed.

Lemma table0_two_leaves_4 : two_leaves table0 4.
Proof. intros (e & [= <-] & Hk). discriminate. Qed.

Lemma disequal_arith_terms_on_finite_domains_witness :
  ∃ b tbl',
    disequal_arith_terms false (2 ^ 30) (merge_sort Z.le) example_rational
      (λ _ _, true) unit (λ _ _, ()) (λ _ _, false) (λ _ _, false)
      12 table0 4 10 = Done (b, tbl')
    ∧ b = true.
Proof.
  destruct (disequal_arith_terms_on_finite_domains false (2 ^ 30)
              (merge_sort Z.le) example_rational (λ _ _, true) unit
              (λ _ _, ()) (λ _ _, false) (λ _ _, false)
              merge_sort_sorted (λ l, merge_sort_Permutation Z.le l)
              table0 4 10 (Entry ARITH_CONSTANT None) (ite_entry 8 6 2)
              12%nat table0_ok table0_exact)
    as (b & tbl' & Hrun & Hcs & _).
  - right. vm_compute. discriminate.
  - vm_compute. reflexivity.
  - vm_compute. lia.
  - reflexivity.
  - reflexivity.
  - apply table0_two_leaves_4.
  - apply table0_two_leaves_10.
  - exists b, tbl'. split; [exact Hrun|].
    apply (Hcs eq_refl eq_refl). right. apply table0_not_leaf_10_4.
Defined.

Lemma disequal_arith_terms_symmetric_witness :
  ∃ b tbl1 tbl2,
    disequal_arith_terms false (2 ^ 30) (merge_sort Z.le) example_rational
      (λ _ _, true) unit (λ _ _, ()) (λ _ _, false) (λ _ _, false)
      12 table0 12 10 = Done (b, tbl1)
    ∧ disequal_arith_terms false (2 ^ 30) (merge_sort Z.le) example_rational
        (λ _ _, true) unit (λ _ _, ()) (λ _ _, false) (λ _ _, false)
        12 table0 10 12 = Done (b, tbl2).
Proof.
  apply (disequal_arith_terms_symmetric false (2 ^ 30)
           (merge_sort Z.le) example_rational (λ _ _, true) unit
           (λ _ _, ()) (λ _ _, false) (λ _ _, false)
           merge_sort_sorted (λ l, merge_sort_Permutation Z.le l)
           table0 12 10 (ite_entry 8 10 4) (ite_entry 8 6 2)
           12%nat table0_ok table0_exact).
  - right. vm_compute. discriminate.
  - vm_compute. reflexivity.
  - vm_compute. lia.
  - reflexivity.
  - reflexivity.
  - apply table0_two_leaves_12.
  - apply table0_two_leaves_10.
  - reflexivity.
Defined.

End FiniteDomains.
